(** * Correctly rounded complex squaring: [mpc_sqr] and [mpfr_fmma] (src/sqr.c)

    The development embeds [src/sqr.c] over an explicit model of the
    arbitrary-precision real arithmetic it calls.  Numbers are sign,
    significand and exponent; every variable of type [mpfr_t] is a cell of a
    store, so that the case [rop == op] of [mpc_sqr] is the same code run
    with two equal pointers. *)

From Stdlib Require Import ZArith Bool Lia Lqa List QArith Qpower.
Import ListNotations.

Local Open Scope Z_scope.

(** ** Arbitrary-precision reals *)

(** Rounding modes of the real arithmetic ([GMP_RNDx] is the older spelling
    of [MPFR_RNDx]). *)
Inductive mpfr_rnd_t : Set :=
| MPFR_RNDN | MPFR_RNDZ | MPFR_RNDU | MPFR_RNDD | MPFR_RNDA.

Definition GMP_RNDN := MPFR_RNDN.
Definition GMP_RNDZ := MPFR_RNDZ.
Definition GMP_RNDU := MPFR_RNDU.
Definition GMP_RNDD := MPFR_RNDD.

Definition rnd_eqb (r1 r2 : mpfr_rnd_t) : bool :=
  match r1, r2 with
  | MPFR_RNDN, MPFR_RNDN | MPFR_RNDZ, MPFR_RNDZ | MPFR_RNDU, MPFR_RNDU
  | MPFR_RNDD, MPFR_RNDD | MPFR_RNDA, MPFR_RNDA => true
  | _, _ => false
  end.

(** Number of significant bits of a significand. *)
Definition digits (m : positive) : Z := Z.succ (Z.log2 (Z.pos m)).

(** The value held by an [mpfr_t]: the special-value tag, or a sign, a
    significand [m] and an exponent [e] standing for
    [(-1)^neg * 0.m * 2^e], that is [m * 2^(e - digits m)].  A variable of
    precision [p] holds significands of exactly [p] bits; exact intermediate
    results use wider ones. *)
Inductive mpfr_val : Set :=
| NaN
| Inf (neg : bool)
| Zero (neg : bool)
| Fin (neg : bool) (m : positive) (e : Z).

Record mpfr_t : Set := mk_mpfr { prec_of : Z; val_of : mpfr_val }.

Definition val_eqb (a b : mpfr_val) : bool :=
  match a, b with
  | NaN, NaN => true
  | Inf s, Inf t | Zero s, Zero t => Bool.eqb s t
  | Fin s m e, Fin t n f => Bool.eqb s t && Pos.eqb m n && Z.eqb e f
  | _, _ => false
  end.

Definition is_nan (v : mpfr_val) : bool := match v with NaN => true | _ => false end.
Definition is_inf (v : mpfr_val) : bool := match v with Inf _ => true | _ => false end.
Definition is_zero (v : mpfr_val) : bool := match v with Zero _ => true | _ => false end.
Definition is_fin (v : mpfr_val) : bool := match v with Fin _ _ _ => true | _ => false end.
(** [mpfr_number_p]: neither NaN nor an infinity. *)
Definition is_number (v : mpfr_val) : bool :=
  match v with NaN | Inf _ => false | _ => true end.

(** The sign bit; a NaN carries none that this file reads. *)
Definition signbit (v : mpfr_val) : bool :=
  match v with
  | NaN => false
  | Inf s | Zero s | Fin s _ _ => s
  end.

(** [MPFR_SIGN]: the sign field, [1] or [-1]. *)
Definition MPFR_SIGN (v : mpfr_val) : Z := if signbit v then -1 else 1.

(** [mpfr_sgn]: positive, zero or negative as the number is; zero for NaN. *)
Definition sgn (v : mpfr_val) : Z :=
  match v with
  | NaN | Zero _ => 0
  | Inf s | Fin s _ _ => if s then -1 else 1
  end.

Definition neg_val (v : mpfr_val) : mpfr_val :=
  match v with
  | NaN => NaN
  | Inf s => Inf (negb s)
  | Zero s => Zero (negb s)
  | Fin s m e => Fin (negb s) m e
  end.

(** The exponent field read by [mpfr_get_exp].  For the three special tags
    the field holds a reserved value below every legal exponent
    ([MPFR_EXP_ZERO], [MPFR_EXP_NAN], [MPFR_EXP_INF] on a 64-bit [long]). *)
Definition MPFR_EXP_MIN : Z := - 2 ^ 63.
Definition get_exp (v : mpfr_val) : Z :=
  match v with
  | Zero _ => MPFR_EXP_MIN + 1
  | NaN => MPFR_EXP_MIN + 2
  | Inf _ => MPFR_EXP_MIN + 3
  | Fin _ _ e => e
  end.

(** Exact real value of a number, for stating what "the true value" is. *)
Definition Q_of_val (v : mpfr_val) : Q :=
  match v with
  | Fin s m e =>
      (if s then -1 else 1) * inject_Z (Z.pos m) * Qpower 2 (e - digits m)
  | _ => 0
  end%Q.

(** ** Rounding to a precision and an exponent range *)

Definition is_like_rndz (rnd : mpfr_rnd_t) (neg : bool) : bool :=
  match rnd with
  | MPFR_RNDZ => true
  | MPFR_RNDU => neg
  | MPFR_RNDD => negb neg
  | _ => false
  end.

(** Result of a rounded operation: value, ternary inexactness value (sign of
    result minus exact), and whether the underflow exception was raised. *)
Record rounded : Set := mk_rounded
  { r_val : mpfr_val; r_inex : Z; r_underflow : bool }.

Definition exact_result (v : mpfr_val) : rounded := mk_rounded v 0 false.

Definition signed (neg : bool) (i : Z) : Z := if neg then - i else i.

Definition is_pow2 (m : positive) : bool := Z.pos m =? 2 ^ Z.log2 (Z.pos m).

(** Whether the truncated significand [q] with remainder [r] (out of
    [2 * half]) is rounded up in magnitude. *)
Definition round_away (rnd : mpfr_rnd_t) (neg : bool) (q r half : Z) : bool :=
  match rnd with
  | MPFR_RNDN => (half <? r) || ((r =? half) && Z.odd q)
  | MPFR_RNDZ => false
  | MPFR_RNDA => true
  | MPFR_RNDU => negb neg
  | MPFR_RNDD => neg
  end.

(** Rounding of the significand alone, with an unbounded exponent: the
    [p]-bit significand, the exponent and the direction in magnitude. *)
Definition round_raw (p : Z) (rnd : mpfr_rnd_t) (neg : bool) (m : positive)
  (e : Z) : Z * Z * Z :=
  let n := digits m in
  if n <=? p then (Z.shiftl (Z.pos m) (p - n), e, 0)
  else
    let k := n - p in
    let q := Z.shiftr (Z.pos m) k in
    let r := Z.pos m mod 2 ^ k in
    if r =? 0 then (q, e, 0)
    else if round_away rnd neg q r (2 ^ (k - 1)) then
      if q + 1 =? 2 ^ p then (2 ^ (p - 1), e + 1, 1) else (q + 1, e, 1)
    else (q, e, -1).

Section Arithmetic.

(** The exponent range in force, [mpfr_get_emin ()] and [mpfr_get_emax ()]. *)
Variables emin emax : Z.

(** Overflow: the largest number of the format or an infinity. *)
Definition mpfr_overflow (p : Z) (rnd : mpfr_rnd_t) (neg : bool) : rounded :=
  if is_like_rndz rnd neg
  then mk_rounded (Fin neg (Z.to_pos (2 ^ p - 1)) emax) (signed neg (-1)) false
  else mk_rounded (Inf neg) (signed neg 1) false.

(** Underflow: zero or the smallest number of the format, [0.5 * 2^emin]. *)
Definition mpfr_underflow (p : Z) (rnd : mpfr_rnd_t) (neg : bool) : rounded :=
  if is_like_rndz rnd neg
  then mk_rounded (Zero neg) (signed neg (-1)) true
  else mk_rounded (Fin neg (Z.to_pos (2 ^ (p - 1))) emin) (signed neg 1) true.

(** In rounding to nearest an underflowing result goes to zero when the
    exact magnitude is at most [2^(emin-2)], the middle of zero and the
    smallest number. *)
Definition underflow_rnd (rnd : mpfr_rnd_t) (m : positive) (e : Z) : mpfr_rnd_t :=
  match rnd with
  | MPFR_RNDN =>
      if (e <? emin - 1) || ((e =? emin - 1) && is_pow2 m) then MPFR_RNDZ
      else MPFR_RNDN
  | _ => rnd
  end.

(** Correct rounding of an exact value to precision [p] in mode [rnd]. *)
Definition round (p : Z) (rnd : mpfr_rnd_t) (v : mpfr_val) : rounded :=
  match v with
  | Fin neg m e =>
      let '(m', e', i) := round_raw p rnd neg m e in
      if emax <? e' then mpfr_overflow p rnd neg
      else if e' <? emin then mpfr_underflow p (underflow_rnd rnd m e) neg
      else mk_rounded (Fin neg (Z.to_pos m') e') (signed neg i) false
  | _ => exact_result v
  end.

(** Exact product. *)
Definition mul_exact (a b : mpfr_val) : mpfr_val :=
  match a, b with
  | NaN, _ | _, NaN => NaN
  | Inf _, Zero _ | Zero _, Inf _ => NaN
  | Inf s, (Inf t | Fin t _ _) | Fin s _ _, Inf t => Inf (xorb s t)
  | Zero s, (Zero t | Fin t _ _) | Fin s _ _, Zero t => Zero (xorb s t)
  | Fin s m e, Fin t n f =>
      Fin (xorb s t) (m * n)
          (e + f - (digits m + digits n - digits (m * n)))
  end.

(** Exact sum; a zero sum of opposite numbers is [+0], or [-0] when
    rounding down. *)
Definition add_exact (rnd : mpfr_rnd_t) (a b : mpfr_val) : mpfr_val :=
  match a, b with
  | NaN, _ | _, NaN => NaN
  | Inf s, Inf t => if Bool.eqb s t then Inf s else NaN
  | Inf s, _ => Inf s
  | _, Inf t => Inf t
  | Zero s, Zero t => Zero (if Bool.eqb s t then s else rnd_eqb rnd MPFR_RNDD)
  | Zero _, Fin _ _ _ => b
  | Fin _ _ _, Zero _ => a
  | Fin s m e, Fin t n f =>
      let la := e - digits m in
      let lb := f - digits n in
      let l := Z.min la lb in
      let M := signed s (Z.shiftl (Z.pos m) (la - l))
               + signed t (Z.shiftl (Z.pos n) (lb - l)) in
      if M =? 0 then Zero (rnd_eqb rnd MPFR_RNDD)
      else Fin (M <? 0) (Z.to_pos (Z.abs M)) (l + digits (Z.to_pos (Z.abs M)))
  end.

Definition mul_val (p : Z) (rnd : mpfr_rnd_t) (a b : mpfr_val) : rounded :=
  round p rnd (mul_exact a b).
Definition add_val (p : Z) (rnd : mpfr_rnd_t) (a b : mpfr_val) : rounded :=
  round p rnd (add_exact rnd a b).
Definition sub_val (p : Z) (rnd : mpfr_rnd_t) (a b : mpfr_val) : rounded :=
  round p rnd (add_exact rnd a (neg_val b)).

End Arithmetic.

(** ** C integer conversions used with the unbounded exponents of
    [mpfr_fmma] *)

(** Conversion to [unsigned long] and to [long] (64 bits). *)
Definition to_ulong (z : Z) : Z := z mod 2 ^ 64.
Definition to_long (z : Z) : Z := (z + 2 ^ 63) mod 2 ^ 64 - 2 ^ 63.

(** [mpz_get_ui]: the low limb of the absolute value. *)
Definition mpz_get_ui (z : Z) : Z := Z.abs z mod 2 ^ 64.
(** [mpz_get_si]: the low bits of the absolute value with the sign. *)
Definition mpz_get_si (z : Z) : Z :=
  if 0 <? z then Z.land (to_ulong z) (2 ^ 63 - 1)
  else if z <? 0 then -1 - Z.land (to_ulong (Z.abs z - 1)) (2 ^ 63 - 1)
  else 0.

Definition mpz_add_ui (x y : Z) : Z := x + to_ulong y.
Definition mpz_sub_ui (x y : Z) : Z := x - to_ulong y.
(** The macro [mpz_add_si] of sqr.c, lines 24-29. *)
Definition mpz_add_si (x y : Z) : Z :=
  if 0 <=? y then mpz_add_ui x y else mpz_sub_ui x (- y).

(** ** The store *)

(** An [mpc_t] object is named by its address; the [mpfr_t] variables are the
    real and imaginary fields of such objects and the local variables of the
    two functions ([u], [v], [x] of [mpc_sqr]; [u], [v] of [mpfr_fmma]). *)
Definition ptr : Set := nat.

Inductive local : Set := sqr_u | sqr_v | sqr_x | fmma_u | fmma_v.

Inductive var : Set :=
| Re (p : ptr)
| Im (p : ptr)
| Local (l : local).

Definition local_eqb (a b : local) : bool :=
  match a, b with
  | sqr_u, sqr_u | sqr_v, sqr_v | sqr_x, sqr_x
  | fmma_u, fmma_u | fmma_v, fmma_v => true
  | _, _ => false
  end.

Definition var_eqb (a b : var) : bool :=
  match a, b with
  | Re p, Re q | Im p, Im q => Nat.eqb p q
  | Local l, Local k => local_eqb l k
  | _, _ => false
  end.

(** Memory and the underflow flag, the only exception flag sqr.c reads. *)
Record state : Type := mk_state
  { mem : var -> mpfr_t; underflow_flag : bool }.

Definition upd (f : var -> mpfr_t) (x : var) (c : mpfr_t) : var -> mpfr_t :=
  fun y => if var_eqb y x then c else f y.

(** A run returns a value and a state, stops at a failed [MPC_ASSERT]
    (which calls [abort]), or exhausts the fuel given to the loop. *)
Inductive outcome (A : Type) : Type :=
| Returns (a : A) (s : state)
| AssertionFailed
| OutOfFuel.
Arguments Returns {A} a s.
Arguments AssertionFailed {A}.
Arguments OutOfFuel {A}.

Definition M (A : Type) : Type := state -> outcome A.

Definition ret {A} (a : A) : M A := fun s => Returns a s.
Definition bind {A B} (c : M A) (k : A -> M B) : M B :=
  fun s =>
    match c s with
    | Returns a s' => k a s'
    | AssertionFailed => AssertionFailed
    | OutOfFuel => OutOfFuel
    end.

Declare Scope monad_scope.
Delimit Scope monad_scope with monad.
Notation "x <- c ;; k" := (bind c (fun x => k))
  (at level 61, c at next level, right associativity) : monad_scope.
Notation "c ;; k" := (bind c (fun _ => k))
  (at level 61, right associativity) : monad_scope.
Local Open Scope monad_scope.

Definition read (x : var) : M mpfr_t := fun s => Returns (mem s x) s.
Definition read_val (x : var) : M mpfr_val := fun s => Returns (val_of (mem s x)) s.
Definition write (x : var) (c : mpfr_t) : M unit :=
  fun s => Returns tt (mk_state (upd (mem s) x c) (underflow_flag s)).
Definition write_val (x : var) (v : mpfr_val) : M unit :=
  fun s => Returns tt
    (mk_state (upd (mem s) x (mk_mpfr (prec_of (mem s x)) v)) (underflow_flag s)).
Definition raise_underflow (b : bool) : M unit :=
  fun s => Returns tt (mk_state (mem s) (underflow_flag s || b)).

(** Store a rounded result in [z] and return its ternary value. *)
Definition store (z : var) (r : rounded) : M Z :=
  write_val z (r_val r) ;; raise_underflow (r_underflow r) ;; ret (r_inex r).

Definition MPC_ASSERT (b : bool) : M unit :=
  fun s => if b then Returns tt s else AssertionFailed.

(** ** The real-arithmetic interface over the store

    Modelled from the spec: section 6 lists what sqr.c consumes from the
    arbitrary-precision real arithmetic package (classification,
    construction, arithmetic with an explicit rounding mode and a ternary
    return value, exponent access, exponent range, the can-round predicate).
    That package is no part of this repository; each function below follows
    its documented contract: the exact result, rounded once to the precision
    of the destination. *)

Section Program.

Variables emin emax : Z.

(** [mpfr_can_round b err rnd1 rnd2 prec] on the value of [b].  The theorems
    below hold for whatever this predicate answers; [can_round_interval]
    further down is the documented contract, used to run examples. *)
Variable can_round : mpfr_val -> Z -> mpfr_rnd_t -> mpfr_rnd_t -> Z -> bool.

Definition mpfr_get_emin : Z := emin.
Definition mpfr_get_emax : Z := emax.

Definition mpfr_default_prec : Z := 53.

Definition mpfr_init2 (x : var) (p : Z) : M unit := write x (mk_mpfr p NaN).
Definition mpfr_init (x : var) : M unit := mpfr_init2 x mpfr_default_prec.
Definition mpfr_set_prec (x : var) (p : Z) : M unit := write x (mk_mpfr p NaN).
Definition mpfr_clear (x : var) : M unit := ret tt.
Definition mpfr_get_prec (x : var) : M Z := c <- read x ;; ret (prec_of c).

Definition mpfr_nan_p (x : var) : M bool := v <- read_val x ;; ret (is_nan v).
Definition mpfr_inf_p (x : var) : M bool := v <- read_val x ;; ret (is_inf v).
Definition mpfr_zero_p (x : var) : M bool := v <- read_val x ;; ret (is_zero v).
Definition mpfr_number_p (x : var) : M bool := v <- read_val x ;; ret (is_number v).
Definition mpfr_signbit (x : var) : M bool := v <- read_val x ;; ret (signbit v).
Definition mpfr_sgn (x : var) : M Z := v <- read_val x ;; ret (sgn v).
Definition mpfr_sign (x : var) : M Z := v <- read_val x ;; ret (MPFR_SIGN v).

Definition mpfr_set_nan (x : var) : M unit := write_val x NaN.
Definition mpfr_set_inf (x : var) (sign : Z) : M unit := write_val x (Inf (sign <? 0)).

Definition mpfr_get_exp (x : var) : M Z := v <- read_val x ;; ret (get_exp v).

(** [mpfr_set_exp] changes the exponent when it lies in the current range and
    returns non-zero otherwise.  It is only meant for regular numbers; the
    special values are left alone here. *)
Definition set_exp (v : mpfr_val) (e : Z) : mpfr_val :=
  match v with
  | Fin s m _ => Fin s m e
  | _ => v
  end.
Definition mpfr_set_exp (x : var) (e : Z) : M Z :=
  if (emin <=? e) && (e <=? emax)
  then v <- read_val x ;; write_val x (set_exp v e) ;; ret 0
  else ret 1.

Definition mpfr_set (z x : var) (rnd : mpfr_rnd_t) : M Z :=
  c <- read z ;; a <- read_val x ;;
  store z (round emin emax (prec_of c) rnd a).

(** In place the sign is flipped; otherwise the opposite is rounded into
    the destination. *)
Definition mpfr_neg (z x : var) (rnd : mpfr_rnd_t) : M Z :=
  c <- read z ;; a <- read_val x ;;
  if var_eqb z x then write_val z (neg_val a) ;; ret 0
  else store z (round emin emax (prec_of c) rnd (neg_val a)).

Definition mpfr_mul (z x y : var) (rnd : mpfr_rnd_t) : M Z :=
  c <- read z ;; a <- read_val x ;; b <- read_val y ;;
  store z (mul_val emin emax (prec_of c) rnd a b).

Definition mpfr_sqr (z x : var) (rnd : mpfr_rnd_t) : M Z :=
  c <- read z ;; a <- read_val x ;;
  store z (mul_val emin emax (prec_of c) rnd a a).

Definition mpfr_add (z x y : var) (rnd : mpfr_rnd_t) : M Z :=
  c <- read z ;; a <- read_val x ;; b <- read_val y ;;
  store z (add_val emin emax (prec_of c) rnd a b).

Definition mpfr_sub (z x y : var) (rnd : mpfr_rnd_t) : M Z :=
  c <- read z ;; a <- read_val x ;; b <- read_val y ;;
  store z (sub_val emin emax (prec_of c) rnd a b).

(** The non-negative integer [n] as an exact value. *)
Definition val_of_Z (n : Z) : mpfr_val :=
  if n =? 0 then Zero false
  else Fin (n <? 0) (Z.to_pos (Z.abs n)) (digits (Z.to_pos (Z.abs n))).

Definition mpfr_set_si (z : var) (n : Z) (rnd : mpfr_rnd_t) : M Z :=
  c <- read z ;; store z (round emin emax (prec_of c) rnd (val_of_Z n)).
Definition mpfr_set_ui (z : var) (n : Z) (rnd : mpfr_rnd_t) : M Z :=
  mpfr_set_si z n rnd.

(** [mpfr_set_ui_2exp z n e rnd]: [n * 2^e] rounded. *)
Definition mpfr_set_ui_2exp (z : var) (n e : Z) (rnd : mpfr_rnd_t) : M Z :=
  c <- read z ;;
  store z (round emin emax (prec_of c) rnd
             (match val_of_Z n with
              | Fin s m f => Fin s m (f + e)
              | w => w
              end)).

(** Multiplication by [2^n], [n] an [unsigned long]: the value is first
    rounded into the destination (nothing to do in place), then the exponent
    is raised, with overflow when it leaves the range. *)
Definition mpfr_mul_2ui (z x : var) (n : Z) (rnd : mpfr_rnd_t) : M Z :=
  inexact <- (if var_eqb z x then ret 0 else mpfr_set z x rnd) ;;
  c <- read z ;;
  match val_of c with
  | Fin s m e =>
      if emax <? e + n then store z (mpfr_overflow emax (prec_of c) rnd s)
      else write_val z (Fin s m (e + n)) ;; ret inexact
  | _ => ret inexact
  end.

Definition mpfr_mul_2exp := mpfr_mul_2ui.

(** Division by [2^n]: the exponent is lowered, with underflow when it falls
    below [emin]; in rounding to nearest the underflowing value goes to zero
    when it is at most the middle of zero and the smallest number. *)
Definition mpfr_div_2ui (z x : var) (n : Z) (rnd : mpfr_rnd_t) : M Z :=
  inexact <- (if var_eqb z x then ret 0 else mpfr_set z x rnd) ;;
  c <- read z ;;
  match val_of c with
  | Fin s m e =>
      if n =? 0 then ret inexact
      else if e - n <? emin then
        store z
          (mpfr_underflow emin (prec_of c)
             (match rnd with
              | MPFR_RNDN =>
                  if (e - n <? emin - 1) || ((0 <=? inexact) && is_pow2 m)
                  then MPFR_RNDZ else MPFR_RNDN
              | _ => rnd
              end) s)
      else write_val z (Fin s m (e - n)) ;; ret inexact
  | _ => ret inexact
  end.

Definition mpfr_can_round (b : var) (err : Z) (rnd1 rnd2 : mpfr_rnd_t) (p : Z)
  : M bool :=
  v <- read_val b ;; ret (can_round v err rnd1 rnd2 p).

Definition mpfr_underflow_p : M bool := fun s => Returns (underflow_flag s) s.
Definition mpfr_clear_underflow : M unit := fun s => Returns tt (mk_state (mem s) false).
Definition mpfr_set_underflow : M unit := fun s => Returns tt (mk_state (mem s) true).

(** ** The complex layer (mpc.h, mpc-impl.h) *)

(** Modelled from the spec: a RoundingDirective is a pair of rounding modes,
    one per component; [MPC_RND_RE] and [MPC_RND_IM] select them. *)
Definition mpc_rnd_t : Set := (mpfr_rnd_t * mpfr_rnd_t)%type.
Definition MPC_RND_RE (rnd : mpc_rnd_t) : mpfr_rnd_t := fst rnd.
Definition MPC_RND_IM (rnd : mpc_rnd_t) : mpfr_rnd_t := snd rnd.
Definition MPC_RNDNN : mpc_rnd_t := (MPFR_RNDN, MPFR_RNDN).

(** Modelled from the spec: the return value is the pair of inexactness
    flags, each a signed ternary (negative, zero, positive). *)
Definition MPC_INEX (inex_re inex_im : Z) : Z * Z := (Z.sgn inex_re, Z.sgn inex_im).

(** Modelled from the spec: components may carry different precisions;
    [MPC_PREC_RE] reads the precision of the real part and [MPC_MAX_PREC] the
    larger of the two. *)
Definition MPC_PREC_RE (x : ptr) : M Z := mpfr_get_prec (Re x).
Definition MPC_PREC_IM (x : ptr) : M Z := mpfr_get_prec (Im x).
Definition MPC_MAX_PREC (x : ptr) : M Z :=
  p <- MPC_PREC_RE x ;; q <- MPC_PREC_IM x ;; ret (Z.max p q).

(** Modelled from the spec: the mode that rounds the opposite number the
    same way (used for "the negated square ... at target precision/mode"):
    up and down are exchanged. *)
Definition INV_RND (r : mpfr_rnd_t) : mpfr_rnd_t :=
  match r with
  | MPFR_RNDU => MPFR_RNDD
  | MPFR_RNDD => MPFR_RNDU
  | _ => r
  end.

(** Modelled from the spec: [skew = |exponent(x) - exponent(y)|]. *)
Definition SAFE_ABS (x : Z) : Z := Z.abs x.

(** Modelled from the spec: the working precision grows by "the target
    precision's own logarithm plus a small constant"; [mpc_ceil_log2 n] is
    the least [k] with [n <= 2^k]. *)
Definition mpc_ceil_log2 (n : Z) : Z := Z.log2_up n.

(** Modelled from the spec: [u], [v] are "rounded away from zero at the
    current working precision"; with a real arithmetic that has the mode
    [MPFR_RNDA], [ROUND_AWAY (f, rop)] is the call [f] itself. *)
Definition ROUND_AWAY (f : M Z) (rop : var) : M Z := f.

(** Modelled from the spec: an operand is finite when neither component is
    NaN or infinite. *)
Definition mpc_fin_p (z : ptr) : M bool :=
  a <- mpfr_number_p (Re z) ;; b <- mpfr_number_p (Im z) ;; ret (a && b).

(** Modelled from the spec: "conjugate the result (negate the imaginary
    output)". *)
Definition mpc_conj (rop op : ptr) (rnd : mpc_rnd_t) : M (Z * Z) :=
  inex_re <- mpfr_set (Re rop) (Re op) (MPC_RND_RE rnd) ;;
  inex_im <- mpfr_neg (Im rop) (Im op) (MPC_RND_IM rnd) ;;
  ret (MPC_INEX inex_re inex_im).

(** ** [mpfr_fmma] (sqr.c, lines 31-169) *)

(** Lines 99-128: both products overflowed and their signs differ. *)
Definition fmma_overflow (z : var) (eu ev : Z) (rnd : mpfr_rnd_t) : M Z :=
  let emax := mpfr_get_emax in
  eu <- (if ev <=? eu then
           mpfr_set_exp (Local fmma_u) emax ;;
           let eu := mpz_sub_ui eu emax in
           let ev := ev - eu in
           mpfr_set_exp (Local fmma_v) (to_long (mpz_get_ui ev)) ;;
           ret eu
         else
           mpfr_set_exp (Local fmma_v) emax ;;
           let ev := mpz_sub_ui ev emax in
           let eu := eu - ev in
           mpfr_set_exp (Local fmma_u) (to_long (mpz_get_ui eu)) ;;
           ret ev) ;;
  inex <- mpfr_add z (Local fmma_u) (Local fmma_v) rnd ;;
  overflow <- mpfr_mul_2ui z z (mpz_get_ui eu) rnd ;;
  ret (if overflow =? 0 then inex else overflow).

(** Lines 129-153: an underflow while forming the products. *)
Definition fmma_underflow (z : var) (eu ev : Z) (rnd : mpfr_rnd_t) : M Z :=
  let emin := mpfr_get_emin in
  eu <- (if eu <=? ev then
           mpfr_set_exp (Local fmma_u) emin ;;
           let eu := mpz_add_ui eu (- emin) in
           let ev := ev - eu in
           mpfr_set_exp (Local fmma_v) (mpz_get_si ev) ;;
           ret eu
         else
           mpfr_set_exp (Local fmma_v) emin ;;
           let ev := mpz_add_ui ev (- emin) in
           let eu := eu - ev in
           mpfr_set_exp (Local fmma_u) (mpz_get_si eu) ;;
           ret ev) ;;
  inex <- mpfr_add z (Local fmma_u) (Local fmma_v) rnd ;;
  let eu := - eu in
  underflow <- mpfr_div_2ui z z (mpz_get_ui eu) rnd ;;
  ret (if underflow =? 0 then inex else underflow).

(** Lines 61-163: redo the computation with unbounded exponents. *)
Definition fmma_rescue (z a b c d : var) (sign : Z) (rnd : mpfr_rnd_t) : M Z :=
  let u := Local fmma_u in
  let v := Local fmma_v in
  ea <- mpfr_get_exp a ;;
  eb <- mpfr_get_exp b ;;
  ec <- mpfr_get_exp c ;;
  ed <- mpfr_get_exp d ;;
  mpfr_set_exp a 0 ;;
  mpfr_set_exp b 0 ;;
  mpfr_set_exp c 0 ;;
  mpfr_set_exp d 0 ;;
  let eu := mpz_add_si ea eb in
  let ev := mpz_add_si ec ed in
  mpfr_mul u a b GMP_RNDN ;;
  xu <- mpfr_get_exp u ;;
  let eu := mpz_sub_ui eu (- xu) in
  mpfr_set_exp u 0 ;;
  mpfr_mul v c d GMP_RNDN ;;
  (if sign <? 0 then mpfr_neg v v GMP_RNDN else ret 0) ;;
  xv <- mpfr_get_exp v ;;
  let ev := mpz_sub_ui ev (- xv) in
  mpfr_set_exp v 0 ;;
  znan <- mpfr_nan_p z ;;
  inex <- (if znan then fmma_overflow z eu ev rnd
           else fmma_underflow z eu ev rnd) ;;
  mpfr_set_exp a ea ;;
  mpfr_set_exp b eb ;;
  mpfr_set_exp c ec ;;
  mpfr_set_exp d ed ;;
  ret inex.

Definition mpfr_fmma (z a b c d : var) (sign : Z) (rnd : mpfr_rnd_t) : M Z :=
  let u := Local fmma_u in
  let v := Local fmma_v in
  pa <- mpfr_get_prec a ;; pb <- mpfr_get_prec b ;;
  mpfr_init2 u (pa + pb) ;;
  pc <- mpfr_get_prec c ;; pd <- mpfr_get_prec d ;;
  mpfr_init2 v (pc + pd) ;;
  mpfr_mul u a b GMP_RNDN ;;
  mpfr_mul v c d GMP_RNDN ;;
  (if sign <? 0 then mpfr_neg v v GMP_RNDN else ret 0) ;;
  inex <- mpfr_add z u v rnd ;;
  zinf <- mpfr_inf_p z ;;
  inex <- (if zinf then
             sb <- mpfr_signbit z ;;
             mpfr_set_si z (if sb then -1 else 1) GMP_RNDN ;;
             mpfr_mul_2ui z z (to_ulong mpfr_get_emax) rnd
           else
             uinf <- mpfr_inf_p u ;; vinf <- mpfr_inf_p v ;;
             uzero <- mpfr_zero_p u ;; vzero <- mpfr_zero_p v ;;
             if uinf || vinf || uzero || vzero
             then fmma_rescue z a b c d sign rnd
             else ret inex) ;;
  mpfr_clear u ;;
  mpfr_clear v ;;
  ret inex.

(** ** [mpc_sqr] (sqr.c, lines 171-376) *)

(** Lines 186-212: NaN and infinities. *)
Definition sqr_special (rop op : ptr) : M unit :=
  let set_inf_im :=
    (sr <- mpfr_sign (Re op) ;; si <- mpfr_sign (Im op) ;;
     mpfr_set_inf (Im rop) (sr * si)) in
  re_nan <- mpfr_nan_p (Re op) ;;
  im_nan <- mpfr_nan_p (Im op) ;;
  if re_nan || im_nan then
    mpfr_set_nan (Re rop) ;;
    mpfr_set_nan (Im rop)
  else
    re_inf <- mpfr_inf_p (Re op) ;;
    if re_inf then
      im_inf <- mpfr_inf_p (Im op) ;;
      if im_inf then
        set_inf_im ;;
        mpfr_set_nan (Re rop)
      else
        im_zero <- mpfr_zero_p (Im op) ;;
        (if im_zero then mpfr_set_nan (Im rop) else set_inf_im) ;;
        mpfr_set_inf (Re rop) 1
    else
      re_zero <- mpfr_zero_p (Re op) ;;
      (if re_zero then mpfr_set_nan (Im rop) else set_inf_im) ;;
      mpfr_set_inf (Re rop) (-1).

(** Lines 219-226: the operand is real. *)
Definition sqr_real (rop op : ptr) (rnd : mpc_rnd_t) : M (Z * Z) :=
  sr <- mpfr_signbit (Re op) ;;
  si <- mpfr_signbit (Im op) ;;
  let same_sign := Bool.eqb sr si in
  inex_re <- mpfr_sqr (Re rop) (Re op) (MPC_RND_RE rnd) ;;
  inex_im <- mpfr_set_ui (Im rop) 0 GMP_RNDN ;;
  (if negb same_sign then mpc_conj rop rop MPC_RNDNN ;; ret tt else ret tt) ;;
  ret (MPC_INEX inex_re inex_im).

(** Lines 227-235: the operand is purely imaginary. *)
Definition sqr_imag (rop op : ptr) (rnd : mpc_rnd_t) : M (Z * Z) :=
  sr <- mpfr_signbit (Re op) ;;
  si <- mpfr_signbit (Im op) ;;
  let same_sign := Bool.eqb sr si in
  i <- mpfr_sqr (Re rop) (Im op) (INV_RND (MPC_RND_RE rnd)) ;;
  let inex_re := - i in
  mpfr_neg (Re rop) (Re rop) GMP_RNDN ;;
  inex_im <- mpfr_set_ui (Im rop) 0 GMP_RNDN ;;
  (if negb same_sign then mpc_conj rop rop MPC_RNDNN ;; ret tt else ret tt) ;;
  ret (MPC_INEX inex_re inex_im).

(** What one turn of the [do ... while (!ok)] loop decides: leave the loop
    with [inex_re] set (by [break] or with [ok] non-zero), or go round
    again. *)
Inductive ctl : Set :=
| Exit (inex_re : Z)
| Again.

(** Lines 306-312 and 348-353: [if (ok)], round [u] into the real part. *)
Definition sqr_if_ok (rop : ptr) (rnd : mpc_rnd_t) (ok : bool) (inexact : Z)
  : M ctl :=
  if ok then
    inex_re <- mpfr_set (Re rop) (Local sqr_u) (MPC_RND_RE rnd) ;;
    ret (Exit (if inex_re =? 0 then inexact else inex_re))
  else ret Again.

(** Lines 304-305 and 345-346: the test for [ok]. *)
Definition sqr_ok (rop : ptr) (rnd : mpc_rnd_t) (prec inexact : Z)
  (rnd1 : mpfr_rnd_t) : M bool :=
  pr <- MPC_PREC_RE rop ;;
  cr <- mpfr_can_round (Local sqr_u) (prec - 3) rnd1 GMP_RNDZ
          (pr + (if rnd_eqb (MPC_RND_RE rnd) GMP_RNDN then 1 else 0)) ;;
  ret ((inexact =? 0) || cr).

(** Lines 272-355: the body of the loop, after [prec] was increased. *)
Definition sqr_body (rop op : ptr) (rnd : mpc_rnd_t) (prec : Z) : M ctl :=
  let u := Local sqr_u in
  let v := Local sqr_v in
  let x := Local sqr_x in
  let emax := mpfr_get_emax in
  let emin := mpfr_get_emin in
  mpfr_set_prec u prec ;;
  mpfr_set_prec v prec ;;
  iu <- ROUND_AWAY (mpfr_add u x (Im op) MPFR_RNDA) u ;;
  iv <- ROUND_AWAY (mpfr_sub v x (Im op) MPFR_RNDA) v ;;
  let inexact := Z.lor iu iv in
  su <- mpfr_sgn u ;;
  sv <- mpfr_sgn v ;;
  if (su =? 0) || (sv =? 0) then
    mpfr_set_ui (Re rop) 0 GMP_RNDN ;;
    ret (Exit 0)
  else if 0 <? su * sv then
    im <- mpfr_mul u u v GMP_RNDU ;;
    let inexact := Z.lor inexact im in
    eu <- mpfr_get_exp u ;;
    MPC_ASSERT (negb (eu =? emin)) ;;
    u_inf <- mpfr_inf_p u ;;
    if u_inf then
      inex_re <- mpfr_set_ui_2exp (Re rop) 1 emax (MPC_RND_RE rnd) ;;
      ret (Exit inex_re)
    else
      ok <- sqr_ok rop rnd prec inexact GMP_RNDU ;;
      sqr_if_ok rop rnd ok inexact
  else
    let rnd_re := MPC_RND_RE rnd in
    im <- mpfr_mul u u v GMP_RNDD ;;
    let inexact := Z.lor inexact im in
    u_inf <- mpfr_inf_p u ;;
    if u_inf then
      mpfr_set_si u (-1) GMP_RNDN ;;
      mpfr_mul_2ui u u (to_ulong mpfr_get_emax) rnd_re ;;
      sqr_if_ok rop rnd true inexact
    else
      eu <- mpfr_get_exp u ;;
      if eu =? emin then
        match rnd_re with
        | MPFR_RNDZ | MPFR_RNDN | MPFR_RNDU =>
            mpfr_set_ui (Re rop) 0 rnd_re ;;
            ret (Exit 1)
        | _ =>
            mpfr_set (Re rop) u rnd_re ;;
            ret (Exit (-1))
        end
      else
        ok <- sqr_ok rop rnd prec inexact GMP_RNDD ;;
        sqr_if_ok rop rnd ok inexact.

(** Line 270: the next working precision. *)
Definition next_prec (prec : Z) : Z := prec + (mpc_ceil_log2 prec + 5).

(** Lines 268-356: the loop; [fuel] bounds the number of turns. *)
Fixpoint sqr_loop (fuel : nat) (rop op : ptr) (rnd : mpc_rnd_t) (prec : Z)
  : M Z :=
  match fuel with
  | O => fun _ => OutOfFuel
  | S fuel' =>
      let prec := next_prec prec in
      c <- sqr_body rop op rnd prec ;;
      match c with
      | Exit inex_re => ret inex_re
      | Again => sqr_loop fuel' rop op rnd prec
      end
  end.

(** Lines 362-370: the imaginary part. *)
Definition sqr_im_part (rop op : ptr) (rnd : mpc_rnd_t) : M Z :=
  let x := Local sqr_x in
  saved_underflow <- mpfr_underflow_p ;;
  mpfr_clear_underflow ;;
  inex_im <- mpfr_mul (Im rop) x (Im op) (MPC_RND_IM rnd) ;;
  uf <- mpfr_underflow_p ;;
  inex_im <- (if negb uf then
                t <- mpfr_mul_2exp (Im rop) (Im rop) 1 (MPC_RND_IM rnd) ;;
                ret (Z.lor inex_im t)
              else ret inex_im) ;;
  (if saved_underflow then mpfr_set_underflow else ret tt) ;;
  ret inex_im.

(** Lines 247-360: the real part. *)
Definition sqr_re_part (fuel : nat) (rop op : ptr) (rnd : mpc_rnd_t) (prec : Z)
  : M Z :=
  let x := Local sqr_x in
  e_re <- mpfr_get_exp (Re op) ;;
  e_im <- mpfr_get_exp (Im op) ;;
  max_prec <- MPC_MAX_PREC op ;;
  if Z.quot max_prec 2 <? SAFE_ABS (e_re - e_im) then
    mpfr_fmma (Re rop) x x (Im op) (Im op) (-1) (MPC_RND_RE rnd)
  else
    mpfr_init (Local sqr_u) ;;
    mpfr_init (Local sqr_v) ;;
    inex_re <- sqr_loop fuel rop op rnd prec ;;
    mpfr_clear (Local sqr_u) ;;
    mpfr_clear (Local sqr_v) ;;
    ret inex_re.

Definition mpc_sqr (fuel : nat) (rop op : ptr) (rnd : mpc_rnd_t) : M (Z * Z) :=
  let x := Local sqr_x in
  fin <- mpc_fin_p op ;;
  if negb fin then
    sqr_special rop op ;;
    ret (MPC_INEX 0 0)
  else
    prec <- MPC_MAX_PREC rop ;;
    im_zero <- mpfr_zero_p (Im op) ;;
    if im_zero then sqr_real rop op rnd
    else
      re_zero <- mpfr_zero_p (Re op) ;;
      if re_zero then sqr_imag rop op rnd
      else
        (if Nat.eqb rop op then
           pr <- MPC_PREC_RE op ;;
           mpfr_init2 x pr ;;
           mpfr_set x (Re op) GMP_RNDN ;;
           ret tt
         else
           c <- read (Re op) ;;
           write x c) ;;
        inex_re <- sqr_re_part fuel rop op rnd prec ;;
        inex_im <- sqr_im_part rop op rnd ;;
        (if Nat.eqb rop op then mpfr_clear x else ret tt) ;;
        ret (MPC_INEX inex_re inex_im).

End Program.

(** The documented contract of [mpfr_can_round]: [b] approximates an unknown
    [x] in the direction [rnd1] with error at most [2^(E(b) - err)]; the
    answer is whether every such [x] rounds to the same number of [prec]
    bits in the direction [rnd2], with an unbounded exponent. *)
Definition can_round_interval (b : mpfr_val) (err : Z) (rnd1 rnd2 : mpfr_rnd_t)
  (prec : Z) : bool :=
  match b with
  | Fin s m e =>
      let below := add_exact MPFR_RNDN b (Fin true 1 (e - err + 1)) in
      let above := add_exact MPFR_RNDN b (Fin false 1 (e - err + 1)) in
      let '(lo, hi) :=
        match rnd1 with
        | MPFR_RNDN => (below, above)
        | MPFR_RNDU => (below, b)
        | MPFR_RNDD => (b, above)
        | MPFR_RNDZ => if s then (below, b) else (b, above)
        | MPFR_RNDA => if s then (b, above) else (below, b)
        end in
      match lo, hi with
      | Fin s1 m1 e1, Fin s2 m2 e2 =>
          let '(q1, f1, _) := round_raw prec rnd2 s1 m1 e1 in
          let '(q2, f2, _) := round_raw prec rnd2 s2 m2 e2 in
          Bool.eqb s1 s2 && (q1 =? q2) && (f1 =? f2)
      | _, _ => false
      end
  | _ => false
  end.

(** The exponent range used in the examples: the widest one the real
    arithmetic accepts, [1 - 2^62 .. 2^62 - 1] (its initial range,
    [1 - 2^30 .. 2^30 - 1], lies inside). *)
Definition default_emin : Z := 1 - 2 ^ 62.
Definition default_emax : Z := 2 ^ 62 - 1.

(** A state holding the operand [(x, y)] at [op], an output of the given
    precisions at [rop] when [rop] is another object, and nothing yet in the
    local variables. *)
Definition init_state (rop op : ptr) (p_re p_im : Z) (x y : mpfr_t) : state :=
  mk_state
    (upd (upd (upd (upd (fun _ => mk_mpfr mpfr_default_prec NaN)
                      (Re rop) (mk_mpfr p_re NaN))
                 (Im rop) (mk_mpfr p_im NaN))
            (Re op) x)
       (Im op) y)
    false.

(** The number [(-1)^neg * n * 2^l] in a variable of precision [p]
    (for [n] of at most [p] bits). *)
Definition mk_num (p : Z) (neg : bool) (n : positive) (l : Z) : mpfr_t :=
  mk_mpfr p (Fin neg (Z.to_pos (Z.shiftl (Z.pos n) (p - digits n))) (l + digits n)).

(** ** Notions used to state the properties *)

(** A value fits a variable of precision [p] in the exponent range: the
    significand has exactly [p] bits and the exponent is legal. *)
Definition wf_val (emin emax p : Z) (v : mpfr_val) : Prop :=
  match v with
  | Fin _ m e => digits m = p /\ emin <= e <= emax
  | _ => True
  end.

Definition wf_mpfr (emin emax : Z) (c : mpfr_t) : Prop :=
  1 <= prec_of c /\ wf_val emin emax (prec_of c) (val_of c).

(** The opposite of a rounded result. *)
Definition neg_rounded (r : rounded) : rounded :=
  mk_rounded (neg_val (r_val r)) (- r_inex r) (r_underflow r).

(** What the degenerate-axis shortcut is said to return for a real operand:
    the square of the real part rounded at the target precision and mode,
    and a zero imaginary part, negative when the two sign bits of the
    operand differ. *)
Definition real_axis_post (emin emax : Z)
  (can_round : mpfr_val -> Z -> mpfr_rnd_t -> mpfr_rnd_t -> Z -> bool)
  (fuel : nat) (rop op : ptr) (rnd : mpc_rnd_t) (s : state) : Prop :=
  let x := val_of (mem s (Re op)) in
  let y := val_of (mem s (Im op)) in
  let r := round emin emax (prec_of (mem s (Re rop))) (MPC_RND_RE rnd)
             (mul_exact x x) in
  exists s',
    mpc_sqr emin emax can_round fuel rop op rnd s
    = Returns (Z.sgn (r_inex r), 0) s' /\
    val_of (mem s' (Re rop)) = r_val r /\
    val_of (mem s' (Im rop)) = Zero (negb (Bool.eqb (signbit x) (signbit y))).

(** The same for a purely imaginary operand: the negated square of the
    imaginary part, rounded at the target precision and mode. *)
Definition imag_axis_post (emin emax : Z)
  (can_round : mpfr_val -> Z -> mpfr_rnd_t -> mpfr_rnd_t -> Z -> bool)
  (fuel : nat) (rop op : ptr) (rnd : mpc_rnd_t) (s : state) : Prop :=
  let x := val_of (mem s (Re op)) in
  let y := val_of (mem s (Im op)) in
  let r := round emin emax (prec_of (mem s (Re rop))) (MPC_RND_RE rnd)
             (neg_val (mul_exact y y)) in
  exists s',
    mpc_sqr emin emax can_round fuel rop op rnd s
    = Returns (Z.sgn (r_inex r), 0) s' /\
    val_of (mem s' (Re rop)) = r_val r /\
    val_of (mem s' (Im rop)) = Zero (negb (Bool.eqb (signbit x) (signbit y))).

(** What a caller observes of a run: the returned value and the two
    components of the output. *)
Definition result_of {A : Type} (rop : ptr) (o : outcome A)
  : option (A * mpfr_t * mpfr_t) :=
  match o with
  | Returns a s => Some (a, mem s (Re rop), mem s (Im rop))
  | _ => None
  end.

(** The state in which the loop of [mpc_sqr] starts: as [init_state], with
    the real part of the operand copied into the local [x]. *)
Definition loop_state (rop op : ptr) (p_re p_im : Z) (x y : mpfr_t) : state :=
  mk_state (upd (mem (init_state rop op p_re p_im x y)) (Local sqr_x) x) false.

(** The intermediate results of one turn of the loop at working precision
    [prec]: [u = x + y] and [v = x - y] rounded away from zero, and their
    product in the directed mode [rnd1]. *)
Definition karatsuba_u (emin emax prec : Z) (x y : mpfr_val) : rounded :=
  add_val emin emax prec MPFR_RNDA x y.
Definition karatsuba_v (emin emax prec : Z) (x y : mpfr_val) : rounded :=
  sub_val emin emax prec MPFR_RNDA x y.
Definition karatsuba_uv (emin emax prec : Z) (rnd1 : mpfr_rnd_t)
  (x y : mpfr_val) : rounded :=
  mul_val emin emax prec rnd1 (r_val (karatsuba_u emin emax prec x y))
    (r_val (karatsuba_v emin emax prec x y)).

(** The product is rounded up when positive and down when negative. *)
Definition product_rnd (emin emax prec : Z) (x y : mpfr_val) : mpfr_rnd_t :=
  if 0 <? sgn (r_val (karatsuba_u emin emax prec x y))
          * sgn (r_val (karatsuba_v emin emax prec x y))
  then GMP_RNDU else GMP_RNDD.

(** The correctly rounded value of [x^2 - y^2] at precision [p] in mode
    [rnd]: the exact difference of the exact squares, rounded once. *)
Definition correctly_rounded_re (emin emax p : Z) (rnd : mpfr_rnd_t)
  (x y : mpfr_val) : rounded :=
  round emin emax p rnd
    (add_exact rnd (mul_exact x x) (neg_val (mul_exact y y))).

(** What the loop is said to do when the tentative product has exponent
    [emin]: stop with an exact zero and the flag "rounded down in magnitude"
    in the modes that round this product toward zero or to nearest, and
    with the tentative product itself and the opposite flag in the modes
    that round it away from zero. *)
Definition underflow_boundary_post (emin emax : Z)
  (can_round : mpfr_val -> Z -> mpfr_rnd_t -> mpfr_rnd_t -> Z -> bool)
  (fuel : nat) (rop op : ptr) (rnd : mpc_rnd_t) (prec : Z) (s : state) : Prop :=
  let x := val_of (mem s (Local sqr_x)) in
  let y := val_of (mem s (Im op)) in
  let p := next_prec prec in
  let uv := karatsuba_uv emin emax p (product_rnd emin emax p x y) x y in
  let neg := signbit (r_val uv) in
  let rnd_re := MPC_RND_RE rnd in
  exists s' inex_re,
    sqr_loop emin emax can_round (S fuel) rop op rnd prec s
    = Returns inex_re s' /\
    if rnd_eqb rnd_re MPFR_RNDN || is_like_rndz rnd_re neg
    then val_of (mem s' (Re rop)) = Zero false /\ inex_re = signed neg (-1)
    else val_of (mem s' (Re rop))
         = r_val (round emin emax (prec_of (mem s (Re rop))) rnd_re (r_val uv))
         /\ inex_re = signed neg 1.

(** ** Relating two runs *)

(** Two outcomes are related when both return, with related values and
    states, or both are the same failure. *)
Definition related {A : Type} (Q : A -> state -> A -> state -> Prop)
  (o1 o2 : outcome A) : Prop :=
  match o1, o2 with
  | Returns a1 s1, Returns a2 s2 => Q a1 s1 a2 s2
  | AssertionFailed, AssertionFailed => True
  | OutOfFuel, OutOfFuel => True
  | _, _ => False
  end.

Definition is_local (w : var) : bool :=
  match w with Local _ => true | _ => false end.

Section Relations.

(** The operand is at [op]; the first run writes to [rop1], the second to
    [rop2]. *)
Variables (op rop1 rop2 : ptr) (cx cy : mpfr_t) (pr : Z).

(** What the computation of the real part reads: the copy [x] of the real
    part, the imaginary part of the operand and the precision of the real
    part of the output. *)
Definition inputs_at (rop : ptr) (s : state) : Prop :=
  mem s (Local sqr_x) = cx /\ mem s (Im op) = cy /\
  prec_of (mem s (Re rop)) = pr.

(** Only the real part of the output and local variables were written. *)
Definition frame (rop : ptr) (s s' : state) : Prop :=
  forall w, var_eqb w (Re rop) = false -> is_local w = false ->
            mem s' w = mem s w.

Definition re_post {A : Type} (s1 s2 : state) (a1 : A) (s1' : state) (a2 : A)
  (s2' : state) : Prop :=
  a1 = a2 /\ underflow_flag s1' = underflow_flag s2' /\
  inputs_at rop1 s1' /\ inputs_at rop2 s2' /\
  frame rop1 s1 s1' /\ frame rop2 s2 s2'.

(** Only the real part of the output, whose precision is kept, and the two
    local variables of [mpfr_fmma] were changed. *)
Definition touched (rop : ptr) (s s' : state) : Prop :=
  prec_of (mem s' (Re rop)) = prec_of (mem s (Re rop)) /\
  forall w, var_eqb w (Re rop) = false -> var_eqb w (Local fmma_u) = false ->
            var_eqb w (Local fmma_v) = false -> mem s' w = mem s w.

Definition fmma_post (s1 s2 : state) (a1 : Z) (s1' : state) (a2 : Z)
  (s2' : state) : Prop :=
  a1 = a2 /\ underflow_flag s1' = underflow_flag s2' /\
  mem s1' (Re rop1) = mem s2' (Re rop2) /\
  touched rop1 s1 s1' /\ touched rop2 s2 s2'.

End Relations.

(** The two runs return the same flags, store the same components and leave
    the same underflow flag. *)
Definition same_result (p q : ptr) (a1 : Z * Z) (s1 : state) (a2 : Z * Z)
  (s2 : state) : Prop :=
  a1 = a2 /\ mem s1 (Re p) = mem s2 (Re q) /\ mem s1 (Im p) = mem s2 (Im q) /\
  underflow_flag s1 = underflow_flag s2.

(** ** The imaginary part *)

(** Multiplication by 2 in place in a variable of precision [p]. *)
Definition double_val (emax p : Z) (rnd : mpfr_rnd_t) (v : mpfr_val) : rounded :=
  match v with
  | Fin s m e =>
      if emax <? e + 1 then mpfr_overflow emax p rnd s
      else exact_result (Fin s m (e + 1))
  | _ => exact_result v
  end.

(** What lines 362-370 compute: [x * y] rounded once, doubled unless the
    multiplication underflowed; the flag is the sign of the bitwise or
    (line 366) of the flag of the multiplication and the flag of the
    doubling, which is 0 unless the doubling overflows. *)
Definition imag_part_post (emin emax : Z) (rop op : ptr) (rnd : mpc_rnd_t)
  (s : state) (inex_im : Z) (s' : state) : Prop :=
  let x := val_of (mem s (Re op)) in
  let y := val_of (mem s (Im op)) in
  let p := prec_of (mem s (Im rop)) in
  let r := mul_val emin emax p (MPC_RND_IM rnd) x y in
  let d := double_val emax p (MPC_RND_IM rnd) (r_val r) in
  if r_underflow r
  then val_of (mem s' (Im rop)) = r_val r /\ inex_im = Z.sgn (r_inex r)
  else val_of (mem s' (Im rop)) = r_val d /\
       inex_im = Z.sgn (Z.lor (r_inex r) (r_inex d)) /\
       (r_inex d = 0 -> inex_im = Z.sgn (r_inex r)).

(** The imaginary result of a call of [mpc_sqr] from [s].  The real part is
    computed in a state [s0] that is [s] with the real part of the operand
    copied into the local [x]; the call fails exactly when that computation
    fails.  When it returns, lines 362-370 always return: the imaginary part
    is [x * y] rounded once and doubled (to the overflow value when the
    doubled number leaves the exponent range), or the result of the
    multiplication when it underflowed; the flag is the flag of the
    multiplication whenever the doubling is exact, that is, does not
    overflow. *)
Definition imag_part_spec (emin emax : Z)
  (can_round : mpfr_val -> Z -> mpfr_rnd_t -> mpfr_rnd_t -> Z -> bool)
  (fuel : nat) (rop op : ptr) (rnd : mpc_rnd_t) (s : state) : Prop :=
  let x := val_of (mem s (Re op)) in
  let y := val_of (mem s (Im op)) in
  let p := prec_of (mem s (Im rop)) in
  let prec := Z.max (prec_of (mem s (Re rop))) p in
  let r := mul_val emin emax p (MPC_RND_IM rnd) x y in
  let d := double_val emax p (MPC_RND_IM rnd) (r_val r) in
  exists s0,
    (mem s0 (Local sqr_x) = mem s (Re op) /\
     (forall w, var_eqb w (Local sqr_x) = false -> mem s0 w = mem s w) /\
     underflow_flag s0 = underflow_flag s) /\
    match sqr_re_part emin emax can_round fuel rop op rnd prec s0 with
    | Returns inex_re s1 =>
        exists inex_im s',
          mpc_sqr emin emax can_round fuel rop op rnd s
          = Returns (Z.sgn inex_re, inex_im) s' /\
          if r_underflow r
          then val_of (mem s' (Im rop)) = r_val r /\ inex_im = Z.sgn (r_inex r)
          else val_of (mem s' (Im rop)) = r_val d /\
               (r_inex d = 0 -> inex_im = Z.sgn (r_inex r))
    | AssertionFailed =>
        mpc_sqr emin emax can_round fuel rop op rnd s = AssertionFailed
    | OutOfFuel =>
        mpc_sqr emin emax can_round fuel rop op rnd s = OutOfFuel
    end.

(** What C4 says of the flag: it is the flag of the multiplication. *)
Definition imag_flag_is_mul_flag (emin emax : Z)
  (can_round : mpfr_val -> Z -> mpfr_rnd_t -> mpfr_rnd_t -> Z -> bool)
  (fuel : nat) (rop op : ptr) (rnd : mpc_rnd_t) (s : state) : Prop :=
  let x := val_of (mem s (Re op)) in
  let y := val_of (mem s (Im op)) in
  let p := prec_of (mem s (Im rop)) in
  forall inex_re inex_im s',
    mpc_sqr emin emax can_round fuel rop op rnd s
    = Returns (inex_re, inex_im) s' ->
    inex_im = Z.sgn (r_inex (mul_val emin emax p (MPC_RND_IM rnd) x y)).

(** ** Notions for the termination of the loop *)

(** The integer [m] ends in at least [j] zero bits. *)
Definition low_zeros (j : Z) (m : Z) : Prop := exists c, m = c * 2 ^ j.

(** A significand of [p] bits of which only the first [D] may be set. *)
Definition mant_shape (p D : Z) (m : positive) : Prop :=
  digits m = p /\ low_zeros (p - D) (Z.pos m).

(** The cases in which a turn of the loop at working precision [p] leaves
    the loop: [u] or [v] is zero, the product overflows, the product has the
    exponent [emin], everything was computed exactly, or [mpfr_can_round]
    says that the product can be rounded. *)
Definition loop_exit_case (emin emax : Z)
  (can_round : mpfr_val -> Z -> mpfr_rnd_t -> mpfr_rnd_t -> Z -> bool)
  (rop : ptr) (rnd : mpc_rnd_t) (p : Z) (s : state) (x y : mpfr_val) : Prop :=
  let u := karatsuba_u emin emax p x y in
  let v := karatsuba_v emin emax p x y in
  let rnd1 := product_rnd emin emax p x y in
  let uv := karatsuba_uv emin emax p rnd1 x y in
  sgn (r_val u) = 0 \/ sgn (r_val v) = 0 \/
  is_inf (r_val uv) = true \/
  get_exp (r_val uv) = emin \/
  Z.lor (Z.lor (r_inex u) (r_inex v)) (r_inex uv) = 0 \/
  can_round (r_val uv) (p - 3) rnd1 GMP_RNDZ
    (prec_of (mem s (Re rop))
     + (if rnd_eqb (MPC_RND_RE rnd) GMP_RNDN then 1 else 0)) = true.

(** The operand [(1 + 2^-20) - i], both parts of 53 bits; it is used in the
    exponent range [emin = -10], [emax = 10]. *)
Definition narrow_x : mpfr_t := mk_num 53 false 1048577 (-20).
Definition narrow_y : mpfr_t := mk_num 53 true 1 0.

(** ** Notions for the further properties *)

(** The two local variables of [mpfr_fmma]. *)
Definition fmma_local (w : var) : bool :=
  var_eqb w (Local fmma_u) || var_eqb w (Local fmma_v).

(** A computation that never lowers the underflow flag. *)
Definition flag_kept {A : Type} (c : M A) : Prop :=
  forall s a s', c s = Returns a s' ->
                 underflow_flag s = true -> underflow_flag s' = true.

(** A variable is in order when, its precision being at least 1, a regular
    number in it has exactly that many significant bits and an exponent in
    the exponent range; a store is in order when all its variables are. *)
Definition cell_ok (emin emax : Z) (c : mpfr_t) : Prop :=
  1 <= prec_of c -> wf_val emin emax (prec_of c) (val_of c).

Definition store_ok (emin emax : Z) (s : state) : Prop :=
  forall w, cell_ok emin emax (mem s w).

Definition keeps_ok (emin emax : Z) {A : Type} (c : M A) : Prop :=
  forall s a s', c s = Returns a s' -> store_ok emin emax s -> store_ok emin emax s'.

(** ** Notions for the correctness of the loop *)

(** A mode that rounds the numbers of sign bit [s] away from zero. *)
Definition away_mode (rnd : mpfr_rnd_t) (s : bool) : Prop :=
  forall q r h, round_away rnd s q r h = true.

(** The positive integer [z] has at most [P] significant bits: it is a
    number below [2^P] times a power of 2. *)
Definition fits (P : Z) (z : Z) : Prop :=
  exists q k, 0 <= k /\ z = q * 2 ^ k /\ 0 < q < 2 ^ P.

(** [mpfr_can_round] keeps its documented contract: a positive answer is
    given only where the contract holds. *)
Definition can_round_sound
  (can_round : mpfr_val -> Z -> mpfr_rnd_t -> mpfr_rnd_t -> Z -> bool) : Prop :=
  forall b err rnd1 rnd2 P,
    can_round b err rnd1 rnd2 P = true ->
    can_round_interval b err rnd1 rnd2 P = true.

(** [approx], of sign bit [neg], is [exact] rounded away from zero with an
    error below [err]. *)
Definition away_within (exact approx err : Q) (neg : bool) : Prop :=
  if neg then (exact < 0 /\ exact - err < approx /\ approx <= exact)%Q
  else (0 < exact /\ exact <= approx /\ approx < exact + err)%Q.

(** ** Notions for the symmetry in the imaginary part *)

(** The store in which the operand at [op] is replaced by its conjugate. *)
Definition conj_state (op : ptr) (s : state) : state :=
  mk_state
    (upd (mem s) (Im op)
       (mk_mpfr (prec_of (mem s (Im op))) (neg_val (val_of (mem s (Im op))))))
    (underflow_flag s).

(** ** Running the monad symbolically *)

Arguments bind {A B} c k s /.
Arguments ret {A} a s /.
Arguments read x s /.
Arguments read_val x s /.
Arguments write x c s /.
Arguments write_val x v s /.
Arguments raise_underflow b s /.
Arguments store z r s /.
Arguments MPC_ASSERT b s /.
Arguments upd f x c y /.
Arguments mpfr_init2 x p /.
Arguments mpfr_init x /.
Arguments mpfr_set_prec x p /.
Arguments mpfr_clear x /.
Arguments mpfr_get_prec x /.
Arguments mpfr_nan_p x /.
Arguments mpfr_inf_p x /.
Arguments mpfr_zero_p x /.
Arguments mpfr_number_p x /.
Arguments mpfr_signbit x /.
Arguments mpfr_sgn x /.
Arguments mpfr_sign x /.
Arguments mpfr_set_nan x /.
Arguments mpfr_set_inf x sign /.
Arguments mpfr_get_exp x /.
Arguments mpfr_set_exp emin emax x e /.
Arguments mpfr_set emin emax z x rnd /.
Arguments mpfr_neg emin emax z x rnd /.
Arguments mpfr_mul emin emax z x y rnd /.
Arguments mpfr_sqr emin emax z x rnd /.
Arguments mpfr_add emin emax z x y rnd /.
Arguments mpfr_sub emin emax z x y rnd /.
Arguments mpfr_set_si emin emax z n rnd /.
Arguments mpfr_set_ui emin emax z n rnd /.
Arguments mpfr_set_ui_2exp emin emax z n e rnd /.
Arguments mpfr_mul_2ui emin emax z x n rnd /.
Arguments mpfr_mul_2exp emin emax z x n rnd /.
Arguments mpfr_div_2ui emin emax z x n rnd /.
Arguments mpfr_can_round can_round b err rnd1 rnd2 p /.
Arguments mpfr_underflow_p s /.
Arguments mpfr_clear_underflow s /.
Arguments mpfr_set_underflow s /.
Arguments mpfr_get_emin emin /.
Arguments mpfr_get_emax emax /.
Arguments MPC_PREC_RE x /.
Arguments MPC_PREC_IM x /.
Arguments MPC_MAX_PREC x /.
Arguments MPC_RND_RE rnd /.
Arguments MPC_RND_IM rnd /.
Arguments ROUND_AWAY f rop /.
Arguments mpc_fin_p z /.
Arguments mpc_conj emin emax rop op rnd /.
Arguments fmma_overflow : simpl never.
Arguments fmma_underflow : simpl never.
Arguments fmma_rescue : simpl never.
Arguments mpfr_fmma : simpl never.
Arguments sqr_special : simpl never.
Arguments sqr_real : simpl never.
Arguments sqr_imag : simpl never.
Arguments sqr_body : simpl never.
Arguments sqr_im_part : simpl never.
Arguments sqr_re_part : simpl never.
Arguments mpc_sqr : simpl never.
Arguments round emin emax p rnd v : simpl never.
Arguments mul_val emin emax p rnd a b : simpl never.
Arguments add_val emin emax p rnd a b : simpl never.
Arguments sub_val emin emax p rnd a b : simpl never.
Arguments mul_exact a b : simpl never.
Arguments add_exact rnd a b : simpl never.
Arguments mpfr_overflow emax p rnd neg : simpl never.
Arguments mpfr_underflow emin p rnd neg : simpl never.
Arguments Z.mul : simpl never.
Arguments Z.add : simpl never.
Arguments Z.sub : simpl never.
Arguments Z.opp : simpl never.
Arguments Z.lor : simpl never.
Arguments Z.pow : simpl never.
Arguments Z.quot : simpl never.
Arguments Z.ltb : simpl never.
Arguments Z.leb : simpl never.
Arguments Z.eqb : simpl never.
Arguments Z.log2_up : simpl never.

Lemma var_eqb_refl (x : var) : var_eqb x x = true.
Proof. destruct x as [p|p|[]]; simpl; auto using Nat.eqb_refl. Qed.

Lemma var_eqb_eq (x y : var) : var_eqb x y = true <-> x = y.
Proof.
  split; [|intros ->; apply var_eqb_refl].
  destruct x as [p|p|l], y as [q|q|k]; simpl; try discriminate.
  - intros H; apply Nat.eqb_eq in H; congruence.
  - intros H; apply Nat.eqb_eq in H; congruence.
  - destruct l, k; simpl; congruence.
Qed.

(** Split on the first test the goal is stuck on. *)
Ltac split_if :=
  match goal with
  | |- context [if ?b then _ else _] =>
      lazymatch b with
      | context [if _ then _ else _] => fail
      | _ => destruct b eqn:?
      end
  end.

Lemma minus_one_negative : (-1 <? 0) = true.
Proof. reflexivity. Qed.

Lemma val_of_Z_0 : val_of_Z 0 = Zero false.
Proof. reflexivity. Qed.

Lemma val_of_Z_1 : val_of_Z 1 = Fin false 1 1.
Proof. reflexivity. Qed.

Lemma val_of_Z_m1 : val_of_Z (-1) = Fin true 1 1.
Proof. reflexivity. Qed.

(** Run the code, using the equations in the context that tell what the
    initial state holds. *)
Ltac exec :=
  repeat (cbn;
          repeat match goal with
            | H : val_of (mem ?s ?x) = _ |- context [val_of (mem ?s ?x)] =>
                rewrite H
            | H : mem ?s ?x = _ |- context [mem ?s ?x] => rewrite H
            | H : prec_of (mem ?s ?x) = _ |- context [prec_of (mem ?s ?x)] =>
                rewrite H
            | H : underflow_flag ?s = _ |- context [underflow_flag ?s] =>
                rewrite H
            end;
          rewrite ?Nat.eqb_refl, ?minus_one_negative, ?val_of_Z_0, ?val_of_Z_1,
            ?val_of_Z_m1).

(** Split on a value or a rounding mode the goal is stuck on. *)
Ltac split_val :=
  match goal with
  | |- context [match ?v with
                | NaN => _ | Inf _ => _ | Zero _ => _ | Fin _ _ _ => _
                end] =>
      lazymatch v with
      | context [if _ then _ else _] => fail
      | _ => destruct v eqn:?
      end
  end.

Ltac split_rnd :=
  match goal with
  | |- context [match ?v with
                | MPFR_RNDN => _ | MPFR_RNDZ => _ | MPFR_RNDU => _
                | MPFR_RNDD => _ | MPFR_RNDA => _
                end] =>
      destruct v eqn:?
  end.

Ltac split_all := repeat (first [split_if | split_val | split_rnd]; exec).

(** ** Significands *)

Lemma digits_spec (m : positive) :
  2 ^ (digits m - 1) <= Z.pos m < 2 ^ digits m.
Proof.
  unfold digits. replace (Z.succ (Z.log2 (Z.pos m)) - 1) with (Z.log2 (Z.pos m)) by lia.
  apply Z.log2_spec. lia.
Qed.

Lemma digits_pos (m : positive) : 1 <= digits m.
Proof. unfold digits. pose proof (Z.log2_nonneg (Z.pos m)). lia. Qed.

Lemma digits_unique (m : positive) (n : Z) :
  2 ^ (n - 1) <= Z.pos m < 2 ^ n -> digits m = n.
Proof.
  intros H. unfold digits.
  assert (0 <= n - 1).
  { destruct (Z.le_gt_cases 0 (n - 1)); [assumption|].
    destruct (Z.le_gt_cases 0 n).
    - assert (n = 0) by lia. subst. simpl in H. lia.
    - rewrite (Z.pow_neg_r 2 n) in H by lia. lia. }
  rewrite (Z.log2_unique (Z.pos m) (n - 1)); [lia|lia|].
  replace (Z.succ (n - 1)) with n by lia. exact H.
Qed.

Lemma digits_to_pos (z : Z) (n : Z) :
  2 ^ (n - 1) <= z < 2 ^ n -> 1 <= n -> digits (Z.to_pos z) = n.
Proof.
  intros H Hn. apply digits_unique.
  assert (0 < 2 ^ (n - 1)) by (apply Z.pow_pos_nonneg; lia).
  rewrite Z2Pos.id by lia. exact H.
Qed.

Lemma round_raw_bounds p rnd neg m e :
  1 <= p ->
  let '(m', e', i) := round_raw p rnd neg m e in
  2 ^ (p - 1) <= m' < 2 ^ p /\ (e' = e \/ e' = e + 1) /\ (i = 0 \/ i = 1 \/ i = -1).
Proof.
  intros Hp. unfold round_raw.
  pose proof (digits_spec m) as Hm. pose proof (digits_pos m) as Hd.
  destruct (Z.leb_spec (digits m) p) as [Hle|Hgt].
  - rewrite Z.shiftl_mul_pow2 by lia.
    assert (2 ^ (p - 1) = 2 ^ (digits m - 1) * 2 ^ (p - digits m)) as ->
      by (rewrite <- Z.pow_add_r by lia; f_equal; lia).
    assert (2 ^ p = 2 ^ (digits m) * 2 ^ (p - digits m)) as ->
      by (rewrite <- Z.pow_add_r by lia; f_equal; lia).
    assert (0 < 2 ^ (p - digits m)) by (apply Z.pow_pos_nonneg; lia).
    split; [nia|]. split; auto.
  - set (k := digits m - p) in *.
    assert (Hk : 0 < k) by (unfold k; lia).
    rewrite Z.shiftr_div_pow2 by lia.
    assert (H2k : 0 < 2 ^ k) by (apply Z.pow_pos_nonneg; lia).
    assert (E1 : 2 ^ (digits m - 1) = 2 ^ (p - 1) * 2 ^ k)
      by (rewrite <- Z.pow_add_r by lia; f_equal; unfold k; lia).
    assert (E2 : 2 ^ (digits m) = 2 ^ p * 2 ^ k)
      by (rewrite <- Z.pow_add_r by lia; f_equal; unfold k; lia).
    assert (Hq : 2 ^ (p - 1) <= Z.pos m / 2 ^ k < 2 ^ p).
    { split.
      - apply Z.div_le_lower_bound; lia.
      - apply Z.div_lt_upper_bound; lia. }
    assert (Hpp : 2 ^ (p - 1) < 2 ^ p) by (apply Z.pow_lt_mono_r; lia).
    destruct (Z.eqb_spec (Z.pos m mod 2 ^ k) 0).
    + split; [lia|]. split; auto.
    + destruct (round_away _ _ _ _ _).
      * destruct (Z.eqb_spec (Z.pos m / 2 ^ k + 1) (2 ^ p)).
        -- split; [lia|]. split; auto.
        -- split; [lia|]. split; auto.
      * split; [lia|]. split; auto.
Qed.

(** ** Rounding: range, idempotence, symmetry *)

Section Rounding.

Variables emin emax : Z.

Lemma signed_0 neg : signed neg 0 = 0.
Proof. destruct neg; reflexivity. Qed.

Lemma round_exact p rnd v :
  wf_val emin emax p v -> round emin emax p rnd v = exact_result v.
Proof.
  destruct v as [| | |s m e]; try reflexivity.
  intros [Hd He]. unfold round, round_raw.
  rewrite Hd, Z.leb_refl, Z.sub_diag, Z.shiftl_0_r.
  destruct (Z.ltb_spec emax e); [lia|].
  destruct (Z.ltb_spec e emin); [lia|].
  rewrite signed_0. reflexivity.
Qed.

Lemma pow2_pred_bounds p : 1 <= p -> 2 ^ (p - 1) <= 2 ^ p - 1 < 2 ^ p.
Proof.
  intros. assert (2 ^ p = 2 * 2 ^ (p - 1)).
  { replace p with (1 + (p - 1)) at 1 by lia. rewrite Z.pow_add_r by lia. reflexivity. }
  assert (0 < 2 ^ (p - 1)) by (apply Z.pow_pos_nonneg; lia). lia.
Qed.

Lemma pow2_half_bounds p : 1 <= p -> 2 ^ (p - 1) <= 2 ^ (p - 1) < 2 ^ p.
Proof. intros. split; [lia|]. apply Z.pow_lt_mono_r; lia. Qed.

Lemma overflow_wf p rnd neg :
  1 <= p -> emin <= emax -> wf_val emin emax p (r_val (mpfr_overflow emax p rnd neg)).
Proof.
  intros Hp He. unfold mpfr_overflow. destruct (is_like_rndz rnd neg); simpl; auto.
  split; [|lia]. apply digits_to_pos; auto using pow2_pred_bounds.
Qed.

Lemma underflow_wf p rnd neg :
  1 <= p -> emin <= emax -> wf_val emin emax p (r_val (mpfr_underflow emin p rnd neg)).
Proof.
  intros Hp He. unfold mpfr_underflow. destruct (is_like_rndz rnd neg); simpl; auto.
  split; [|lia]. apply digits_to_pos; auto using pow2_half_bounds.
Qed.

Lemma round_wf p rnd v :
  1 <= p -> emin <= emax -> wf_val emin emax p (r_val (round emin emax p rnd v)).
Proof.
  intros Hp He. destruct v as [| | |s m e]; simpl; auto.
  unfold round. pose proof (round_raw_bounds p rnd s m e Hp) as H.
  destruct (round_raw p rnd s m e) as [[m' e'] i]. destruct H as (Hm & _ & _).
  destruct (Z.ltb_spec emax e'); [apply overflow_wf; assumption|].
  destruct (Z.ltb_spec e' emin); [apply underflow_wf; assumption|].
  simpl. split; [|lia]. apply digits_to_pos; assumption.
Qed.

Lemma round_idem p rnd rnd' v :
  1 <= p -> emin <= emax ->
  round emin emax p rnd' (r_val (round emin emax p rnd v))
  = exact_result (r_val (round emin emax p rnd v)).
Proof. intros. apply round_exact, round_wf; assumption. Qed.

Lemma wf_val_neg p v : wf_val emin emax p v -> wf_val emin emax p (neg_val v).
Proof. destruct v; simpl; auto. Qed.

Lemma round_idem_neg p rnd rnd' v :
  1 <= p -> emin <= emax ->
  round emin emax p rnd' (neg_val (r_val (round emin emax p rnd v)))
  = exact_result (neg_val (r_val (round emin emax p rnd v))).
Proof. intros. apply round_exact, wf_val_neg, round_wf; assumption. Qed.

Lemma round_away_inv rnd s q r h :
  round_away rnd (negb s) q r h = round_away (INV_RND rnd) s q r h.
Proof. destruct rnd, s; reflexivity. Qed.

Lemma round_raw_inv p rnd s m e :
  round_raw p rnd (negb s) m e = round_raw p (INV_RND rnd) s m e.
Proof. unfold round_raw. rewrite round_away_inv. reflexivity. Qed.

Lemma signed_negb s i : signed (negb s) i = - signed s i.
Proof. destruct s; simpl; lia. Qed.

Lemma overflow_inv p rnd s :
  mpfr_overflow emax p rnd (negb s) = neg_rounded (mpfr_overflow emax p (INV_RND rnd) s).
Proof.
  unfold mpfr_overflow, neg_rounded.
  destruct rnd, s; cbn; try reflexivity.
Qed.

Lemma underflow_inv p rnd m e s :
  mpfr_underflow emin p (underflow_rnd emin rnd m e) (negb s)
  = neg_rounded (mpfr_underflow emin p (underflow_rnd emin (INV_RND rnd) m e) s).
Proof.
  unfold mpfr_underflow, neg_rounded, underflow_rnd.
  destruct rnd, s; cbn; try reflexivity;
    destruct ((e <? emin - 1) || (e =? emin - 1) && is_pow2 m); reflexivity.
Qed.

Lemma round_neg p rnd v :
  round emin emax p rnd (neg_val v) = neg_rounded (round emin emax p (INV_RND rnd) v).
Proof.
  destruct v as [| s | s |s m e]; try reflexivity.
  unfold round, neg_val. rewrite round_raw_inv.
  destruct (round_raw p (INV_RND rnd) s m e) as [[m' e'] i].
  destruct (emax <? e'); [apply overflow_inv|].
  destruct (e' <? emin); [apply underflow_inv|].
  unfold neg_rounded; cbn. rewrite signed_negb. reflexivity.
Qed.
End Rounding.

(** ** Special values (C2) *)

Section SpecialValues.

Variables emin emax : Z.
Variable can_round : mpfr_val -> Z -> mpfr_rnd_t -> mpfr_rnd_t -> Z -> bool.

(** With both components infinite the real part [x^2 - y^2] is
    [Inf - Inf]: the code stores NaN. *)
Lemma sqr_inf_inf_real (fuel : nat) (rop op : ptr) (rnd : mpc_rnd_t) (s : state) :
  is_inf (val_of (mem s (Re op))) = true ->
  is_inf (val_of (mem s (Im op))) = true ->
  exists s', mpc_sqr emin emax can_round fuel rop op rnd s = Returns (0, 0) s'
             /\ val_of (mem s' (Re rop)) = NaN.
Proof.
  intros Hx Hy. unfold mpc_sqr, sqr_special.
  destruct (val_of (mem s (Re op))) eqn:Ex; try discriminate.
  destruct (val_of (mem s (Im op))) eqn:Ey; try discriminate.
  exec. eexists; split; [reflexivity|]. exec. reflexivity.
Qed.

(** C2. An operand with a NaN component gives (NaN, NaN).  Otherwise, with an
    infinite component: the imaginary output is an infinity whose sign is
    the product of the operand signs when the partner of the infinite
    component is non-zero, and NaN when that partner is an exact zero; the
    real output is +Inf when the real component is the infinite one and
    -Inf when the imaginary component is.  Both flags are 0 in every
    rounding directive. *)
Theorem sqr_special_values (fuel : nat) (rop op : ptr) (rnd : mpc_rnd_t)
  (s : state) :
  let x := val_of (mem s (Re op)) in
  let y := val_of (mem s (Im op)) in
  is_number x && is_number y = false ->
  exists s',
    mpc_sqr emin emax can_round fuel rop op rnd s = Returns (0, 0) s' /\
    let re' := val_of (mem s' (Re rop)) in
    let im' := val_of (mem s' (Im rop)) in
    (is_nan x || is_nan y = true -> re' = NaN /\ im' = NaN) /\
    (is_nan x || is_nan y = false ->
     (is_inf x = true -> is_zero y = false ->
      is_inf im' = true /\ MPFR_SIGN im' = MPFR_SIGN x * MPFR_SIGN y) /\
     (is_inf y = true -> is_zero x = false ->
      is_inf im' = true /\ MPFR_SIGN im' = MPFR_SIGN x * MPFR_SIGN y) /\
     (is_inf x = true -> is_zero y = true -> im' = NaN) /\
     (is_inf y = true -> is_zero x = true -> im' = NaN) /\
     (is_inf x = true -> is_inf y = false -> re' = Inf false) /\
     (is_inf y = true -> is_inf x = false -> re' = Inf true)).
Proof.
  intros x y H. subst x y. unfold mpc_sqr, sqr_special.
  destruct (val_of (mem s (Re op))) as [|sx|sx|sx mx ex] eqn:Ex,
           (val_of (mem s (Im op))) as [|sy|sy|sy my ey] eqn:Ey;
    try discriminate H; exec;
    (eexists; split; [reflexivity|]); exec;
    repeat split; intros; try discriminate; try reflexivity;
    destruct sx, sy; reflexivity.
Qed.

End SpecialValues.

Lemma sqr_special_values_witness :
  let s := init_state 1%nat 0%nat 53 53 (mk_mpfr 53 (Inf true))
             (mk_num 53 false 3 0) in
  is_number (val_of (mem s (Re 0%nat))) && is_number (val_of (mem s (Im 0%nat)))
  = false /\
  exists s',
    mpc_sqr default_emin default_emax can_round_interval 1%nat 1%nat 0%nat
      (MPFR_RNDU, MPFR_RNDD) s = Returns (0, 0) s' /\
    val_of (mem s' (Re 1%nat)) = Inf false /\
    val_of (mem s' (Im 1%nat)) = Inf true.
Proof.
  intros s. split; [reflexivity|].
  destruct (sqr_special_values default_emin default_emax can_round_interval
              1%nat 1%nat 0%nat (MPFR_RNDU, MPFR_RNDD) s eq_refl)
    as (s' & Hrun & _ & H).
  exists s'. split; [exact Hrun|].
  destruct (H eq_refl) as (Him & _ & _ & _ & Hre & _).
  split; [exact (Hre eq_refl eq_refl)|].
  destruct (Him eq_refl eq_refl) as [Hi Hs].
  destruct (val_of (mem s' (Im 1%nat))) as [| [] | |]; try discriminate; reflexivity.
Defined.

(** ** The degenerate axis (C3) *)

Section DegenerateAxis.

Variables emin emax : Z.
Variable can_round : mpfr_val -> Z -> mpfr_rnd_t -> mpfr_rnd_t -> Z -> bool.

Lemma round_Zero p rnd s : round emin emax p rnd (Zero s) = exact_result (Zero s).
Proof. reflexivity. Qed.

(** C3 (amended). For a finite operand whose imaginary part is an exact zero,
    the result is the square of the real part rounded at the real target
    precision and mode, with a zero imaginary part.  For a finite operand
    whose real part is an exact zero and whose imaginary part is not, the
    result is the negated square of the imaginary part, rounded the same
    way, with a zero imaginary part.  In both cases the imaginary zero is
    negative exactly when the two sign bits of the operand differ. *)
Theorem sqr_degenerate_axis (fuel : nat) (rop op : ptr) (rnd : mpc_rnd_t)
  (s : state) :
  let x := val_of (mem s (Re op)) in
  let y := val_of (mem s (Im op)) in
  1 <= prec_of (mem s (Re rop)) -> emin <= emax ->
  is_number x = true -> is_number y = true ->
  (is_zero y = true -> real_axis_post emin emax can_round fuel rop op rnd s) /\
  (is_zero x = true -> is_zero y = false ->
   imag_axis_post emin emax can_round fuel rop op rnd s).
Proof.
  intros x y Hp He Hx Hy. subst x y.
  unfold real_axis_post, imag_axis_post, mpc_sqr, sqr_real, sqr_imag.
  destruct (val_of (mem s (Re op))) as [| |sx|sx mx ex] eqn:Ex; try discriminate;
  destruct (val_of (mem s (Im op))) as [| |sy|sy my ey] eqn:Ey; try discriminate;
  (split; [intros Hz|intros Hz Hz']); try discriminate.
  all: exec; rewrite round_Zero; unfold mul_val;
    rewrite ?round_neg; unfold neg_rounded, MPC_INEX; cbn [r_val r_inex r_underflow];
    destruct (eqb sx sy); exec;
    rewrite ?round_idem, ?round_idem_neg by assumption;
    (eexists; split; [reflexivity|]); exec; auto.
Qed.

End DegenerateAxis.

(** The operand [-3i] with the real part rounded up: the real output is
    [-9] and the imaginary output [-0]. *)
Lemma sqr_degenerate_axis_witness :
  let s := init_state 1%nat 0%nat 53 53 (mk_mpfr 53 (Zero false))
             (mk_num 53 true 3 0) in
  (1 <= prec_of (mem s (Re 1%nat)) /\ default_emin <= default_emax) /\
  imag_axis_post default_emin default_emax can_round_interval 1%nat 1%nat 0%nat
    (MPFR_RNDU, MPFR_RNDN) s.
Proof.
  intros s.
  assert (Hp : 1 <= prec_of (mem s (Re 1%nat))) by (vm_compute; discriminate).
  assert (He : default_emin <= default_emax) by (vm_compute; discriminate).
  split; [split; assumption|].
  exact (proj2 (sqr_degenerate_axis default_emin default_emax can_round_interval
                  1%nat 1%nat 0%nat (MPFR_RNDU, MPFR_RNDN) s Hp He
                  eq_refl eq_refl) eq_refl eq_refl).
Defined.

(** C3 as stated fails for the operand [+0 + 0i]: its real part is an exact
    zero, the negated square of its imaginary part is [-0], and the code,
    which tests the imaginary part first, returns the square [+0] of the
    real part. *)
Lemma sqr_zero_operand_counterexample :
  let s := init_state 1%nat 0%nat 53 53 (mk_mpfr 53 (Zero false))
             (mk_mpfr 53 (Zero false)) in
  is_number (val_of (mem s (Re 0%nat))) = true /\
  is_number (val_of (mem s (Im 0%nat))) = true /\
  is_zero (val_of (mem s (Re 0%nat))) = true /\
  ~ imag_axis_post default_emin default_emax can_round_interval 1%nat 1%nat 0%nat
      MPC_RNDNN s.
Proof.
  intros s. repeat (split; [reflexivity|]).
  intros (s' & Hrun & Hre & _).
  apply (f_equal (result_of 1%nat)) in Hrun. cbn [result_of] in Hrun.
  match type of Hrun with ?l = _ =>
    let v := eval vm_compute in l in change l with v in Hrun end.
  injection Hrun as Hre' _. rewrite <- Hre' in Hre.
  vm_compute in Hre. discriminate Hre.
Qed.

(** ** An exact zero in the loop (C7) *)

Lemma inject_Z_signed s z : inject_Z (signed s z) == ((if s then -1 else 1) * inject_Z z)%Q.
Proof. destruct s; simpl; [rewrite inject_Z_opp|]; ring. Qed.

Lemma Q_of_val_scaled s m e l :
  l <= e - digits m ->
  (Q_of_val (Fin s m e)
   == inject_Z (signed s (Z.shiftl (Z.pos m) (e - digits m - l))) * Qpower 2 l)%Q.
Proof.
  intros Hl. unfold Q_of_val.
  rewrite inject_Z_signed, Z.shiftl_mul_pow2 by lia.
  rewrite inject_Z_mult, Zpower_Qpower by lia.
  replace (e - digits m) with ((e - digits m - l) + l) at 1 by lia.
  rewrite Qpower_plus by discriminate.
  change (inject_Z 2) with 2%Q. ring.
Qed.

Section ExactZero.
Variables emin emax : Z.

Lemma round_away_nonzero p s m e :
  sgn (r_val (round emin emax p MPFR_RNDA (Fin s m e))) <> 0.
Proof.
  unfold round. destruct (round_raw p MPFR_RNDA s m e) as [[m' e'] i].
  destruct (emax <? e'); [unfold mpfr_overflow; cbn; destruct s; discriminate|].
  destruct (e' <? emin); [unfold mpfr_underflow; cbn; destruct s; discriminate|].
  cbn. destruct s; discriminate.
Qed.

Lemma add_away_zero p a b :
  is_fin a = true -> is_fin b = true ->
  sgn (r_val (add_val emin emax p MPFR_RNDA a b)) = 0 ->
  (Q_of_val a + Q_of_val b == 0)%Q.
Proof.
  destruct a as [| | |s m e]; try discriminate.
  destruct b as [| | |t n f]; try discriminate.
  intros _ _. unfold add_val, add_exact.
  set (la := e - digits m). set (lb := f - digits n). set (l := Z.min la lb).
  destruct (Z.eqb_spec (signed s (Z.shiftl (Z.pos m) (la - l))
                        + signed t (Z.shiftl (Z.pos n) (lb - l))) 0) as [E|E].
  - intros _.
    rewrite (Q_of_val_scaled s m e l), (Q_of_val_scaled t n f l) by (unfold l, la, lb; lia).
    fold la lb. rewrite <- Qmult_plus_distr_l, <- inject_Z_plus, E. ring.
  - intros H. exfalso. revert H. apply round_away_nonzero.
Qed.

Lemma Q_of_val_neg v : (Q_of_val (neg_val v) == - Q_of_val v)%Q.
Proof. destruct v as [| | |[] m e]; simpl; ring. Qed.

Lemma sub_away_zero p a b :
  is_fin a = true -> is_fin b = true ->
  sgn (r_val (sub_val emin emax p MPFR_RNDA a b)) = 0 ->
  (Q_of_val a - Q_of_val b == 0)%Q.
Proof.
  intros Ha Hb H. unfold sub_val in H.
  apply (add_away_zero p a (neg_val b)) in H; auto.
  - rewrite Q_of_val_neg in H. rewrite <- H. ring.
  - destruct b; auto.
Qed.

Variable can_round : mpfr_val -> Z -> mpfr_rnd_t -> mpfr_rnd_t -> Z -> bool.

Lemma square_difference_zero (a b : Q) :
  (a + b == 0 \/ a - b == 0 -> a * a - b * b == 0)%Q.
Proof.
  intros H. 
  assert (E : (a * a - b * b == (a + b) * (a - b))%Q) by ring.
  rewrite E. destruct H as [H|H]; rewrite H; ring.
Qed.

(** C7. In one turn of the loop, if [u = x + y] or [v = x - y], rounded away
    from zero at the working precision, is exactly zero, then the true value
    of [x^2 - y^2] is exactly zero, and the loop stops in this turn with the
    real result [+0] and [inex_re = 0]. *)
Theorem sqr_exact_zero fuel rop op rnd prec s :
  let x := val_of (mem s (Local sqr_x)) in
  let y := val_of (mem s (Im op)) in
  let p := next_prec prec in
  is_fin x = true -> is_fin y = true ->
  sgn (r_val (karatsuba_u emin emax p x y)) = 0 \/
  sgn (r_val (karatsuba_v emin emax p x y)) = 0 ->
  (Q_of_val x * Q_of_val x - Q_of_val y * Q_of_val y == 0)%Q /\
  exists s',
    sqr_loop emin emax can_round (S fuel) rop op rnd prec s = Returns 0 s' /\
    val_of (mem s' (Re rop)) = Zero false.
Proof.
  intros x y p Hx Hy H. split.
  - apply square_difference_zero. destruct H as [H|H]; [left|right].
    + eapply add_away_zero; eauto.
    + eapply sub_away_zero; eauto.
  - unfold karatsuba_u, karatsuba_v in H. subst x y p.
    cbn [sqr_loop]. unfold sqr_body. exec.
    match goal with |- context [if ?b then _ else _] =>
      replace b with true by (symmetry; apply orb_true_iff;
        destruct H as [H|H]; [left|right]; apply Z.eqb_eq; exact H) end.
    exec. eexists. split; [reflexivity|]. exec. reflexivity.
Qed.
End ExactZero.

(** The operand [1 + i] of the spec: [v = x - y] is zero. *)
Lemma sqr_exact_zero_witness :
  let x := mk_num 53 false 1 0 in
  let s := loop_state 1%nat 0%nat 53 53 x x in
  let p := next_prec 53 in
  (is_fin (val_of x) = true /\
   (sgn (r_val (karatsuba_u default_emin default_emax p (val_of x) (val_of x))) = 0 \/
    sgn (r_val (karatsuba_v default_emin default_emax p (val_of x) (val_of x))) = 0)) /\
  (Q_of_val (val_of x) * Q_of_val (val_of x)
   - Q_of_val (val_of x) * Q_of_val (val_of x) == 0)%Q /\
  exists s',
    sqr_loop default_emin default_emax can_round_interval 1%nat 1%nat 0%nat
      MPC_RNDNN 53 s = Returns 0 s' /\
    val_of (mem s' (Re 1%nat)) = Zero false.
Proof.
  intros x s p.
  assert (Hx : is_fin (val_of x) = true) by reflexivity.
  assert (H : sgn (r_val (karatsuba_u default_emin default_emax p (val_of x) (val_of x))) = 0 \/
              sgn (r_val (karatsuba_v default_emin default_emax p (val_of x) (val_of x))) = 0)
    by (right; vm_compute; reflexivity).
  split; [split; assumption|].
  exact (sqr_exact_zero default_emin default_emax can_round_interval
           0%nat 1%nat 0%nat MPC_RNDNN 53 s Hx Hx H).
Defined.

(** ** The underflow boundary in the loop (C6, C10) *)

Section Boundary.
Variables emin emax : Z.
Variable can_round : mpfr_val -> Z -> mpfr_rnd_t -> mpfr_rnd_t -> Z -> bool.

Lemma round_signbit p rnd v :
  signbit (r_val (round emin emax p rnd v)) = signbit v.
Proof.
  destruct v as [| | |s m e]; try reflexivity.
  unfold round. destruct (round_raw p rnd s m e) as [[m' e'] i].
  unfold mpfr_overflow, mpfr_underflow.
  repeat match goal with |- context [if ?b then _ else _] => destruct b end;
    reflexivity.
Qed.

Lemma mul_exact_signbit a b :
  sgn a * sgn b < 0 -> signbit (mul_exact a b) = true.
Proof.
  destruct a as [|[]|[]|[] ? ?], b as [|[]|[]|[] ? ?]; cbn; intros H;
    try reflexivity; exfalso; revert H; cbv; discriminate.
Qed.

Lemma sgn_product_nonzero a b :
  sgn a * sgn b < 0 -> (sgn a =? 0) || (sgn b =? 0) = false.
Proof.
  intros H. apply orb_false_iff.
  split; apply Z.eqb_neq; intros E; rewrite E in H; lia.
Qed.

(** The branch of negative products, lines 327-344: what one turn of the
    loop does when [u * v] is negative and its value rounded down has
    exponent [emin]. *)
Lemma sqr_underflow_boundary_run fuel rop op rnd prec s :
  let x := val_of (mem s (Local sqr_x)) in
  let y := val_of (mem s (Im op)) in
  let p := next_prec prec in
  let u := r_val (karatsuba_u emin emax p x y) in
  let v := r_val (karatsuba_v emin emax p x y) in
  let uv := r_val (karatsuba_uv emin emax p GMP_RNDD x y) in
  sgn u * sgn v < 0 ->
  is_inf uv = false ->
  get_exp uv = emin ->
  underflow_boundary_post emin emax can_round fuel rop op rnd prec s.
Proof.
  intros x y p u v uv Hneg Hinf Hexp.
  unfold underflow_boundary_post, product_rnd.
  fold x y p. fold u v.
  destruct (Z.ltb_spec 0 (sgn u * sgn v)) as [Hpos|_]; [lia|].
  fold uv.
  assert (Hs : signbit uv = true).
  { unfold uv, karatsuba_uv, mul_val. rewrite round_signbit.
    apply mul_exact_signbit. exact Hneg. }
  rewrite Hs.
  pose proof (sgn_product_nonzero u v Hneg) as Hnz.
  cbn [sqr_loop]. unfold sqr_body. exec.
  fold x y p.
  change (add_val emin emax p MPFR_RNDA x y) with (karatsuba_u emin emax p x y).
  change (sub_val emin emax p MPFR_RNDA x y) with (karatsuba_v emin emax p x y).
  fold u v. rewrite Hnz.
  destruct (Z.ltb_spec 0 (sgn u * sgn v)) as [Hpos|_]; [lia|].
  exec.
  change (mul_val emin emax p GMP_RNDD u v) with (karatsuba_uv emin emax p GMP_RNDD x y).
  fold uv. rewrite Hinf. exec. rewrite Hexp, Z.eqb_refl.
  destruct rnd as [[] rnd_im]; exec; do 2 eexists; (split; [reflexivity|]);
    exec; auto.
Qed.
End Boundary.

(** C6 (the code violates it). The operand [(7 + 5i) * 2^j] with
    [2 j + 5 = emin], at precision 3, in any rounding mode.  [u = 12 * 2^j]
    and [v = 2 * 2^j] are positive, and their product rounded up is
    [24 * 2^(2 j) = 0.75 * 2^emin]: it is exact, a number of the format, and
    its exponent is exactly [emin].  The loop does not stop with a zero or
    with this value: the assertion of line 297 fails and the program is
    aborted.  For the mirrored operand [(5 + 7i) * 2^j], whose product is
    the opposite number [-0.75 * 2^emin], lines 327-344 stop the loop in the
    same turn with the result the claim describes. *)
Theorem sqr_underflow_boundary_aborts (fuel : nat) (rnd : mpc_rnd_t) :
  let x := mk_num 3 false 7 (-2 - 2 ^ 61) in
  let y := mk_num 3 false 5 (-2 - 2 ^ 61) in
  let p := next_prec 3 in
  let uv := karatsuba_uv default_emin default_emax p
              (product_rnd default_emin default_emax p (val_of x) (val_of y))
              (val_of x) (val_of y) in
  let vu := karatsuba_uv default_emin default_emax p
              (product_rnd default_emin default_emax p (val_of y) (val_of x))
              (val_of y) (val_of x) in
  (wf_mpfr default_emin default_emax x /\ wf_mpfr default_emin default_emax y) /\
  uv = exact_result (Fin false (3 * 2 ^ 8) default_emin) /\
  vu = exact_result (Fin true (3 * 2 ^ 8) default_emin) /\
  sqr_loop default_emin default_emax can_round_interval (S fuel) 1%nat 0%nat
    rnd 3 (loop_state 1%nat 0%nat 3 3 x y)
  = AssertionFailed /\
  mpc_sqr default_emin default_emax can_round_interval (S fuel) 1%nat 0%nat
    rnd (init_state 1%nat 0%nat 3 3 x y)
  = AssertionFailed /\
  ~ underflow_boundary_post default_emin default_emax can_round_interval
      fuel 1%nat 0%nat rnd 3 (loop_state 1%nat 0%nat 3 3 x y) /\
  underflow_boundary_post default_emin default_emax can_round_interval
    fuel 1%nat 0%nat rnd 3 (loop_state 1%nat 0%nat 3 3 y x).
Proof.
  intros x y p uv vu.
  assert (E : sqr_loop default_emin default_emax can_round_interval (S fuel)
                1%nat 0%nat rnd 3 (loop_state 1%nat 0%nat 3 3 x y)
              = AssertionFailed)
    by (destruct rnd as [r1 r2]; vm_compute; reflexivity).
  split; [split; split; vm_compute; intuition discriminate|].
  split; [vm_compute; reflexivity|].
  split; [vm_compute; reflexivity|].
  split; [exact E|].
  split; [destruct rnd as [r1 r2]; vm_compute; reflexivity|].
  split.
  - intros (s' & inex_re & Hrun & _). rewrite E in Hrun. discriminate Hrun.
  - apply sqr_underflow_boundary_run; vm_compute; reflexivity.
Qed.

(** C10 (the code violates it). The operand [(5 + 3i) * 2^j] with
    [2 j + 5 = emin] is finite and non-zero, its exponents differ by 1, [u]
    and [v] are positive, and their product rounded up is exactly
    [0.5 * 2^emin]: the assertion [mpfr_get_exp (u) != emin] fails and
    [mpc_sqr] is aborted. *)
Theorem sqr_assertion_fails (fuel : nat) :
  let x := mk_num 3 false 5 (-2 - 2 ^ 61) in
  let y := mk_num 3 false 3 (-2 - 2 ^ 61) in
  let p := next_prec 3 in
  let u := r_val (karatsuba_u default_emin default_emax p (val_of x) (val_of y)) in
  let v := r_val (karatsuba_v default_emin default_emax p (val_of x) (val_of y)) in
  (wf_mpfr default_emin default_emax x /\ wf_mpfr default_emin default_emax y) /\
  (is_fin (val_of x) = true /\ is_fin (val_of y) = true) /\
  0 < sgn u * sgn v /\
  r_val (karatsuba_uv default_emin default_emax p GMP_RNDU (val_of x) (val_of y))
  = Fin false (2 ^ 9) default_emin /\
  mpc_sqr default_emin default_emax can_round_interval (S fuel) 1%nat 0%nat
    MPC_RNDNN (init_state 1%nat 0%nat 3 3 x y)
  = AssertionFailed.
Proof.
  intros x y p u v.
  split; [split; split; vm_compute; intuition discriminate|].
  split; [split; reflexivity|].
  split; [vm_compute; reflexivity|].
  split; vm_compute; reflexivity.
Qed.

(** ** The adaptive real part against correct rounding (C1, C5) *)

(** C1 (the code violates it). The operand [(2 + 3i) * 2^j] with
    [2 j + 3 = emin], target precision 3, rounding to nearest.  Its exponents
    are equal, so the adaptive algorithm is used.  [x^2 - y^2 = -5 * 2^(2 j)
    = -0.625 * 2^emin] is a number of the format: the correctly rounded
    value is this number with flag 0, and [mpfr_fmma (x, x, y, y, -1)]
    returns exactly that.  The adaptive algorithm takes the exponent [emin]
    of the tentative product for an underflow and returns [+0] with
    flag [+1]. *)
Theorem sqr_adaptive_disagrees (fuel : nat) :
  let x := mk_num 3 false 2 (-1 - 2 ^ 61) in
  let y := mk_num 3 false 3 (-1 - 2 ^ 61) in
  let exact := mk_mpfr 3 (Fin true 5 default_emin) in
  (wf_mpfr default_emin default_emax x /\ wf_mpfr default_emin default_emax y) /\
  (Z.quot 3 2 <? SAFE_ABS (get_exp (val_of x) - get_exp (val_of y))) = false /\
  correctly_rounded_re default_emin default_emax 3 MPFR_RNDN (val_of x) (val_of y)
  = exact_result (val_of exact) /\
  result_of 1%nat
    (mpfr_fmma default_emin default_emax (Re 1%nat) (Local sqr_x) (Local sqr_x)
       (Im 0%nat) (Im 0%nat) (-1) MPFR_RNDN (loop_state 1%nat 0%nat 3 3 x y))
  = Some (0, exact, mk_mpfr 3 NaN) /\
  result_of 1%nat
    (mpc_sqr default_emin default_emax can_round_interval (S fuel) 1%nat 0%nat
       MPC_RNDNN (init_state 1%nat 0%nat 3 3 x y))
  = Some ((1, 0), mk_mpfr 3 (Zero false), mk_num 3 false 3 (-2 ^ 62)).
Proof.
  intros x y exact.
  split; [split; split; vm_compute; intuition discriminate|].
  repeat split; vm_compute; reflexivity.
Qed.

(** C5 (the code violates it). The operand [x = 0.75 * 2^emax],
    [y = x + ulp (x)] at precision 53, rounding to nearest.  [u = x + y]
    overflows to [+Inf], [v = x - y] is exact and negative, the tentative
    product rounded down is [-Inf], and [x^2 - y^2] overflows: the correctly
    rounded value is [-Inf] with a negative flag.  The code stores [-Inf] and
    returns the positive flag left in [inexact] by the addition. *)
Theorem sqr_overflow_flag_mismatch (fuel : nat) :
  let x := mk_num 53 false 3 (default_emax - 2) in
  let y := mk_num 53 false (3 * 2 ^ 51 + 1) (default_emax - 53) in
  let p := next_prec 53 in
  (wf_mpfr default_emin default_emax x /\ wf_mpfr default_emin default_emax y) /\
  (Z.quot 53 2 <? SAFE_ABS (get_exp (val_of x) - get_exp (val_of y))) = false /\
  r_val (karatsuba_uv default_emin default_emax p GMP_RNDD (val_of x) (val_of y))
  = Inf true /\
  correctly_rounded_re default_emin default_emax 53 MPFR_RNDN (val_of x) (val_of y)
  = mpfr_overflow default_emax 53 MPFR_RNDN true /\
  mpfr_overflow default_emax 53 MPFR_RNDN true = mk_rounded (Inf true) (-1) false /\
  result_of 1%nat
    (mpc_sqr default_emin default_emax can_round_interval (S fuel) 1%nat 0%nat
       MPC_RNDNN (init_state 1%nat 0%nat 53 53 x y))
  = Some ((1, 1), mk_mpfr 53 (Inf true), mk_mpfr 53 (Inf false)).
Proof.
  intros x y p.
  split; [split; split; vm_compute; intuition discriminate|].
  repeat split; vm_compute; reflexivity.
Qed.

(** ** Two runs on the same inputs (C4, C9) *)

Section Rel.
Variables emin emax : Z.
Variable can_round : mpfr_val -> Z -> mpfr_rnd_t -> mpfr_rnd_t -> Z -> bool.
Variables (op rop1 rop2 : ptr) (cx cy : mpfr_t) (pr : Z).

Local Abbreviation inputs_at := (inputs_at op cx cy pr).
Local Abbreviation re_post := (re_post op rop1 rop2 cx cy pr).
Local Abbreviation fmma_post := (fmma_post rop1 rop2).


Lemma body_rel rnd prec s1 s2 :
  inputs_at rop1 s1 -> inputs_at rop2 s2 ->
  underflow_flag s1 = underflow_flag s2 ->
  related (fun c1 s1' c2 s2' =>
             re_post s1 s2 c1 s1' c2 s2' /\
             (c1 <> Again -> mem s1' (Re rop1) = mem s2' (Re rop2)))
    (sqr_body emin emax can_round rop1 op rnd prec s1)
    (sqr_body emin emax can_round rop2 op rnd prec s2).
Proof.
  intros (Hx1 & Hy1 & Hp1) (Hx2 & Hy2 & Hp2) Hf.
  remember (underflow_flag s2) as uf eqn:Hf2. symmetry in Hf2.
  unfold sqr_body, sqr_ok, sqr_if_ok. exec.
  split_all.
  all: unfold related, re_post, inputs_at, frame; exec.
  all: try (repeat split; auto; try discriminate; try congruence;
            intros w Hw Hl; rewrite ?Hw; destruct w; try discriminate; reflexivity).
Qed.

Lemma loop_rel rnd fuel : forall prec s1 s2,
  inputs_at rop1 s1 -> inputs_at rop2 s2 ->
  underflow_flag s1 = underflow_flag s2 ->
  related (fun c1 s1' c2 s2' =>
             re_post s1 s2 c1 s1' c2 s2' /\
             mem s1' (Re rop1) = mem s2' (Re rop2))
    (sqr_loop emin emax can_round fuel rop1 op rnd prec s1)
    (sqr_loop emin emax can_round fuel rop2 op rnd prec s2).
Proof.
  induction fuel as [|fuel IH]; intros prec s1 s2 H1 H2 Hf; [exact I|].
  cbn [sqr_loop]. cbn [bind].
  pose proof (body_rel rnd (next_prec prec) s1 s2 H1 H2 Hf) as Hb.
  destruct (sqr_body emin emax can_round rop1 op rnd (next_prec prec) s1) as [c1 s1'| |],
           (sqr_body emin emax can_round rop2 op rnd (next_prec prec) s2) as [c2 s2'| |];
    try contradiction; try exact I.
  destruct Hb as ((-> & Hf' & H1' & H2' & F1 & F2) & Hre).
  destruct c2 as [inex_re|].
  - cbn. split; [|apply Hre; discriminate].
    unfold re_post; tauto.
  - specialize (IH (next_prec prec) s1' s2' H1' H2' Hf').
    destruct (sqr_loop emin emax can_round fuel rop1 op rnd (next_prec prec) s1') as [a1 t1| |],
             (sqr_loop emin emax can_round fuel rop2 op rnd (next_prec prec) s2') as [a2 t2| |];
      try contradiction; try exact I.
    destruct IH as ((-> & Hg & G1 & G2 & K1 & K2) & Hre').
    cbn. split; [|exact Hre'].
    unfold re_post. repeat (split; [tauto|]). split.
    + intros w Hw Hl. rewrite K1, F1; auto.
    + intros w Hw Hl. rewrite K2, F2; auto.
Qed.

Ltac finish_rel :=
  unfold related, fmma_post, re_post, inputs_at, frame, touched; exec;
  try (repeat split; auto; try discriminate; try congruence;
       intros w Hw1 Hw2 Hw3; rewrite ?Hw1, ?Hw2, ?Hw3; reflexivity).

Lemma fmma_overflow_rel eu ev rnd cu cv cz s1 s2 :
  mem s1 (Local fmma_u) = cu -> mem s2 (Local fmma_u) = cu ->
  mem s1 (Local fmma_v) = cv -> mem s2 (Local fmma_v) = cv ->
  mem s1 (Re rop1) = cz -> mem s2 (Re rop2) = cz ->
  underflow_flag s1 = underflow_flag s2 ->
  related (fmma_post s1 s2)
    (fmma_overflow emin emax (Re rop1) eu ev rnd s1)
    (fmma_overflow emin emax (Re rop2) eu ev rnd s2).
Proof.
  intros Hu1 Hu2 Hv1 Hv2 Hz1 Hz2 Hf.
  remember (underflow_flag s2) as uf eqn:Hf2. symmetry in Hf2.
  unfold fmma_overflow. exec.
  split_all.
  all: finish_rel.
Qed.

Lemma fmma_underflow_rel eu ev rnd cu cv cz s1 s2 :
  mem s1 (Local fmma_u) = cu -> mem s2 (Local fmma_u) = cu ->
  mem s1 (Local fmma_v) = cv -> mem s2 (Local fmma_v) = cv ->
  mem s1 (Re rop1) = cz -> mem s2 (Re rop2) = cz ->
  underflow_flag s1 = underflow_flag s2 ->
  related (fmma_post s1 s2)
    (fmma_underflow emin emax (Re rop1) eu ev rnd s1)
    (fmma_underflow emin emax (Re rop2) eu ev rnd s2).
Proof.
  intros Hu1 Hu2 Hv1 Hv2 Hz1 Hz2 Hf.
  remember (underflow_flag s2) as uf eqn:Hf2. symmetry in Hf2.
  unfold fmma_underflow. exec.
  split_all.
  all: finish_rel.
Qed.

Lemma rescue_rel rnd px sx mx ex py sy my ey cu cv cz s1 s2 :
  let cx := mk_mpfr px (Fin sx mx ex) in
  let cy := mk_mpfr py (Fin sy my ey) in
  emin <= ex <= emax -> emin <= ey <= emax ->
  mem s1 (Local sqr_x) = cx -> mem s2 (Local sqr_x) = cx ->
  mem s1 (Im op) = cy -> mem s2 (Im op) = cy ->
  mem s1 (Local fmma_u) = cu -> mem s2 (Local fmma_u) = cu ->
  mem s1 (Local fmma_v) = cv -> mem s2 (Local fmma_v) = cv ->
  mem s1 (Re rop1) = cz -> mem s2 (Re rop2) = cz ->
  underflow_flag s1 = underflow_flag s2 ->
  related (fmma_post s1 s2)
    (fmma_rescue emin emax (Re rop1) (Local sqr_x) (Local sqr_x) (Im op) (Im op) (-1) rnd s1)
    (fmma_rescue emin emax (Re rop2) (Local sqr_x) (Local sqr_x) (Im op) (Im op) (-1) rnd s2).
Proof.
  intros cx0 cy0 Hex Hey Hx1 Hx2 Hy1 Hy2 Hu1 Hu2 Hv1 Hv2 Hz1 Hz2 Hf.
  subst cx0 cy0.
  remember (underflow_flag s2) as uf eqn:Hf2. symmetry in Hf2.
  assert (Rx : (emin <=? ex) && (ex <=? emax) = true)
    by (apply andb_true_iff; split; apply Z.leb_le; lia).
  assert (Ry : (emin <=? ey) && (ey <=? emax) = true)
    by (apply andb_true_iff; split; apply Z.leb_le; lia).
  unfold fmma_rescue. exec.
  destruct ((emin <=? 0) && (0 <=? emax)) eqn:R0; exec.
  all: destruct (is_nan (val_of cz)) eqn:Hnan.
  all: match goal with
       | |- related _ (match fmma_overflow _ _ _ ?eu ?ev ?r ?S1 with _ => _ end)
                      (match fmma_overflow _ _ _ _ _ _ ?S2 with _ => _ end) =>
           epose proof (fmma_overflow_rel eu ev r _ _ _ S1 S2
                          ltac:(cbn; reflexivity) ltac:(cbn; reflexivity)
                          ltac:(cbn; reflexivity) ltac:(cbn; reflexivity)
                          ltac:(exec; reflexivity) ltac:(exec; reflexivity)
                          ltac:(cbn; reflexivity)) as Hin;
           destruct (fmma_overflow emin emax (Re rop1) eu ev r S1) as [a1 t1| |],
                    (fmma_overflow emin emax (Re rop2) eu ev r S2) as [a2 t2| |];
           cbn in Hin; try contradiction; try exact I
       | |- related _ (match fmma_underflow _ _ _ ?eu ?ev ?r ?S1 with _ => _ end)
                      (match fmma_underflow _ _ _ _ _ _ ?S2 with _ => _ end) =>
           epose proof (fmma_underflow_rel eu ev r _ _ _ S1 S2
                          ltac:(cbn; reflexivity) ltac:(cbn; reflexivity)
                          ltac:(cbn; reflexivity) ltac:(cbn; reflexivity)
                          ltac:(exec; reflexivity) ltac:(exec; reflexivity)
                          ltac:(cbn; reflexivity)) as Hin;
           destruct (fmma_underflow emin emax (Re rop1) eu ev r S1) as [a1 t1| |],
                    (fmma_underflow emin emax (Re rop2) eu ev r S2) as [a2 t2| |];
           cbn in Hin; try contradiction; try exact I
       end.
  all: unfold fmma_post in Hin;
       destruct Hin as (-> & Hft & Hzt & (P1 & T1) & (P2 & T2)).
  all: pose proof (T1 (Local sqr_x) eq_refl eq_refl eq_refl) as Hxt1;
       pose proof (T2 (Local sqr_x) eq_refl eq_refl eq_refl) as Hxt2;
       pose proof (T1 (Im op) eq_refl eq_refl eq_refl) as Hyt1;
       pose proof (T2 (Im op) eq_refl eq_refl eq_refl) as Hyt2;
       cbn in Hxt1, Hxt2, Hyt1, Hyt2;
       rewrite ?Hx1, ?Hy1 in Hxt1, Hyt1; rewrite ?Hx2, ?Hy2 in Hxt2, Hyt2.
  all: rewrite Rx, Ry; exec.
  all: unfold fmma_post, touched; cbn; repeat (split; [solve [auto]|]).
  all: cbn in P1, P2; rewrite ?Nat.eqb_refl in P1, P2; cbn in P1, P2.
  all: split; (split; [congruence|]); intros w Hw1 Hw2 Hw3;
       [ specialize (T1 w Hw1 Hw2 Hw3) | specialize (T2 w Hw1 Hw2 Hw3) ];
       cbn in *; rewrite ?Hw1, ?Hw2, ?Hw3 in *.
  all: destruct (var_eqb w (Im op)) eqn:E1;
       [apply var_eqb_eq in E1; subst w; congruence|].
  all: destruct (var_eqb w (Local sqr_x)) eqn:E2;
       [apply var_eqb_eq in E2; subst w; congruence|].
  all: congruence.
Qed.

Lemma fmma_rel rnd px sx mx ex py sy my ey s1 s2 :
  let cx := mk_mpfr px (Fin sx mx ex) in
  let cy := mk_mpfr py (Fin sy my ey) in
  emin <= ex <= emax -> emin <= ey <= emax ->
  mem s1 (Local sqr_x) = cx -> mem s2 (Local sqr_x) = cx ->
  mem s1 (Im op) = cy -> mem s2 (Im op) = cy ->
  prec_of (mem s1 (Re rop1)) = pr -> prec_of (mem s2 (Re rop2)) = pr ->
  underflow_flag s1 = underflow_flag s2 ->
  related (fmma_post s1 s2)
    (mpfr_fmma emin emax (Re rop1) (Local sqr_x) (Local sqr_x) (Im op) (Im op) (-1) rnd s1)
    (mpfr_fmma emin emax (Re rop2) (Local sqr_x) (Local sqr_x) (Im op) (Im op) (-1) rnd s2).
Proof.
  intros cx0 cy0 Hex Hey Hx1 Hx2 Hy1 Hy2 Hp1 Hp2 Hf.
  subst cx0 cy0.
  remember (underflow_flag s2) as uf eqn:Hf2. symmetry in Hf2.
  unfold mpfr_fmma. exec.
  split_if; exec.
  - split_all; finish_rel.
  - split_if; exec; [|finish_rel].

    match goal with
    | |- related _ (match fmma_rescue _ _ _ _ _ _ _ _ ?r ?S1 with _ => _ end)
                   (match fmma_rescue _ _ _ _ _ _ _ _ _ ?S2 with _ => _ end) =>
        epose proof (rescue_rel r px sx mx ex py sy my ey _ _ _ S1 S2 Hex Hey
                       ltac:(exec; reflexivity) ltac:(exec; reflexivity)
                       ltac:(exec; reflexivity) ltac:(exec; reflexivity)
                       ltac:(exec; reflexivity) ltac:(exec; reflexivity)
                       ltac:(exec; reflexivity) ltac:(exec; reflexivity)
                       ltac:(exec; reflexivity) ltac:(exec; reflexivity)
                       ltac:(exec; reflexivity)) as Hin;
        destruct (fmma_rescue emin emax (Re rop1) (Local sqr_x) (Local sqr_x)
                    (Im op) (Im op) (-1) r S1) as [a1 t1| |],
                 (fmma_rescue emin emax (Re rop2) (Local sqr_x) (Local sqr_x)
                    (Im op) (Im op) (-1) r S2) as [a2 t2| |];
        cbn in Hin; try contradiction; try exact I
    end.
    unfold fmma_post in Hin;
      destruct Hin as (-> & Hft & Hzt & (P1 & T1) & (P2 & T2)).
    unfold fmma_post, touched; cbn. repeat (split; [solve [auto]|]).
    cbn in P1, P2; rewrite ?Nat.eqb_refl in P1, P2; cbn in P1, P2.
    split; (split; [congruence|]); intros w Hw1 Hw2 Hw3;
      [ specialize (T1 w Hw1 Hw2 Hw3) | specialize (T2 w Hw1 Hw2 Hw3) ];
      cbn in *; rewrite ?Hw1, ?Hw2, ?Hw3 in *; congruence.
Qed.

Lemma re_part_rel fuel rnd prec cre px sx mx ex py sy my ey s1 s2 :
  cx = mk_mpfr px (Fin sx mx ex) ->
  cy = mk_mpfr py (Fin sy my ey) ->
  emin <= ex <= emax -> emin <= ey <= emax ->
  mem s1 (Re op) = cre -> mem s2 (Re op) = cre ->
  inputs_at rop1 s1 -> inputs_at rop2 s2 ->
  underflow_flag s1 = underflow_flag s2 ->
  related (fun c1 s1' c2 s2' =>
             re_post s1 s2 c1 s1' c2 s2' /\
             mem s1' (Re rop1) = mem s2' (Re rop2))
    (sqr_re_part emin emax can_round fuel rop1 op rnd prec s1)
    (sqr_re_part emin emax can_round fuel rop2 op rnd prec s2).
Proof.
  intros Ecx Ecy Hex Hey Hr1 Hr2 H1 H2 Hf.
  pose proof H1 as (Hx1 & Hy1 & Hp1). pose proof H2 as (Hx2 & Hy2 & Hp2).
  unfold sqr_re_part. exec. split_if.
  - rewrite Ecx in Hx1, Hx2. rewrite Ecy in Hy1, Hy2.
    pose proof (fmma_rel (fst rnd) px sx mx ex py sy my ey s1 s2 Hex Hey
                  Hx1 Hx2 Hy1 Hy2 Hp1 Hp2 Hf) as Hin.
    destruct (mpfr_fmma emin emax (Re rop1) (Local sqr_x) (Local sqr_x) (Im op)
                (Im op) (-1) (fst rnd) s1) as [a1 t1| |],
             (mpfr_fmma emin emax (Re rop2) (Local sqr_x) (Local sqr_x) (Im op)
                (Im op) (-1) (fst rnd) s2) as [a2 t2| |];
      cbn in Hin; try contradiction; try exact I.
    destruct Hin as (-> & Hft & Hzt & (P1 & T1) & (P2 & T2)).
    cbn. split; [|exact Hzt].
    unfold re_post, inputs_at, frame.
    rewrite (T1 (Local sqr_x)), (T1 (Im op)), (T2 (Local sqr_x)), (T2 (Im op))
      by reflexivity.
    rewrite P1, P2, Hx1, Hx2, Hy1, Hy2, Ecx, Ecy.
    repeat (split; [solve [auto]|]).
    split; intros w Hw Hl; [apply T1|apply T2]; auto;
      destruct w; try discriminate; reflexivity.
  - exec.
    match goal with
    | |- related _ (match sqr_loop _ _ _ _ _ _ _ _ ?S1 with _ => _ end)
                   (match sqr_loop _ _ _ _ _ _ _ _ ?S2 with _ => _ end) =>
        pose proof (loop_rel rnd fuel prec S1 S2
                      ltac:(unfold inputs_at; exec; auto)
                      ltac:(unfold inputs_at; exec; auto)
                      ltac:(exec; reflexivity)) as Hin;
        destruct (sqr_loop emin emax can_round fuel rop1 op rnd prec S1) as [a1 t1| |],
                 (sqr_loop emin emax can_round fuel rop2 op rnd prec S2) as [a2 t2| |];
        cbn in Hin; try contradiction; try exact I
    end.
    destruct Hin as ((-> & Hft & G1 & G2 & F1 & F2) & Hzt).
    cbn. split; [|exact Hzt].
    unfold re_post. repeat (split; [solve [auto]|]).
    split; intros w Hw Hl; [rewrite (F1 w Hw Hl)|rewrite (F2 w Hw Hl)];
      cbn; destruct w; try discriminate; reflexivity.
Qed.
End Rel.

(** ** Aliasing of the output and the input (C9) *)

Section Alias.

Variables emin emax : Z.
Variable can_round : mpfr_val -> Z -> mpfr_rnd_t -> mpfr_rnd_t -> Z -> bool.

(** C9. For a finite operand at [p], calling [mpc_sqr] with the output
    aliasing the input ([rop == op]) and calling it, in the same store, with
    a distinct output [q] of the same precisions give the same outcome: the
    same pair of flags and the same two components stored (or the same
    assertion failure, or both runs need more fuel). *)
Theorem sqr_alias_safe fuel p q rnd s1 s2 :
  p <> q ->
  wf_mpfr emin emax (mem s1 (Re p)) -> wf_mpfr emin emax (mem s1 (Im p)) ->
  is_number (val_of (mem s1 (Re p))) = true ->
  is_number (val_of (mem s1 (Im p))) = true ->
  (forall w, var_eqb w (Re q) = false -> var_eqb w (Im q) = false ->
             mem s2 w = mem s1 w) ->
  prec_of (mem s2 (Re q)) = prec_of (mem s1 (Re p)) ->
  prec_of (mem s2 (Im q)) = prec_of (mem s1 (Im p)) ->
  underflow_flag s1 = underflow_flag s2 ->
  related (same_result p q)
    (mpc_sqr emin emax can_round fuel p p rnd s1)
    (mpc_sqr emin emax can_round fuel q p rnd s2).
Proof.
  intros Hpq Wre Wim Nre Nim Hsame Pre Pim Hf.
  assert (Epq : Nat.eqb p q = false) by (apply Nat.eqb_neq; exact Hpq).
  assert (Eqp : Nat.eqb q p = false) by (apply Nat.eqb_neq; congruence).
  pose proof (Hsame (Re p)) as Hre2. pose proof (Hsame (Im p)) as Him2.
  cbn in Hre2, Him2. rewrite Epq in Hre2, Him2.
  specialize (Hre2 eq_refl eq_refl). specialize (Him2 eq_refl eq_refl).
  destruct (mem s1 (Re p)) as [pre vre] eqn:Hre1.
  destruct (mem s1 (Im p)) as [pim vim] eqn:Him1.
  cbn in Pre, Pim, Nre, Nim.
  remember (underflow_flag s2) as uf eqn:Hf2. symmetry in Hf2.
  destruct Wre as [Ppre Wre], Wim as [Ppim Wim]. cbn in Ppre, Ppim, Wre, Wim.
  unfold mpc_sqr. exec. rewrite Nre, Nim. exec.
  destruct vim as [| |sy|sy my ey]; try discriminate; exec.
  - (* real operand *)
    unfold sqr_real. exec. rewrite ?Epq, ?Eqp. exec.
    split_all; rewrite ?Epq, ?Eqp; unfold related, same_result; exec; rewrite ?Epq, ?Eqp; auto.
  - destruct vre as [| |sx|sx mx ex]; try discriminate; exec.
    + unfold sqr_imag. exec. rewrite ?Epq, ?Eqp. exec.
      split_all; rewrite ?Epq, ?Eqp; unfold related, same_result; exec; rewrite ?Epq, ?Eqp; auto.
    + rewrite Eqp. exec.
      rewrite (round_exact emin emax pre GMP_RNDN (Fin sx mx ex)) by exact Wre.
      exec. rewrite orb_false_r.
      match goal with
      | |- related _ (match sqr_re_part _ _ _ _ _ _ _ ?pr ?S1 with _ => _ end)
                     (match sqr_re_part _ _ _ _ _ _ _ _ ?S2 with _ => _ end) =>
          pose proof (re_part_rel emin emax can_round p p q
                        (mk_mpfr pre (Fin sx mx ex)) (mk_mpfr pim (Fin sy my ey)) pre
                        fuel rnd pr (mk_mpfr pre (Fin sx mx ex))
                        pre sx mx ex pim sy my ey S1 S2 eq_refl eq_refl
                        (proj2 Wre) (proj2 Wim)
                        ltac:(exec; reflexivity) ltac:(exec; reflexivity)
                        ltac:(unfold inputs_at; exec; auto)
                        ltac:(unfold inputs_at; exec; auto)
                        ltac:(exec; reflexivity)) as Hin;
          assert (Hq : mem S2 (Im q) = mem s2 (Im q)) by (cbn; reflexivity);
          destruct (sqr_re_part emin emax can_round fuel p p rnd pr S1) as [a1 t1| |],
                   (sqr_re_part emin emax can_round fuel q p rnd pr S2) as [a2 t2| |];
          cbn in Hin; try contradiction; try exact I
      end.
      destruct Hin as ((-> & Hft & (Hx1 & Hy1 & Hp1) & (Hx2 & Hy2 & Hp2) & F1 & F2) & Hzt).
      pose proof (F2 (Im q) eq_refl eq_refl) as Hq2. rewrite Hq in Hq2.
      assert (Pq : prec_of (mem t2 (Im q)) = pim) by (rewrite Hq2; exact Pim).
      remember (underflow_flag t2) as uf' eqn:Hf2'. symmetry in Hf2'.
      clear F1 F2 Hq Hq2.
      unfold sqr_im_part. exec.
      split_all; rewrite ?Epq, ?Eqp; unfold related, same_result; exec;
        rewrite ?Epq, ?Eqp; auto.
Qed.
End Alias.

(** The operand [3 + 0.875i] squared in place and into another object. *)
Lemma sqr_alias_safe_witness :
  let x := mk_num 53 false 3 0 in
  let y := mk_num 53 false 7 (-3) in
  let s1 := init_state 0%nat 0%nat 53 53 x y in
  let s2 := init_state 1%nat 0%nat 53 53 x y in
  (0%nat <> 1%nat /\
   wf_mpfr default_emin default_emax (mem s1 (Re 0%nat)) /\
   wf_mpfr default_emin default_emax (mem s1 (Im 0%nat)) /\
   is_number (val_of (mem s1 (Re 0%nat))) = true /\
   is_number (val_of (mem s1 (Im 0%nat))) = true /\
   (forall w, var_eqb w (Re 1%nat) = false -> var_eqb w (Im 1%nat) = false ->
              mem s2 w = mem s1 w) /\
   prec_of (mem s2 (Re 1%nat)) = prec_of (mem s1 (Re 0%nat)) /\
   prec_of (mem s2 (Im 1%nat)) = prec_of (mem s1 (Im 0%nat)) /\
   underflow_flag s1 = underflow_flag s2) /\
  related (same_result 0%nat 1%nat)
    (mpc_sqr default_emin default_emax can_round_interval 3%nat 0%nat 0%nat
       MPC_RNDNN s1)
    (mpc_sqr default_emin default_emax can_round_interval 3%nat 1%nat 0%nat
       MPC_RNDNN s2).
Proof.
  intros x y s1 s2.
  assert (H0 : 0%nat <> 1%nat) by discriminate.
  assert (H1 : wf_mpfr default_emin default_emax (mem s1 (Re 0%nat)))
    by (vm_compute; intuition discriminate).
  assert (H2 : wf_mpfr default_emin default_emax (mem s1 (Im 0%nat)))
    by (vm_compute; intuition discriminate).
  assert (H3 : is_number (val_of (mem s1 (Re 0%nat))) = true) by reflexivity.
  assert (H4 : is_number (val_of (mem s1 (Im 0%nat))) = true) by reflexivity.
  assert (H5 : forall w, var_eqb w (Re 1%nat) = false ->
                         var_eqb w (Im 1%nat) = false -> mem s2 w = mem s1 w).
  { intros w Hw1 Hw2. cbn. rewrite Hw1, Hw2.
    destruct (var_eqb w (Im 0%nat)), (var_eqb w (Re 0%nat)); reflexivity. }
  assert (H6 : prec_of (mem s2 (Re 1%nat)) = prec_of (mem s1 (Re 0%nat)))
    by reflexivity.
  assert (H7 : prec_of (mem s2 (Im 1%nat)) = prec_of (mem s1 (Im 0%nat)))
    by reflexivity.
  assert (H8 : underflow_flag s1 = underflow_flag s2) by reflexivity.
  split; [repeat (split; [assumption|]); assumption|].
  exact (sqr_alias_safe default_emin default_emax can_round_interval 3%nat
           0%nat 1%nat MPC_RNDNN s1 s2 H0 H1 H2 H3 H4 H5 H6 H7 H8).
Defined.

(** ** The imaginary part (C4) *)

Section Imag.

Variables emin emax : Z.
Variable can_round : mpfr_val -> Z -> mpfr_rnd_t -> mpfr_rnd_t -> Z -> bool.

Lemma sqr_imag_part_run fuel rop op rnd s :
  wf_mpfr emin emax (mem s (Re op)) -> wf_mpfr emin emax (mem s (Im op)) ->
  is_fin (val_of (mem s (Re op))) = true ->
  is_fin (val_of (mem s (Im op))) = true ->
  match mpc_sqr emin emax can_round fuel rop op rnd s with
  | Returns (inex_re, inex_im) s' => imag_part_post emin emax rop op rnd s inex_im s'
  | _ => True
  end.
Proof.
  intros Wre Wim Fre Fim.
  unfold imag_part_post.
  destruct (mem s (Re op)) as [pre vre] eqn:Hre.
  destruct (mem s (Im op)) as [pim vim] eqn:Him.
  cbn in Fre, Fim.
  destruct vre as [| | |sx mx ex]; try discriminate.
  destruct vim as [| | |sy my ey]; try discriminate.
  destruct Wre as [Ppre Wre], Wim as [Ppim Wim]. cbn in Ppre, Ppim, Wre, Wim.
  remember (underflow_flag s) as uf eqn:Hf. symmetry in Hf.
  remember (prec_of (mem s (Im rop))) as pi eqn:Hpi. symmetry in Hpi.
  remember (prec_of (mem s (Re rop))) as pr eqn:Hpr. symmetry in Hpr.
  unfold mpc_sqr. exec.
  destruct (Nat.eqb rop op) eqn:Erop; exec;
    rewrite ?(round_exact emin emax pre GMP_RNDN (Fin sx mx ex)) by exact Wre;
    exec; rewrite ?orb_false_r.
  all: match goal with
       | |- match match sqr_re_part _ _ _ _ _ _ _ ?p0 ?S with _ => _ end with _ => _ end =>
           pose proof (re_part_rel emin emax can_round op rop rop
                (mk_mpfr pre (Fin sx mx ex)) (mk_mpfr pim (Fin sy my ey)) pr
                fuel rnd p0 (mk_mpfr pre (Fin sx mx ex))
                pre sx mx ex pim sy my ey S S eq_refl eq_refl
                (proj2 Wre) (proj2 Wim)
                ltac:(exec; reflexivity) ltac:(exec; reflexivity)
                ltac:(unfold inputs_at; exec; auto)
                ltac:(unfold inputs_at; exec; auto) eq_refl) as Hin;
           assert (Hq : prec_of (mem S (Im rop)) = pi) by (exec; reflexivity);
           destruct (sqr_re_part emin emax can_round fuel rop op rnd p0 S)
             as [a1 t1| |]; cbn in Hin; try exact I
       end.
  all: destruct Hin as ((_ & _ & (Hx1 & Hy1 & Hp1) & _ & F1 & _) & _).
  all: assert (Pq : prec_of (mem t1 (Im rop)) = pi)
         by (rewrite F1 by reflexivity; exact Hq).
  all: clear F1 Hq.
  all: remember (underflow_flag t1) as uf' eqn:Hf'; symmetry in Hf'.
  all: unfold sqr_im_part; exec.
  all: unfold double_val, MPC_INEX;
       set (r := mul_val emin emax pi (snd rnd) (Fin sx mx ex) (Fin sy my ey));
       destruct (r_underflow r); exec;
       [ destruct uf'; exec; auto | ].
  all: destruct (r_val r) as [| | |sr mr er]; exec;
       try (destruct (emax <? er + 1)); exec; destruct uf'; exec;
       rewrite ?Z.lor_0_r; repeat split; auto;
       intros E0; rewrite E0, Z.lor_0_r; reflexivity.
Qed.

(** The call is the copy of the real part of the operand into the local
    [x], the real part, and the imaginary part. *)
Lemma sqr_after_copy fuel rop op rnd s :
  wf_mpfr emin emax (mem s (Re op)) ->
  is_fin (val_of (mem s (Re op))) = true ->
  is_fin (val_of (mem s (Im op))) = true ->
  exists s0,
    (mem s0 (Local sqr_x) = mem s (Re op) /\
     (forall w, var_eqb w (Local sqr_x) = false -> mem s0 w = mem s w) /\
     underflow_flag s0 = underflow_flag s) /\
    mpc_sqr emin emax can_round fuel rop op rnd s
    = (inex_re <- sqr_re_part emin emax can_round fuel rop op rnd
                    (Z.max (prec_of (mem s (Re rop))) (prec_of (mem s (Im rop)))) ;;
       inex_im <- sqr_im_part emin emax rop op rnd ;;
       ret (MPC_INEX inex_re inex_im)) s0.
Proof.
  intros Wre Fre Fim.
  destruct (mem s (Re op)) as [pre vre] eqn:Hre.
  destruct (mem s (Im op)) as [pim vim] eqn:Him.
  cbn in Fre, Fim.
  destruct vre as [| | |sx mx ex]; try discriminate.
  destruct vim as [| | |sy my ey]; try discriminate.
  destruct Wre as [Ppre Wre]. cbn in Ppre, Wre.
  remember (underflow_flag s) as uf eqn:Hf. symmetry in Hf.
  remember (prec_of (mem s (Im rop))) as pi eqn:Hpi. symmetry in Hpi.
  remember (prec_of (mem s (Re rop))) as pr eqn:Hpr. symmetry in Hpr.
  unfold mpc_sqr. exec.
  destruct (Nat.eqb rop op) eqn:Erop; exec;
    rewrite ?(round_exact emin emax pre GMP_RNDN (Fin sx mx ex)) by exact Wre;
    exec; rewrite ?orb_false_r.
  all: match goal with
       | |- context [sqr_re_part _ _ _ _ _ _ _ _ ?S] => exists S
       end.
  all: split; [split; [exec; reflexivity|split; [|reflexivity]]|].
  all: try (intros w Hw; cbn; unfold upd; rewrite ?Hw; reflexivity).
  all: destruct (sqr_re_part _ _ _ _ _ _ _ _ _) as [a t| |]; try reflexivity.
  all: destruct (sqr_im_part _ _ _ _ _ _) as [b t'| |]; reflexivity.
Qed.

(** C4 (amended). For a finite operand with both components non-zero, a
    call of [mpc_sqr] fails only when the computation of the real part does;
    whenever the real part is computed, the call returns, and the imaginary
    result is [x * y] rounded once at the imaginary target precision and
    mode and then multiplied by 2 (to the overflow value of the mode when
    the doubled number leaves the exponent range), except that after an
    underflow of the multiplication its result is kept without doubling.
    When the doubling does not overflow, the returned imaginary flag is the
    flag of the multiplication. *)
Theorem sqr_imag_part fuel rop op rnd s :
  wf_mpfr emin emax (mem s (Re op)) -> wf_mpfr emin emax (mem s (Im op)) ->
  is_fin (val_of (mem s (Re op))) = true ->
  is_fin (val_of (mem s (Im op))) = true ->
  imag_part_spec emin emax can_round fuel rop op rnd s.
Proof.
  intros Wre Wim Fre Fim.
  destruct (sqr_after_copy fuel rop op rnd s Wre Fre Fim)
    as (s0 & (Hx & Hframe & Hflag) & Hrun).
  unfold imag_part_spec. exists s0. split; [auto|].
  rewrite Hrun. clear Hrun.
  destruct (mem s (Re op)) as [pre vre] eqn:Hre.
  destruct (mem s (Im op)) as [pim vim] eqn:Him.
  cbn in Fre, Fim.
  destruct vre as [| | |sx mx ex]; try discriminate.
  destruct vim as [| | |sy my ey]; try discriminate.
  destruct Wre as [Ppre Wre], Wim as [Ppim Wim]. cbn in Ppre, Ppim, Wre, Wim.
  assert (Hy : mem s0 (Im op) = mk_mpfr pim (Fin sy my ey))
    by (rewrite Hframe by reflexivity; exact Him).
  assert (Hq : prec_of (mem s0 (Im rop)) = prec_of (mem s (Im rop)))
    by (rewrite Hframe by reflexivity; reflexivity).
  remember (prec_of (mem s (Im rop))) as pi eqn:Hpi.
  remember (Z.max (prec_of (mem s (Re rop))) pi) as prec eqn:Hprec.
  pose proof (re_part_rel emin emax can_round op rop rop
                (mk_mpfr pre (Fin sx mx ex)) (mk_mpfr pim (Fin sy my ey))
                (prec_of (mem s0 (Re rop)))
                fuel rnd prec (mem s0 (Re op))
                pre sx mx ex pim sy my ey s0 s0 eq_refl eq_refl
                (proj2 Wre) (proj2 Wim) eq_refl eq_refl
                ltac:(unfold inputs_at; auto)
                ltac:(unfold inputs_at; auto) eq_refl) as Hin.
  unfold bind.
  destruct (sqr_re_part emin emax can_round fuel rop op rnd prec s0)
    as [a1 t1| |]; cbn in Hin; try reflexivity.
  destruct Hin as ((_ & _ & (Hx1 & Hy1 & Hp1) & _ & F1 & _) & _).
  assert (Pq : prec_of (mem t1 (Im rop)) = pi)
    by (rewrite F1 by reflexivity; exact Hq).
  clear F1 Hq.
  remember (underflow_flag t1) as uf' eqn:Hf'; symmetry in Hf'.
  unfold sqr_im_part; exec.
  unfold double_val, MPC_INEX;
    set (r := mul_val emin emax pi (snd rnd) (Fin sx mx ex) (Fin sy my ey));
    destruct (r_underflow r); exec;
    [ destruct uf'; exec; do 2 eexists; (split; [reflexivity|]); exec; auto | ].
  destruct (r_val r) as [| | |sr mr er]; exec;
    try (destruct (emax <? er + 1)); exec; destruct uf'; exec;
    do 2 eexists; (split; [reflexivity|]); exec;
    rewrite ?Z.lor_0_r; repeat split; auto;
    intros E0; rewrite E0, Z.lor_0_r; reflexivity.
Qed.

End Imag.

(** The operand [3 + 0.875i], rounded to nearest, written to another
    object: the call returns [3^2 - 0.875^2 = 527 / 64] and
    [2 * 3 * 0.875 = 5.25], both exact. *)
Lemma sqr_imag_part_witness :
  let x := mk_num 53 false 3 0 in
  let y := mk_num 53 false 7 (-3) in
  let s := init_state 1%nat 0%nat 53 53 x y in
  (wf_mpfr default_emin default_emax (mem s (Re 0%nat)) /\
   wf_mpfr default_emin default_emax (mem s (Im 0%nat)) /\
   is_fin (val_of (mem s (Re 0%nat))) = true /\
   is_fin (val_of (mem s (Im 0%nat))) = true) /\
  result_of 1%nat
    (mpc_sqr default_emin default_emax can_round_interval 3%nat 1%nat 0%nat
       MPC_RNDNN s)
  = Some ((0, 0), mk_num 53 false 527 (-6), mk_num 53 false 21 (-2)) /\
  imag_part_spec default_emin default_emax can_round_interval 3%nat
    1%nat 0%nat MPC_RNDNN s.
Proof.
  intros x y s.
  assert (H1 : wf_mpfr default_emin default_emax (mem s (Re 0%nat)))
    by (vm_compute; intuition discriminate).
  assert (H2 : wf_mpfr default_emin default_emax (mem s (Im 0%nat)))
    by (vm_compute; intuition discriminate).
  assert (H3 : is_fin (val_of (mem s (Re 0%nat))) = true) by reflexivity.
  assert (H4 : is_fin (val_of (mem s (Im 0%nat))) = true) by reflexivity.
  split; [repeat (split; [assumption|]); assumption|].
  split; [vm_compute; reflexivity|].
  exact (sqr_imag_part default_emin default_emax can_round_interval 3%nat
           1%nat 0%nat MPC_RNDNN s H1 H2 H3 H4).
Defined.

(** C4 as stated fails for [x = 2^(emax-1)], [y = 1], rounding to nearest:
    the multiplication [x * y] is exact (flag 0), the doubling overflows to
    [+Inf], and the returned imaginary flag is [+1]. *)
Lemma sqr_imag_flag_counterexample :
  let x := mk_num 53 false 1 (default_emax - 1) in
  let y := mk_num 53 false 1 0 in
  let s := init_state 1%nat 0%nat 53 53 x y in
  r_inex (mul_val default_emin default_emax 53 MPFR_RNDN (val_of x) (val_of y)) = 0 /\
  double_val default_emax 53 MPFR_RNDN
    (r_val (mul_val default_emin default_emax 53 MPFR_RNDN (val_of x) (val_of y)))
  = mk_rounded (Inf false) 1 false /\
  ~ imag_flag_is_mul_flag default_emin default_emax can_round_interval 1%nat
      1%nat 0%nat MPC_RNDNN s.
Proof.
  intros x y s. split; [vm_compute; reflexivity|].
  split; [vm_compute; reflexivity|].
  intros H.
  destruct (mpc_sqr default_emin default_emax can_round_interval 1%nat 1%nat 0%nat
              MPC_RNDNN s) as [[i j] s'| |] eqn:Hrun;
    try (vm_compute in Hrun; discriminate Hrun).
  pose proof (H i j s' Hrun) as Hj.
  pose proof (f_equal (result_of 1%nat) Hrun) as Hres. cbn [result_of] in Hres.
  match type of Hres with ?l = _ =>
    let v := eval vm_compute in l in change l with v in Hres end.
  injection Hres as Hi Hj' _ _.
  rewrite <- Hj' in Hj. vm_compute in Hj. discriminate Hj.
Qed.

(** When the multiplication is rounded down and the doubling overflows, the
    bitwise or of line 366 returns a negative flag with [+Inf] stored:
    [x = (2^53 - 1) * 2^(emax - 54)], [y = 1 + 2^(-52)], rounding to
    nearest.  This is why no flag is stated for a doubling that overflows. *)
Lemma sqr_imag_overflow_flag :
  let x := mk_num 53 false (2 ^ 53 - 1) (default_emax - 54) in
  let y := mk_num 53 false (2 ^ 52 + 1) (-52) in
  mul_val default_emin default_emax 53 MPFR_RNDN (val_of x) (val_of y)
  = mk_rounded (Fin false (2 ^ 52) default_emax) (-1) false /\
  double_val default_emax 53 MPFR_RNDN (Fin false (2 ^ 52) default_emax)
  = mk_rounded (Inf false) 1 false /\
  result_of 1%nat
    (mpc_sqr default_emin default_emax can_round_interval 3%nat 1%nat 0%nat
       MPC_RNDNN (init_state 1%nat 0%nat 53 53 x y))
  = Some ((1, -1), mk_mpfr 53 (Inf false), mk_mpfr 53 (Inf false)).
Proof. intros x y. repeat split; vm_compute; reflexivity. Qed.

(** ** Termination of the loop (C8) *)

Lemma digits_le (m : positive) (n : Z) : Z.pos m < 2 ^ n -> digits m <= n.
Proof.
  intros H. unfold digits.
  assert (Z.log2 (Z.pos m) < n) by (apply Z.log2_lt_pow2; lia). lia.
Qed.

Lemma round_raw_small p rnd s m e :
  digits m <= p ->
  round_raw p rnd s m e = (Z.shiftl (Z.pos m) (p - digits m), e, 0).
Proof.
  intros H. unfold round_raw.
  destruct (Z.leb_spec (digits m) p); [reflexivity|lia].
Qed.

Lemma pow2_split a b : 0 <= a -> 0 <= b -> 2 ^ (a + b) = 2 ^ a * 2 ^ b.
Proof. intros. apply Z.pow_add_r; assumption. Qed.

Lemma pow2_pos a : 0 <= a -> 0 < 2 ^ a.
Proof. intros. apply Z.pow_pos_nonneg; lia. Qed.

Lemma pow2_le a b : a <= b -> 0 <= a -> 2 ^ a <= 2 ^ b.
Proof. intros. apply Z.pow_le_mono_r; lia. Qed.

(** The exact sum of two numbers: a bound on its number of bits. *)
Lemma add_exact_shape rnd s m e t n f :
  let l := Z.min (e - digits m) (f - digits n) in
  add_exact rnd (Fin s m e) (Fin t n f) = Zero (rnd_eqb rnd MPFR_RNDD) \/
  exists r k, add_exact rnd (Fin s m e) (Fin t n f) = Fin r k (l + digits k) /\
              digits k <= Z.max e f - l + 1.
Proof.
  intros l. unfold add_exact. fold l.
  set (M := signed s (Z.shiftl (Z.pos m) (e - digits m - l))
            + signed t (Z.shiftl (Z.pos n) (f - digits n - l))).
  destruct (Z.eqb_spec M 0) as [E|E]; [left; reflexivity|right].
  do 2 eexists. split; [reflexivity|].
  apply digits_le. rewrite Z2Pos.id by lia.
  pose proof (digits_spec m) as Hm. pose proof (digits_spec n) as Hn.
  pose proof (digits_pos m) as Pm. pose proof (digits_pos n) as Pn.
  assert (Ha : 0 <= e - digits m - l) by (unfold l; lia).
  assert (Hb : 0 <= f - digits n - l) by (unfold l; lia).
  assert (B1 : Z.shiftl (Z.pos m) (e - digits m - l) < 2 ^ (e - l)).
  { rewrite Z.shiftl_mul_pow2 by lia.
    replace (e - l) with (digits m + (e - digits m - l)) by lia.
    rewrite pow2_split by lia.
    pose proof (pow2_pos (e - digits m - l) Ha). nia. }
  assert (B2 : Z.shiftl (Z.pos n) (f - digits n - l) < 2 ^ (f - l)).
  { rewrite Z.shiftl_mul_pow2 by lia.
    replace (f - l) with (digits n + (f - digits n - l)) by lia.
    rewrite pow2_split by lia.
    pose proof (pow2_pos (f - digits n - l) Hb). nia. }
  assert (P1 : 0 < Z.shiftl (Z.pos m) (e - digits m - l)).
  { rewrite Z.shiftl_mul_pow2 by lia. pose proof (pow2_pos _ Ha). nia. }
  assert (P2 : 0 < Z.shiftl (Z.pos n) (f - digits n - l)).
  { rewrite Z.shiftl_mul_pow2 by lia. pose proof (pow2_pos _ Hb). nia. }
  assert (C1 : 2 ^ (e - l) <= 2 ^ (Z.max e f - l)) by (apply pow2_le; lia).
  assert (C2 : 2 ^ (f - l) <= 2 ^ (Z.max e f - l)) by (apply pow2_le; lia).
  replace (Z.max e f - l + 1) with (1 + (Z.max e f - l)) by lia.
  rewrite pow2_split by lia. change (2 ^ 1) with 2.
  unfold M, signed. destruct s, t; lia.
Qed.

Section Shape.
Variables emin emax : Z.


Lemma shifted_mant_shape p D k :
  1 <= digits k <= D -> D <= p ->
  mant_shape p D (Z.to_pos (Z.shiftl (Z.pos k) (p - digits k))).
Proof.
  intros Hk Hp. pose proof (digits_spec k) as Hs.
  rewrite Z.shiftl_mul_pow2 by lia.
  assert (H0 : 0 < 2 ^ (p - digits k)) by (apply pow2_pos; lia).
  split.
  - apply digits_to_pos; [|lia].
    assert (E1 : 2 ^ (p - 1) = 2 ^ (digits k - 1) * 2 ^ (p - digits k))
      by (rewrite <- pow2_split by lia; f_equal; lia).
    assert (E2 : 2 ^ p = 2 ^ digits k * 2 ^ (p - digits k))
      by (rewrite <- pow2_split by lia; f_equal; lia).
    rewrite E1, E2. nia.
  - rewrite Z2Pos.id by nia.
    exists (Z.pos k * 2 ^ (D - digits k)).
    rewrite <- Z.mul_assoc, <- pow2_split by lia. do 2 f_equal. lia.
Qed.

Lemma min_mant_shape p D :
  1 <= D -> D <= p -> mant_shape p D (Z.to_pos (2 ^ (p - 1))).
Proof.
  intros HD Hp.
  assert (H0 : 0 < 2 ^ (p - 1)) by (apply pow2_pos; lia).
  split.
  - apply digits_to_pos; [|lia]. split; [lia|]. apply Z.pow_lt_mono_r; lia.
  - rewrite Z2Pos.id by lia. exists (2 ^ (D - 1)).
    rewrite <- pow2_split by lia. f_equal. lia.
Qed.

(** At a precision of at least the span [D] of the bits of the two
    operands, their sum rounded away is exact, unless it overflows or
    underflows to the smallest number. *)
Lemma add_away_shape p s m e t n f :
  let l := Z.min (e - digits m) (f - digits n) in
  let D := Z.max e f - l + 1 in
  let u := add_val emin emax p MPFR_RNDA (Fin s m e) (Fin t n f) in
  D <= p ->
  sgn (r_val u) <> 0 ->
  is_inf (r_val u) = true \/
  exists r k E,
    r_val u = Fin r k E /\ mant_shape p D k /\
    ((r_inex u = 0 /\ emin <= E <= Z.max e f + 1) \/
     (E = emin /\ Z.pos k = 2 ^ (p - 1) /\ l <= emin - 2)).
Proof.
  intros l D u Hp Hs. unfold u, add_val in *.
  destruct (add_exact_shape MPFR_RNDA s m e t n f) as [E|(r & k & E & Hk)];
    fold l in E |- *; rewrite E in *.
  - exfalso. apply Hs. reflexivity.
  - fold D in Hk. pose proof (digits_pos k) as Pk.
    unfold round in *. rewrite round_raw_small in * by lia.
    destruct (Z.ltb_spec emax (l + digits k)) as [Ho|Ho].
    + left. reflexivity.
    + right. destruct (Z.ltb_spec (l + digits k) emin) as [Hu|Hu].
      * unfold mpfr_underflow; cbn.
        do 3 eexists. split; [reflexivity|].
        split; [apply min_mant_shape; lia|].
        right. split; [reflexivity|]. split; [|lia].
        apply Z2Pos.id, pow2_pos. lia.
      * cbn. do 3 eexists. split; [reflexivity|].
        split; [apply shifted_mant_shape; lia|].
        left. split; [apply signed_0|]. lia.
Qed.

End Shape.

Section Product.
Variables emin emax : Z.

Lemma mant_shape_bounds p D m :
  mant_shape p D m -> 2 ^ (p - 1) <= Z.pos m < 2 ^ p.
Proof. intros [Hd _]. rewrite <- Hd. apply digits_spec. Qed.

Lemma product_digits p D mu mv :
  mant_shape p D mu -> mant_shape p D mv -> 1 <= p ->
  2 * p - 1 <= digits (mu * mv) <= 2 * p.
Proof.
  intros Hu Hv Hp.
  pose proof (mant_shape_bounds _ _ _ Hu) as Bu.
  pose proof (mant_shape_bounds _ _ _ Hv) as Bv.
  pose proof (digits_spec (mu * mv)) as Hs. rewrite Pos2Z.inj_mul in Hs.
  assert (P0 : 0 < 2 ^ (p - 1)) by (apply pow2_pos; lia).
  assert (L : 2 ^ (2 * p - 2) <= Z.pos mu * Z.pos mv).
  { replace (2 * p - 2) with ((p - 1) + (p - 1)) by lia.
    rewrite pow2_split by lia. nia. }
  assert (U : Z.pos mu * Z.pos mv < 2 ^ (2 * p)).
  { replace (2 * p) with (p + p) by lia. rewrite pow2_split by lia. nia. }
  pose proof (digits_pos (mu * mv)) as Pd.
  split.
  - destruct (Z.le_gt_cases (2 * p - 1) (digits (mu * mv))); [assumption|].
    exfalso.
    assert (2 ^ digits (mu * mv) <= 2 ^ (2 * p - 2)) by (apply pow2_le; lia).
    lia.
  - destruct (Z.le_gt_cases (digits (mu * mv)) (2 * p)); [assumption|].
    exfalso.
    assert (2 ^ (2 * p) <= 2 ^ (digits (mu * mv) - 1)) by (apply pow2_le; lia).
    lia.
Qed.

Lemma product_digits_min p D mu mv :
  Z.pos mu = 2 ^ (p - 1) -> mant_shape p D mv -> 1 <= p ->
  digits (mu * mv) = 2 * p - 1.
Proof.
  intros Hu Hv Hp.
  pose proof (mant_shape_bounds _ _ _ Hv) as Bv.
  assert (P0 : 0 < 2 ^ (p - 1)) by (apply pow2_pos; lia).
  apply digits_unique. rewrite Pos2Z.inj_mul, Hu.
  replace (2 * p - 1 - 1) with ((p - 1) + (p - 1)) by lia.
  replace (2 * p - 1) with ((p - 1) + p) by lia.
  rewrite !pow2_split by lia. nia.
Qed.

Lemma product_round_raw p D rnd s mu mv e :
  mant_shape p D mu -> mant_shape p D mv -> 1 <= D -> 2 * D <= p ->
  round_raw p rnd s (mu * mv) e
  = (Z.shiftr (Z.pos (mu * mv)) (digits (mu * mv) - p), e, 0).
Proof.
  intros Hu Hv HD Hp.
  pose proof (product_digits p D mu mv Hu Hv ltac:(lia)) as Hn.
  destruct Hu as [_ [cu Eu]], Hv as [_ [cv Ev]].
  unfold round_raw.
  destruct (Z.leb_spec (digits (mu * mv)) p) as [H|H]; [lia|].
  set (k := digits (mu * mv) - p) in *.
  assert (Hk : 0 <= k <= p) by (unfold k; lia).
  assert (R : Z.pos (mu * mv) mod 2 ^ k = 0).
  { rewrite Pos2Z.inj_mul, Eu, Ev.
    replace (cu * 2 ^ (p - D) * (cv * 2 ^ (p - D)))
      with (cu * cv * (2 ^ (p - D) * 2 ^ (p - D))) by ring.
    rewrite <- pow2_split by lia.
    replace (p - D + (p - D)) with ((2 * p - 2 * D - k) + k) by lia.
    rewrite pow2_split by lia. rewrite Z.mul_assoc.
    apply Z.mod_mul. pose proof (pow2_pos k ltac:(lia)). lia. }
  rewrite R. reflexivity.
Qed.

Lemma directed_not_nearest rnd m e :
  rnd = GMP_RNDU \/ rnd = GMP_RNDD -> underflow_rnd emin rnd m e = rnd.
Proof. intros [-> | ->]; reflexivity. Qed.

(** At a large precision the product of two such numbers, rounded away
    from zero, is exact unless it overflows or has exponent [emin]. *)
Lemma product_exact p D rnd1 su mu eu sv mv ev :
  mant_shape p D mu -> mant_shape p D mv -> 1 <= D -> 2 * D <= p ->
  rnd1 = GMP_RNDU \/ rnd1 = GMP_RNDD ->
  is_like_rndz rnd1 (xorb su sv) = false ->
  let uv := mul_val emin emax p rnd1 (Fin su mu eu) (Fin sv mv ev) in
  is_inf (r_val uv) = false -> get_exp (r_val uv) <> emin ->
  r_inex uv = 0 /\ emin < eu + ev - (2 * p - digits (mu * mv)).
Proof.
  intros Hu Hv HD Hp Hrnd Hlike uv. unfold uv, mul_val, mul_exact, round.
  rewrite (product_round_raw p D) by assumption.
  rewrite (proj1 Hu), (proj1 Hv).
  replace (p + p - digits (mu * mv)) with (2 * p - digits (mu * mv)) by lia.
  set (E := eu + ev - (2 * p - digits (mu * mv))).
  destruct (Z.ltb_spec emax E) as [Ho|Ho].
  - unfold mpfr_overflow. rewrite Hlike. cbn. discriminate.
  - destruct (Z.ltb_spec E emin) as [Hl|Hl].
    + rewrite directed_not_nearest by assumption.
      unfold mpfr_underflow. rewrite Hlike. cbn. intros _ H. exfalso. apply H. reflexivity.
    + cbn. intros _ H. split; [apply signed_0|]. lia.
Qed.

End Product.

Section Exact.
Variables emin emax : Z.

Lemma sgn_Fin_product su mu eu sv mv ev :
  let rnd1 := if 0 <? sgn (Fin su mu eu) * sgn (Fin sv mv ev)
              then GMP_RNDU else GMP_RNDD in
  (rnd1 = GMP_RNDU \/ rnd1 = GMP_RNDD) /\
  is_like_rndz rnd1 (xorb su sv) = false.
Proof. destruct su, sv; cbn; auto. Qed.

(** At a working precision of twice the span, a turn outside the zero,
    overflow and [emin] cases computes [u], [v] and [u * v] exactly. *)
Lemma karatsuba_exact p sx mx ex sy my ey :
  let x := Fin sx mx ex in
  let y := Fin sy my ey in
  let l := Z.min (ex - digits mx) (ey - digits my) in
  let D := Z.max ex ey - l + 1 in
  let u := karatsuba_u emin emax p x y in
  let v := karatsuba_v emin emax p x y in
  let uv := karatsuba_uv emin emax p (product_rnd emin emax p x y) x y in
  2 * D <= p -> (l <= emin - 2 -> Z.max ex ey <= 0) -> emin <= 1 ->
  sgn (r_val u) <> 0 -> sgn (r_val v) <> 0 ->
  is_inf (r_val uv) = false -> get_exp (r_val uv) <> emin ->
  r_inex u = 0 /\ r_inex v = 0 /\ r_inex uv = 0.
Proof.
  intros x y l D u v uv Hp Hsmall Hemin Hu Hv Hinf Hexp.
  pose proof (digits_pos mx) as Px. pose proof (digits_pos my) as Py.
  assert (HD : 1 <= D) by (unfold D, l; lia).
  pose proof (add_away_shape emin emax p sx mx ex sy my ey ltac:(fold l D; lia) Hu)
    as Su.
  pose proof (add_away_shape emin emax p sx mx ex (negb sy) my ey
                ltac:(fold l D; lia) Hv) as Sv.
  fold l D in Su, Sv.
  change (add_val emin emax p MPFR_RNDA (Fin sx mx ex) (Fin sy my ey))
    with u in Su.
  change (add_val emin emax p MPFR_RNDA (Fin sx mx ex) (Fin (negb sy) my ey))
    with v in Sv.
  unfold uv, karatsuba_uv, product_rnd in Hinf, Hexp |- *. fold u v in Hinf, Hexp |- *.
  destruct Su as [Iu|(su & mu & eu & Eu & Mu & Cu)].
  { exfalso. destruct (r_val u) as [|a| |]; try discriminate.
    destruct Sv as [Iv|(sv & mv & ev & Ev & _)].
    - destruct (r_val v) as [|b| |]; try discriminate.
    - rewrite Ev in Hinf. discriminate. }
  destruct Sv as [Iv|(sv & mv & ev & Ev & Mv & Cv)].
  { exfalso. rewrite Eu in Hinf. destruct (r_val v) as [|b| |]; try discriminate. }
  rewrite Eu, Ev in Hinf, Hexp |- *.
  destruct (sgn_Fin_product su mu eu sv mv ev) as [Hr Hl].
  destruct (product_exact emin emax p D _ su mu eu sv mv ev Mu Mv HD Hp Hr Hl Hinf Hexp)
    as [Hi HE].
  pose proof (product_digits p D mu mv Mu Mv ltac:(lia)) as Pd.
  split; [|split; [|exact Hi]].
  - destruct Cu as [[H _]|(He & Hm & Hl')]; [exact H|]. exfalso.
    rewrite (product_digits_min p D mu mv Hm Mv) in HE by lia.
    specialize (Hsmall Hl').
    destruct Cv as [[_ B]|(He' & _ & _)]; lia.
  - destruct Cv as [[H _]|(He & Hm & Hl')]; [exact H|]. exfalso.
    rewrite Pos.mul_comm in HE.
    rewrite (product_digits_min p D mv mu Hm Mu) in HE by lia.
    specialize (Hsmall Hl').
    destruct Cu as [[_ B]|(He' & _ & _)]; lia.
Qed.

Variable can_round : mpfr_val -> Z -> mpfr_rnd_t -> mpfr_rnd_t -> Z -> bool.

Lemma exit_case_large rop rnd p s sx mx ex sy my ey :
  let l := Z.min (ex - digits mx) (ey - digits my) in
  let D := Z.max ex ey - l + 1 in
  2 * D <= p -> (l <= emin - 2 -> Z.max ex ey <= 0) -> emin <= 1 ->
  loop_exit_case emin emax can_round rop rnd p s (Fin sx mx ex) (Fin sy my ey).
Proof.
  intros l D Hp Hsmall Hemin. unfold loop_exit_case.
  set (x := Fin sx mx ex). set (y := Fin sy my ey).
  destruct (Z.eq_dec (sgn (r_val (karatsuba_u emin emax p x y))) 0) as [|Hu];
    [auto|].
  destruct (Z.eq_dec (sgn (r_val (karatsuba_v emin emax p x y))) 0) as [|Hv];
    [auto|].
  destruct (is_inf (r_val (karatsuba_uv emin emax p (product_rnd emin emax p x y) x y)))
    eqn:Hinf; [auto|].
  destruct (Z.eq_dec (get_exp (r_val (karatsuba_uv emin emax p
                        (product_rnd emin emax p x y) x y))) emin) as [|Hexp];
    [auto|].
  destruct (karatsuba_exact p sx mx ex sy my ey Hp Hsmall Hemin Hu Hv Hinf Hexp)
    as (E1 & E2 & E3).
  do 4 right. left. unfold x, y. rewrite E1, E2, E3. reflexivity.
Qed.

End Exact.

Section Exits.
Variables emin emax : Z.
Variable can_round : mpfr_val -> Z -> mpfr_rnd_t -> mpfr_rnd_t -> Z -> bool.

(** In an exit case the turn does not ask for another one: it returns a
    result or fails the assertion. *)
Lemma exit_case_exits rop op rnd p s :
  loop_exit_case emin emax can_round rop rnd p s
    (val_of (mem s (Local sqr_x))) (val_of (mem s (Im op))) ->
  forall s', sqr_body emin emax can_round rop op rnd p s <> Returns Again s'.
Proof.
  unfold loop_exit_case, karatsuba_uv, product_rnd, karatsuba_u, karatsuba_v.
  set (x := val_of (mem s (Local sqr_x))). set (y := val_of (mem s (Im op))).
  set (u := add_val emin emax p MPFR_RNDA x y).
  set (v := sub_val emin emax p MPFR_RNDA x y).
  intros H s'. unfold sqr_body. exec. fold x y. fold u v.
  destruct ((sgn (r_val u) =? 0) || (sgn (r_val v) =? 0)) eqn:Hz; exec;
    [discriminate|].
  apply orb_false_iff in Hz. destruct Hz as [Hu Hv].
  apply Z.eqb_neq in Hu, Hv.
  destruct H as [H|[H|H]]; [contradiction..|].
  unfold MPC_RND_RE in H.
  destruct (0 <? sgn (r_val u) * sgn (r_val v)) eqn:Hpos; exec.
  - set (uv := mul_val emin emax p GMP_RNDU (r_val u) (r_val v)) in *.
    destruct (Z.eqb_spec (get_exp (r_val uv)) emin) as [He|He]; exec;
      [discriminate|].
    destruct (is_inf (r_val uv)) eqn:Hi; exec; [discriminate|].
    unfold sqr_ok, sqr_if_ok. exec.
    replace ((Z.lor (Z.lor (r_inex u) (r_inex v)) (r_inex uv) =? 0)
             || can_round (r_val uv) (p - 3) GMP_RNDU GMP_RNDZ
                  (prec_of (mem s (Re rop))
                   + (if rnd_eqb (fst rnd) GMP_RNDN then 1 else 0)))
      with true; [exec; discriminate|].
    symmetry. apply orb_true_iff.
    destruct H as [H|[H|[H|H]]]; try congruence; [left|right; exact H].
    apply Z.eqb_eq. exact H.
  - set (uv := mul_val emin emax p GMP_RNDD (r_val u) (r_val v)) in *.
    destruct (is_inf (r_val uv)) eqn:Hi; exec.
    { unfold sqr_if_ok. split_all; discriminate. }
    destruct (Z.eqb_spec (get_exp (r_val uv)) emin) as [He|He]; exec.
    { split_all; discriminate. }
    unfold sqr_ok, sqr_if_ok. exec.
    replace ((Z.lor (Z.lor (r_inex u) (r_inex v)) (r_inex uv) =? 0)
             || can_round (r_val uv) (p - 3) GMP_RNDD GMP_RNDZ
                  (prec_of (mem s (Re rop))
                   + (if rnd_eqb (fst rnd) GMP_RNDN then 1 else 0)))
      with true; [exec; discriminate|].
    symmetry. apply orb_true_iff.
    destruct H as [H|[H|[H|H]]]; try congruence; [left|right; exact H].
    apply Z.eqb_eq. exact H.
Qed.
End Exits.

Section Termination.
Variables emin emax : Z.
Variable can_round : mpfr_val -> Z -> mpfr_rnd_t -> mpfr_rnd_t -> Z -> bool.

Lemma next_prec_grows p : p + 5 <= next_prec p.
Proof.
  unfold next_prec, mpc_ceil_log2. pose proof (Z.log2_up_nonneg p). lia.
Qed.

(** One turn of the loop needs no fuel. *)
Lemma body_total rop op rnd p s :
  sqr_body emin emax can_round rop op rnd p s <> OutOfFuel.
Proof.
  unfold sqr_body, sqr_ok, sqr_if_ok. exec. split_all; discriminate.
Qed.

(** A turn that asks for another one leaves the operands of the loop in
    place. *)
Lemma body_again_inputs rop op rnd p s s' :
  sqr_body emin emax can_round rop op rnd p s = Returns Again s' ->
  mem s' (Local sqr_x) = mem s (Local sqr_x) /\
  mem s' (Im op) = mem s (Im op) /\
  prec_of (mem s' (Re rop)) = prec_of (mem s (Re rop)).
Proof.
  intros E.
  pose proof (body_rel emin emax can_round op rop rop (mem s (Local sqr_x))
                (mem s (Im op)) (prec_of (mem s (Re rop))) rnd p s s) as H.
  rewrite E in H. cbn in H.
  destruct H as ((_ & _ & H & _) & _); unfold inputs_at; auto.
Qed.

(** When every turn at a working precision of at least [N] leaves the
    loop, so does the loop, after enough turns. *)
Lemma loop_bounded rop op rnd cx cy N
  (Hexit : forall p s, N <= p ->
     mem s (Local sqr_x) = cx -> mem s (Im op) = cy ->
     forall s', sqr_body emin emax can_round rop op rnd p s <> Returns Again s') :
  forall n prec s,
    N - next_prec prec <= 5 * Z.of_nat n ->
    mem s (Local sqr_x) = cx -> mem s (Im op) = cy ->
    sqr_loop emin emax can_round (S n) rop op rnd prec s <> OutOfFuel.
Proof.
  induction n as [|n IH]; intros prec s Hn Hx Hy.
  - cbn [sqr_loop bind].
    pose proof (body_total rop op rnd (next_prec prec) s) as Ht.
    pose proof (Hexit (next_prec prec) s ltac:(lia) Hx Hy) as He.
    destruct (sqr_body emin emax can_round rop op rnd (next_prec prec) s)
      as [[i|] s'| |]; try discriminate; [exfalso; eapply He; reflexivity | contradiction].
  - change (sqr_loop emin emax can_round (S (S n)) rop op rnd prec s)
      with (bind (sqr_body emin emax can_round rop op rnd (next_prec prec))
              (fun c => match c with
                        | Exit inex_re => ret inex_re
                        | Again => sqr_loop emin emax can_round (S n) rop op rnd
                                     (next_prec prec)
                        end) s).
    cbn [bind].
    pose proof (body_total rop op rnd (next_prec prec) s) as Ht.
    pose proof (body_again_inputs rop op rnd (next_prec prec) s) as Hk.
    destruct (sqr_body emin emax can_round rop op rnd (next_prec prec) s)
      as [[i|] s'| |]; try discriminate; [|contradiction].
    destruct (Hk s' eq_refl) as (Hx' & Hy' & _).
    apply IH; [|congruence..].
    pose proof (next_prec_grows (next_prec prec)). lia.
Qed.

End Termination.

Section WideRange.
Variables emin emax : Z.
Variable can_round : mpfr_val -> Z -> mpfr_rnd_t -> mpfr_rnd_t -> Z -> bool.

Lemma quot_half (m : Z) : 0 <= m -> 2 * Z.quot m 2 <= m.
Proof.
  intros H. rewrite Z.quot_div_nonneg by lia. apply Z.mul_div_le. lia.
Qed.

(** Where the loop does terminate.  The loop is entered with finite non-zero
    [x] and [y] whose exponents differ by at most half the larger precision
    (line 247).  When the exponent range is wide for the precisions,
    [emin + 2 * max_prec <= 2] (in the default range: every precision up to
    [2^61]), then: the working precision grows in every turn; a turn in an
    exit case does not ask for another turn; and some number of turns is
    enough, whatever [mpfr_can_round] answers, because at a working
    precision of twice the span of the bits of [x] and [y] the sums and the
    product are exact unless the product overflows or has exponent [emin].
    The loop is then left with a result or by the failed assertion of
    line 297. *)
Theorem sqr_loop_terminates_wide_range rop op rnd prec s :
  let cx := mem s (Local sqr_x) in
  let cy := mem s (Im op) in
  let max_prec := Z.max (prec_of cx) (prec_of cy) in
  is_fin (val_of cx) = true -> is_fin (val_of cy) = true ->
  wf_mpfr emin emax cx -> wf_mpfr emin emax cy ->
  SAFE_ABS (get_exp (val_of cx) - get_exp (val_of cy)) <= Z.quot max_prec 2 ->
  emin + 2 * max_prec <= 2 ->
  (forall p, p < next_prec p) /\
  (forall p t,
     loop_exit_case emin emax can_round rop rnd p t
       (val_of (mem t (Local sqr_x))) (val_of (mem t (Im op))) ->
     forall t', sqr_body emin emax can_round rop op rnd p t <> Returns Again t') /\
  exists fuel, forall fuel', (fuel <= fuel')%nat ->
    sqr_loop emin emax can_round fuel' rop op rnd prec s <> OutOfFuel.
Proof.
  intros cx cy max_prec Fx Fy [Px Wx] [Py Wy] Hskew Hrange.
  split; [intros p; pose proof (next_prec_grows p); lia|].
  split; [intros p t H t'; apply exit_case_exits; exact H|].
  destruct (val_of cx) as [| | |sx mx ex] eqn:Ex; try discriminate.
  destruct (val_of cy) as [| | |sy my ey] eqn:Ey; try discriminate.
  cbn in Wx, Wy, Hskew. unfold SAFE_ABS in Hskew.
  destruct Wx as [Dx Rx], Wy as [Dy Ry].
  pose proof (quot_half max_prec ltac:(unfold max_prec; lia)) as Hq.
  set (l := Z.min (ex - digits mx) (ey - digits my)).
  set (D := Z.max ex ey - l + 1).
  assert (Hsmall : l <= emin - 2 -> Z.max ex ey <= 0)
    by (unfold l, max_prec in *; lia).
  assert (Hemin : emin <= 1) by (unfold max_prec in *; lia).
  assert (Hexit : forall p t, 2 * D <= p ->
            mem t (Local sqr_x) = cx -> mem t (Im op) = cy ->
            forall t', sqr_body emin emax can_round rop op rnd p t
                       <> Returns Again t').
  { intros p t Hp Hx Hy. apply exit_case_exits. rewrite Hx, Hy, Ex, Ey.
    apply exit_case_large; assumption. }
  exists (S (Z.to_nat (2 * D - prec))). intros [|n] Hn; [lia|].
  apply (loop_bounded emin emax can_round rop op rnd cx cy (2 * D) Hexit);
    [|reflexivity..].
  pose proof (next_prec_grows prec). lia.
Qed.

End WideRange.

(** The operand [3 + 0.875 i] at 53 bits in the default exponent range. *)
Lemma sqr_loop_terminates_default_range :
  let x := mk_num 53 false 3 0 in
  let y := mk_num 53 false 7 (-3) in
  let s := loop_state 1%nat 0%nat 53 53 x y in
  exists fuel, forall fuel', (fuel <= fuel')%nat ->
    sqr_loop default_emin default_emax can_round_interval fuel' 1%nat 0%nat
      MPC_RNDNN 53 s <> OutOfFuel.
Proof.
  intros x y s.
  apply (sqr_loop_terminates_wide_range default_emin default_emax
           can_round_interval 1%nat 0%nat MPC_RNDNN 53 s);
    try reflexivity;
    try (vm_compute; intuition discriminate).
Qed.

(** ** A narrow exponent range: the loop is never left (C8) *)

Section SmallRounding.
Variables emin emax : Z.

Lemma round_fits p rnd s m e :
  digits m <= p -> emin <= e <= emax ->
  round emin emax p rnd (Fin s m e)
  = mk_rounded (Fin s (Z.to_pos (Z.shiftl (Z.pos m) (p - digits m))) e) 0 false.
Proof.
  intros Hd He. unfold round. rewrite round_raw_small by assumption.
  destruct (Z.ltb_spec emax e); [lia|].
  destruct (Z.ltb_spec e emin); [lia|].
  rewrite signed_0. reflexivity.
Qed.

Lemma round_away_underflows p s m e :
  digits m <= p -> e < emin -> e <= emax ->
  round emin emax p MPFR_RNDA (Fin s m e)
  = mk_rounded (Fin s (Z.to_pos (2 ^ (p - 1))) emin) (signed s 1) true.
Proof.
  intros Hd He He'. unfold round. rewrite round_raw_small by assumption.
  destruct (Z.ltb_spec emax e); [lia|].
  destruct (Z.ltb_spec e emin); [|lia].
  reflexivity.
Qed.

Lemma round_raw_pow2_mul p rnd s mu mv e :
  Z.pos mu = 2 ^ (p - 1) -> digits mv = p -> 2 <= p ->
  round_raw p rnd s (mu * mv) e = (Z.pos mv, e, 0).
Proof.
  intros Hu Hv Hp.
  assert (Hn : digits (mu * mv) = 2 * p - 1).
  { apply (product_digits_min p p); [assumption| |lia].
    split; [assumption|]. exists (Z.pos mv). rewrite Z.sub_diag. lia. }
  unfold round_raw. rewrite Hn.
  destruct (Z.leb_spec (2 * p - 1) p); [lia|].
  replace (2 * p - 1 - p) with (p - 1) by lia.
  assert (P : 0 < 2 ^ (p - 1)) by (apply pow2_pos; lia).
  rewrite Pos2Z.inj_mul, Hu, Z.mul_comm.
  rewrite Z.mod_mul by lia. cbn.
  rewrite Z.shiftr_div_pow2 by lia. rewrite Z.div_mul by lia. reflexivity.
Qed.

End SmallRounding.

(** [b - 2^(E(b) - err)] for [err = p - 3]: eight units in the last place
    of [b]. *)
Lemma sub_eight_exact m e :
  8 < Z.pos m ->
  add_exact MPFR_RNDN (Fin false m e) (Fin true 1 (e - (digits m - 3) + 1))
  = Fin false (Z.to_pos (Z.pos m - 8))
      (e - digits m + digits (Z.to_pos (Z.pos m - 8))).
Proof.
  intros Hm. unfold add_exact.
  change (digits 1) with 1.
  replace (Z.min (e - digits m) (e - (digits m - 3) + 1 - 1)) with (e - digits m)
    by lia.
  replace (e - digits m - (e - digits m)) with 0 by lia.
  replace (e - (digits m - 3) + 1 - 1 - (e - digits m)) with 3 by lia.
  change (signed false (Z.shiftl (Z.pos m) 0) + signed true (Z.shiftl 1 3))
    with (Z.pos m + - (8)).
  destruct (Z.eqb_spec (Z.pos m + - (8)) 0); [lia|].
  destruct (Z.ltb_spec (Z.pos m + - (8)) 0); [lia|].
  rewrite Z.abs_eq by lia. reflexivity.
Qed.

Lemma round_raw_fst_rndz p s m e :
  p < digits m ->
  exists i, round_raw p MPFR_RNDZ s m e
            = (Z.shiftr (Z.pos m) (digits m - p), e, i).
Proof.
  intros H. unfold round_raw. destruct (Z.leb_spec (digits m) p); [lia|].
  destruct (Z.pos m mod 2 ^ (digits m - p) =? 0); eexists; reflexivity.
Qed.

(** When the approximation [b] from above is itself a number of the target
    precision, the number below it in the error interval is rounded toward
    zero to another number: one cannot round. *)
Lemma can_round_interval_representable m e p q prec2 c :
  digits m = p -> Z.pos m = c * 2 ^ (p - q) -> q <= prec2 -> prec2 + 3 <= p ->
  2 ^ (p - 1) + 8 <= Z.pos m ->
  can_round_interval (Fin false m e) (p - 3) MPFR_RNDU MPFR_RNDZ prec2 = false.
Proof.
  intros Hd Hc Hq Hp Hm.
  pose proof (digits_spec m) as Hs. rewrite Hd in Hs.
  pose proof (digits_pos m) as Pd. rewrite Hd in Pd.
  assert (P8 : 8 < Z.pos m) by (pose proof (pow2_pos (p - 1)); lia).
  unfold can_round_interval. rewrite <- Hd at 1. rewrite sub_eight_exact by assumption.
  set (m' := Z.to_pos (Z.pos m - 8)).
  assert (Em' : Z.pos m' = Z.pos m - 8) by (unfold m'; rewrite Z2Pos.id; lia).
  assert (Hd' : digits m' = p).
  { apply digits_unique. rewrite Em'. lia. }
  destruct (round_raw_fst_rndz prec2 false m' (e - digits m + digits m')
              ltac:(lia)) as [i1 E1].
  destruct (round_raw_fst_rndz prec2 false m e ltac:(lia)) as [i2 E2].
  rewrite E1, E2. rewrite Hd', Hd, Em'.
  set (k := p - prec2).
  assert (Hk : 3 <= k) by (unfold k; lia).
  assert (Pk : 8 <= 2 ^ k).
  { change 8 with (2 ^ 3). apply pow2_le; lia. }
  rewrite !Z.shiftr_div_pow2 by lia.
  assert (Hc' : Z.pos m = (c * 2 ^ (prec2 - q)) * 2 ^ k).
  { rewrite Hc, <- Z.mul_assoc, <- pow2_split by (unfold k; lia).
    do 2 f_equal. unfold k. lia. }
  set (c' := c * 2 ^ (prec2 - q)) in *.
  assert (Q2 : Z.pos m / 2 ^ k = c') by (rewrite Hc'; apply Z.div_mul; lia).
  assert (Q1 : (Z.pos m - 8) / 2 ^ k = c' - 1).
  { symmetry. apply (Z.div_unique _ _ _ (2 ^ k - 8)); [lia|]. rewrite Hc'. ring. }
  rewrite Q1, Q2. cbn.
  destruct (Z.eqb_spec (c' - 1) c'); [lia|]. reflexivity.
Qed.

Section Again.
Variables emin emax : Z.
Variable can_round : mpfr_val -> Z -> mpfr_rnd_t -> mpfr_rnd_t -> Z -> bool.

(** Outside the exit cases a turn of the loop asks for another turn. *)
Lemma body_again rop op rnd p s :
  let x := val_of (mem s (Local sqr_x)) in
  let y := val_of (mem s (Im op)) in
  let u := karatsuba_u emin emax p x y in
  let v := karatsuba_v emin emax p x y in
  let uv := karatsuba_uv emin emax p GMP_RNDU x y in
  0 < sgn (r_val u) * sgn (r_val v) ->
  is_inf (r_val uv) = false ->
  get_exp (r_val uv) <> emin ->
  Z.lor (Z.lor (r_inex u) (r_inex v)) (r_inex uv) <> 0 ->
  can_round (r_val uv) (p - 3) GMP_RNDU GMP_RNDZ
    (prec_of (mem s (Re rop))
     + (if rnd_eqb (MPC_RND_RE rnd) GMP_RNDN then 1 else 0)) = false ->
  exists s', sqr_body emin emax can_round rop op rnd p s = Returns Again s'.
Proof.
  unfold karatsuba_uv, karatsuba_u, karatsuba_v, MPC_RND_RE.
  set (x := val_of (mem s (Local sqr_x))). set (y := val_of (mem s (Im op))).
  set (u := add_val emin emax p MPFR_RNDA x y).
  set (v := sub_val emin emax p MPFR_RNDA x y).
  set (uv := mul_val emin emax p GMP_RNDU (r_val u) (r_val v)).
  intros Hpos Hinf Hexp Hlor Hcr.
  unfold sqr_body. exec. fold x y. fold u v.
  replace ((sgn (r_val u) =? 0) || (sgn (r_val v) =? 0)) with false
    by (symmetry; apply orb_false_iff; split; apply Z.eqb_neq; nia).
  apply Z.ltb_lt in Hpos. rewrite Hpos. exec. fold uv.
  apply Z.eqb_neq in Hexp. rewrite Hexp. exec. rewrite Hinf.
  unfold sqr_ok, sqr_if_ok. exec. rewrite Hcr.
  apply Z.eqb_neq in Hlor. rewrite Hlor. exec. eexists. reflexivity.
Qed.

End Again.

(** In the exponent range [-10 .. 10], [u = x + y = 2^-20] underflows and is
    rounded away to [0.5 * 2^emin]; [v = x - y = 2 + 2^-20] and the product
    [u * v], of exponent [-9], are exact. *)
Lemma narrow_u p :
  33 <= p ->
  karatsuba_u (-10) 10 p (val_of narrow_x) (val_of narrow_y)
  = mk_rounded (Fin false (Z.to_pos (2 ^ (p - 1))) (-10)) 1 true.
Proof.
  intros Hp. unfold karatsuba_u, add_val.
  replace (add_exact MPFR_RNDA (val_of narrow_x) (val_of narrow_y))
    with (Fin false 4294967296 (-19)) by (vm_compute; reflexivity).
  apply round_away_underflows; change (digits 4294967296) with 33; lia.
Qed.

Lemma narrow_v p :
  54 <= p ->
  karatsuba_v (-10) 10 p (val_of narrow_x) (val_of narrow_y)
  = mk_rounded (Fin false (Z.to_pos (Z.shiftl 9007203549708288 (p - 54))) 2) 0 false.
Proof.
  intros Hp. unfold karatsuba_v, sub_val.
  replace (add_exact MPFR_RNDA (val_of narrow_x) (neg_val (val_of narrow_y)))
    with (Fin false 9007203549708288 2) by (vm_compute; reflexivity).
  rewrite round_fits; change (digits 9007203549708288) with 54; try lia. reflexivity.
Qed.

Lemma narrow_mv p :
  57 <= p ->
  let mv := Z.to_pos (Z.shiftl 9007203549708288 (p - 54)) in
  digits mv = p /\ Z.pos mv = 2097153 * 2 ^ (p - 22) /\ 2 ^ (p - 1) + 8 <= Z.pos mv.
Proof.
  intros Hp mv.
  assert (E : Z.pos mv = 2097153 * 2 ^ (p - 22)).
  { unfold mv. rewrite Z.shiftl_mul_pow2 by lia.
    pose proof (pow2_pos (p - 54) ltac:(lia)).
    rewrite Z2Pos.id by lia.
    replace (p - 22) with (32 + (p - 54)) by lia. rewrite pow2_split by lia.
    change (2 ^ 32) with 4294967296. lia. }
  assert (E1 : 2 ^ (p - 1) = 2097152 * 2 ^ (p - 22)).
  { replace (p - 1) with (21 + (p - 22)) by lia. rewrite pow2_split by lia.
    reflexivity. }
  assert (E2 : 2 ^ p = 4194304 * 2 ^ (p - 22)).
  { replace p with (22 + (p - 22)) at 1 by lia. rewrite pow2_split by lia.
    reflexivity. }
  assert (P8 : 8 <= 2 ^ (p - 22)).
  { change 8 with (2 ^ 3). apply pow2_le; lia. }
  split; [|split; [exact E|lia]].
  apply digits_unique. lia.
Qed.

Lemma narrow_uv p :
  57 <= p ->
  let mu := Z.to_pos (2 ^ (p - 1)) in
  let mv := Z.to_pos (Z.shiftl 9007203549708288 (p - 54)) in
  mul_val (-10) 10 p GMP_RNDU (Fin false mu (-10)) (Fin false mv 2)
  = mk_rounded (Fin false mv (-9)) 0 false.
Proof.
  intros Hp mu mv.
  destruct (narrow_mv p Hp) as (Dv & _ & _). fold mv in Dv.
  assert (Eu : Z.pos mu = 2 ^ (p - 1)).
  { unfold mu. apply Z2Pos.id. apply pow2_pos. lia. }
  assert (Du : digits mu = p).
  { apply digits_unique. rewrite Eu. split; [lia|]. apply Z.pow_lt_mono_r; lia. }
  assert (Duv : digits (mu * mv) = 2 * p - 1).
  { apply (product_digits_min p p); [assumption| |lia].
    split; [assumption|]. exists (Z.pos mv). rewrite Z.sub_diag. lia. }
  unfold mul_val, mul_exact, round.
  rewrite round_raw_pow2_mul by (assumption || lia).
  rewrite Du, Dv, Duv.
  replace (-10 + 2 - (p + p - (2 * p - 1))) with (-9) by lia.
  reflexivity.
Qed.

(** No exit case applies, at any working precision. *)
Lemma narrow_turn p t :
  64 <= p ->
  mem t (Local sqr_x) = narrow_x -> mem t (Im 0%nat) = narrow_y ->
  prec_of (mem t (Re 1%nat)) = 53 ->
  exists t', sqr_body (-10) 10 can_round_interval 1%nat 0%nat MPC_RNDNN p t
             = Returns Again t'.
Proof.
  intros Hp Hx Hy Hr.
  destruct (narrow_mv p ltac:(lia)) as (Dv & Ev & Bv).
  apply body_again; rewrite Hx, Hy; unfold karatsuba_uv;
    rewrite narrow_u, narrow_v by lia; cbn [r_val r_inex];
    rewrite ?narrow_uv by lia; cbn [r_val r_inex].
  - reflexivity.
  - reflexivity.
  - cbn. discriminate.
  - discriminate.
  - rewrite Hr.
    apply (can_round_interval_representable _ _ p 22 _ 2097153); try assumption; cbn; lia.
Qed.

Lemma narrow_loop_never_exits fuel : forall prec t,
  53 <= prec ->
  mem t (Local sqr_x) = narrow_x -> mem t (Im 0%nat) = narrow_y ->
  prec_of (mem t (Re 1%nat)) = 53 ->
  sqr_loop (-10) 10 can_round_interval fuel 1%nat 0%nat MPC_RNDNN prec t
  = OutOfFuel.
Proof.
  induction fuel as [|fuel IH]; intros prec t Hp Hx Hy Hr; [reflexivity|].
  cbn [sqr_loop bind].
  assert (Hn : 64 <= next_prec prec).
  { unfold next_prec, mpc_ceil_log2.
    assert (6 <= Z.log2_up prec); [|lia].
    change 6 with (Z.log2_up 53). apply Z.log2_up_le_mono. exact Hp. }
  destruct (narrow_turn (next_prec prec) t Hn Hx Hy Hr) as [t' Et].
  rewrite Et.
  destruct (body_again_inputs _ _ _ _ _ _ _ _ _ Et) as (Hx' & Hy' & Hr').
  apply IH; [lia|congruence..].
Qed.

(** C8 (the code violates it).  The loop does not terminate for every finite
    non-zero operand.  In the exponent range [emin = -10], [emax = 10] the
    operand [(1 + 2^-20) - i], of 53 bits, is finite, non-zero and
    well-formed, and its parts have the same exponent, so [mpc_sqr] enters
    the loop.  There [u = x + y] underflows in every turn, so the turn is
    never exact, while [u * v] neither overflows nor has exponent [emin] and
    is a number of the target precision, so [mpfr_can_round] never succeeds:
    whatever the number of turns allowed, the loop, and [mpc_sqr] with it,
    is still running. *)
Theorem sqr_loop_never_exits (fuel : nat) :
  let s := init_state 1%nat 0%nat 53 53 narrow_x narrow_y in
  (wf_mpfr (-10) 10 narrow_x /\ wf_mpfr (-10) 10 narrow_y /\
   is_fin (val_of narrow_x) = true /\ is_fin (val_of narrow_y) = true) /\
  sqr_loop (-10) 10 can_round_interval fuel 1%nat 0%nat MPC_RNDNN 53
    (loop_state 1%nat 0%nat 53 53 narrow_x narrow_y) = OutOfFuel /\
  mpc_sqr (-10) 10 can_round_interval fuel 1%nat 0%nat MPC_RNDNN s = OutOfFuel.
Proof.
  intros s. split; [|split].
  - vm_compute. intuition discriminate.
  - apply narrow_loop_never_exits; [lia|reflexivity..].
  - unfold mpc_sqr, s. exec. unfold sqr_re_part. exec.
    replace (Z.quot 53 2 <? SAFE_ABS (-20 + digits 1048577 - (0 + digits 1)))
      with false by (vm_compute; reflexivity).
    exec. rewrite narrow_loop_never_exits; [reflexivity|lia|reflexivity..].
Qed.

(** * Further properties of the code *)

(** ** [mpfr_fmma] when the products are in range (X2) *)

Lemma digits_shiftl (m : positive) (k : Z) :
  0 <= k -> digits (Z.to_pos (Z.shiftl (Z.pos m) k)) = digits m + k.
Proof.
  intros Hk. pose proof (digits_spec m) as Hs. pose proof (digits_pos m) as Hp.
  pose proof (pow2_pos k Hk) as Pk.
  rewrite Z.shiftl_mul_pow2 by lia.
  apply digits_to_pos; [|lia].
  replace (digits m + k - 1) with ((digits m - 1) + k) by lia.
  rewrite !pow2_split by lia. nia.
Qed.

(** Zero bits appended to the significand do not change the number. *)
Lemma Q_of_val_pad s m e k :
  0 <= k ->
  (Q_of_val (Fin s (Z.to_pos (Z.shiftl (Z.pos m) k)) e) == Q_of_val (Fin s m e))%Q.
Proof.
  intros Hk. pose proof (pow2_pos k Hk) as Pk.
  unfold Q_of_val. rewrite digits_shiftl by assumption.
  rewrite Z.shiftl_mul_pow2, Z2Pos.id by nia.
  rewrite inject_Z_mult, Zpower_Qpower by lia.
  replace (e - digits m) with ((e - (digits m + k)) + k) by lia.
  rewrite (Qpower_plus 2 (e - (digits m + k)) k) by discriminate.
  change (inject_Z 2) with 2%Q. ring.
Qed.

(** [mul_exact] and [add_exact] are the product and the sum. *)
Lemma Q_of_val_mul_exact s m e t n f :
  (Q_of_val (mul_exact (Fin s m e) (Fin t n f))
   == Q_of_val (Fin s m e) * Q_of_val (Fin t n f))%Q.
Proof.
  unfold mul_exact, Q_of_val.
  replace (e + f - (digits m + digits n - digits (m * n)) - digits (m * n))
    with ((e - digits m) + (f - digits n)) by lia.
  rewrite (Qpower_plus 2 (e - digits m) (f - digits n)) by discriminate.
  rewrite Pos2Z.inj_mul, inject_Z_mult.
  destruct s, t; cbn [xorb]; ring.
Qed.

Lemma Q_of_val_add_exact rnd s m e t n f :
  (Q_of_val (add_exact rnd (Fin s m e) (Fin t n f))
   == Q_of_val (Fin s m e) + Q_of_val (Fin t n f))%Q.
Proof.
  unfold add_exact.
  set (la := e - digits m). set (lb := f - digits n). set (l := Z.min la lb).
  set (M := signed s (Z.shiftl (Z.pos m) (la - l))
            + signed t (Z.shiftl (Z.pos n) (lb - l))).
  rewrite (Q_of_val_scaled s m e l), (Q_of_val_scaled t n f l)
    by (unfold l, la, lb; lia).
  fold la lb. rewrite <- Qmult_plus_distr_l, <- inject_Z_plus. fold M.
  destruct (Z.eqb_spec M 0) as [E|E].
  - rewrite E. cbn. ring.
  - unfold Q_of_val.
    replace (l + digits (Z.to_pos (Z.abs M)) - digits (Z.to_pos (Z.abs M)))
      with l by lia.
    rewrite Z2Pos.id by lia.
    destruct (Z.ltb_spec M 0).
    + rewrite Z.abs_neq by lia. rewrite inject_Z_opp. ring.
    + rewrite Z.abs_eq by lia. ring.
Qed.

Lemma var_eqb_sym x y : var_eqb x y = var_eqb y x.
Proof.
  destruct x as [p|p|l], y as [q|q|k]; cbn; try reflexivity.
  - apply Nat.eqb_sym.
  - apply Nat.eqb_sym.
  - destruct l, k; reflexivity.
Qed.

Section FmmaRegular.
Variables emin emax : Z.

Local Arguments Q_of_val : simpl never.
Local Arguments var_eqb : simpl nomatch.

(** Lines 45-48: at the precision [prec (a) + prec (b)] the product of [a]
    and [b] is exact. *)
Lemma mul_val_exact pa pb s m e t n f :
  digits m = pa -> digits n = pb ->
  emin <= get_exp (mul_exact (Fin s m e) (Fin t n f)) <= emax ->
  exists M,
    mul_val emin emax (pa + pb) GMP_RNDN (Fin s m e) (Fin t n f)
    = mk_rounded (Fin (xorb s t) M
                    (get_exp (mul_exact (Fin s m e) (Fin t n f)))) 0 false /\
    (Q_of_val (Fin (xorb s t) M (get_exp (mul_exact (Fin s m e) (Fin t n f))))
     == Q_of_val (Fin s m e) * Q_of_val (Fin t n f))%Q.
Proof.
  intros Hm Hn He. cbn [mul_exact get_exp] in *.
  assert (Hd : digits (m * n) <= pa + pb).
  { apply digits_le. rewrite Pos2Z.inj_mul.
    pose proof (digits_spec m) as Sm. pose proof (digits_spec n) as Sn.
    pose proof (digits_pos m). pose proof (digits_pos n).
    rewrite pow2_split by lia. rewrite <- Hm, <- Hn. nia. }
  eexists. unfold mul_val, mul_exact. rewrite round_fits by assumption.
  split; [reflexivity|].
  rewrite Q_of_val_pad by lia.
  rewrite <- Q_of_val_mul_exact. reflexivity.
Qed.

Lemma round_inf_inv p rnd neg m e :
  is_inf (r_val (round emin emax p rnd (Fin neg m e))) = true ->
  round emin emax p rnd (Fin neg m e) = mk_rounded (Inf neg) (signed neg 1) false /\
  mpfr_overflow emax p rnd neg = mk_rounded (Inf neg) (signed neg 1) false.
Proof.
  unfold round. destruct (round_raw p rnd neg m e) as [[m' e'] i].
  destruct (emax <? e').
  - unfold mpfr_overflow. destruct (is_like_rndz rnd neg); cbn; [discriminate|auto].
  - destruct (e' <? emin); [|cbn; discriminate].
    unfold mpfr_underflow. destruct (is_like_rndz _ neg); cbn; discriminate.
Qed.

Lemma to_ulong_small n : 0 <= n < 2 ^ 64 -> to_ulong n = n.
Proof. intros H. unfold to_ulong. apply Z.mod_small. exact H. Qed.

Ltac fmma_frame :=
  split; [reflexivity|];
  let w := fresh "w" in let Hw := fresh "Hw" in let Hl := fresh "Hl" in
  intros w Hw Hl; apply orb_false_iff in Hl; destruct Hl as [? ?];
  repeat match goal with
         | H : var_eqb w _ = false |- _ => rewrite H; clear H
         end;
  reflexivity.

(** The run of [mpfr_fmma] when neither product overflows or underflows:
    [u] and [v] hold the two products, and [z] receives their rounded sum
    or difference. *)
Lemma fmma_regular_sum z a b c d sign rnd s sa ma ea sb mb eb sc mc ec sd md ed :
  let A := Fin sa ma ea in
  let B := Fin sb mb eb in
  let C := Fin sc mc ec in
  let D := Fin sd md ed in
  let pz := prec_of (mem s z) in
  let u := r_val (mul_val emin emax (prec_of (mem s a) + prec_of (mem s b))
                    GMP_RNDN A B) in
  let v := r_val (mul_val emin emax (prec_of (mem s c) + prec_of (mem s d))
                    GMP_RNDN C D) in
  let sum := add_exact rnd u (if sign <? 0 then neg_val v else v) in
  val_of (mem s a) = A -> val_of (mem s b) = B ->
  val_of (mem s c) = C -> val_of (mem s d) = D ->
  digits ma = prec_of (mem s a) -> digits mb = prec_of (mem s b) ->
  digits mc = prec_of (mem s c) -> digits md = prec_of (mem s d) ->
  1 <= pz ->
  fmma_local z = false -> fmma_local a = false -> fmma_local b = false ->
  fmma_local c = false -> fmma_local d = false ->
  emin <= get_exp (mul_exact A B) <= emax ->
  emin <= get_exp (mul_exact C D) <= emax ->
  emin <= 1 -> 1 <= emax < 2 ^ 63 ->
  exists s',
    mpfr_fmma emin emax z a b c d sign rnd s
    = Returns (r_inex (round emin emax pz rnd sum)) s' /\
    val_of (mem s' z) = r_val (round emin emax pz rnd sum) /\
    (forall w, var_eqb w z = false -> fmma_local w = false -> mem s' w = mem s w).
Proof.
  intros A B C D pz u v sum Ha Hb Hc Hd Da Db Dc Dd Hpz Lz La Lb Lc Ld
    Eab Ecd Hemin Hemax.
  unfold fmma_local in *. subst pz sum u v.
  apply orb_false_iff in Lz, La, Lb, Lc, Ld.
  destruct Lz as [Lzu Lzv], La as [Lau Lav], Lb as [Lbu Lbv],
    Lc as [Lcu Lcv], Ld as [Ldu Ldv].
  destruct (mul_val_exact _ _ sa ma ea sb mb eb Da Db Eab) as (MU & EU & QU).
  destruct (mul_val_exact _ _ sc mc ec sd md ed Dc Dd Ecd) as (MV & EV & QV).
  unfold mpfr_fmma. exec.
  rewrite ?Lau, ?Lav, ?Lbu, ?Lbv, ?Lcu, ?Lcv, ?Ldu, ?Ldv. exec.
  subst A B C D. rewrite EU, EV. cbn [r_val r_inex r_underflow].
  set (EP := get_exp (mul_exact (Fin sa ma ea) (Fin sb mb eb))) in *.
  set (EQ := get_exp (mul_exact (Fin sc mc ec) (Fin sd md ed))) in *.
  set (U := Fin (xorb sa sb) MU EP) in *.
  assert (Luz : var_eqb (Local fmma_u) z = false)
    by (rewrite var_eqb_sym; assumption).
  assert (Lvz : var_eqb (Local fmma_v) z = false)
    by (rewrite var_eqb_sym; assumption).
  assert (Hu : to_ulong emax = emax) by (apply to_ulong_small; lia).
  assert (Hov : (emax <? 1 + emax) = true) by (apply Z.ltb_lt; lia).
  destruct (sign <? 0) eqn:Hs.
  - set (V := Fin (negb (xorb sc sd)) MV EQ).
    exec; rewrite ?var_eqb_refl, ?Lzu, ?Lzv, ?Luz, ?Lvz; exec. fold V.
    change (add_val emin emax (prec_of (mem s z)) rnd U V)
      with (round emin emax (prec_of (mem s z)) rnd (add_exact rnd U V)).
    destruct (add_exact_shape rnd (xorb sa sb) MU EP (negb (xorb sc sd)) MV EQ)
      as [E0|(r & k & E1 & _)]; fold U V in E0 || fold U V in E1.
    + rewrite E0, round_Zero. exec. rewrite ?Luz, ?Lvz. exec.
      eexists. split; [reflexivity|].
      exec. rewrite var_eqb_refl, ?round_Zero. fmma_frame.
    + rewrite E1 in *.
      destruct (is_inf (r_val (round emin emax (prec_of (mem s z)) rnd
                                 (Fin r k (Z.min (EP - digits MU) (EQ - digits MV)
                                           + digits k))))) eqn:Hinf.
      * destruct (round_inf_inv _ _ _ _ _ Hinf) as [Er Eo]. rewrite Er.
        exec. rewrite ?var_eqb_refl. exec.
        replace (val_of_Z (if r then -1 else 1)) with (Fin r 1 1)
          by (destruct r; reflexivity).
        rewrite round_fits by (change (digits 1) with 1; lia).
        exec. rewrite ?var_eqb_refl. exec. rewrite Hu, Hov. exec.
        rewrite Eo. exec. rewrite ?var_eqb_refl.
        eexists. split; [reflexivity|].
        exec. rewrite var_eqb_refl, ?round_Zero. fmma_frame.
      * exec. rewrite ?Luz, ?Lvz. exec.
        eexists. split; [reflexivity|].
        exec. rewrite var_eqb_refl, ?round_Zero. fmma_frame.
  - set (V := Fin (xorb sc sd) MV EQ).
    exec; rewrite ?var_eqb_refl, ?Lzu, ?Lzv, ?Luz, ?Lvz; exec. fold V.
    change (add_val emin emax (prec_of (mem s z)) rnd U V)
      with (round emin emax (prec_of (mem s z)) rnd (add_exact rnd U V)).
    destruct (add_exact_shape rnd (xorb sa sb) MU EP (xorb sc sd) MV EQ)
      as [E0|(r & k & E1 & _)]; fold U V in E0 || fold U V in E1.
    + rewrite E0, round_Zero. exec. rewrite ?Luz, ?Lvz. exec.
      eexists. split; [reflexivity|].
      exec. rewrite var_eqb_refl, ?round_Zero. fmma_frame.
    + rewrite E1 in *.
      destruct (is_inf (r_val (round emin emax (prec_of (mem s z)) rnd
                                 (Fin r k (Z.min (EP - digits MU) (EQ - digits MV)
                                           + digits k))))) eqn:Hinf.
      * destruct (round_inf_inv _ _ _ _ _ Hinf) as [Er Eo]. rewrite Er.
        exec. rewrite ?var_eqb_refl. exec.
        replace (val_of_Z (if r then -1 else 1)) with (Fin r 1 1)
          by (destruct r; reflexivity).
        rewrite round_fits by (change (digits 1) with 1; lia).
        exec. rewrite ?var_eqb_refl. exec. rewrite Hu, Hov. exec.
        rewrite Eo. exec. rewrite ?var_eqb_refl.
        eexists. split; [reflexivity|].
        exec. rewrite var_eqb_refl, ?round_Zero. fmma_frame.
      * exec. rewrite ?Luz, ?Lvz. exec.
        eexists. split; [reflexivity|].
        exec. rewrite var_eqb_refl, ?round_Zero. fmma_frame.
Qed.
(** The run of [mpfr_fmma] when neither product overflows or underflows. *)
Lemma fmma_regular_run z a b c d sign rnd s sa ma ea sb mb eb sc mc ec sd md ed :
  let A := Fin sa ma ea in
  let B := Fin sb mb eb in
  let C := Fin sc mc ec in
  let D := Fin sd md ed in
  let pz := prec_of (mem s z) in
  val_of (mem s a) = A -> val_of (mem s b) = B ->
  val_of (mem s c) = C -> val_of (mem s d) = D ->
  digits ma = prec_of (mem s a) -> digits mb = prec_of (mem s b) ->
  digits mc = prec_of (mem s c) -> digits md = prec_of (mem s d) ->
  1 <= pz ->
  fmma_local z = false -> fmma_local a = false -> fmma_local b = false ->
  fmma_local c = false -> fmma_local d = false ->
  emin <= get_exp (mul_exact A B) <= emax ->
  emin <= get_exp (mul_exact C D) <= emax ->
  emin <= 1 -> 1 <= emax < 2 ^ 63 ->
  exists exact inex s',
    mpfr_fmma emin emax z a b c d sign rnd s = Returns inex s' /\
    (Q_of_val exact
     == Q_of_val A * Q_of_val B
        + (if sign <? 0 then -1 else 1) * (Q_of_val C * Q_of_val D))%Q /\
    val_of (mem s' z) = r_val (round emin emax pz rnd exact) /\
    inex = r_inex (round emin emax pz rnd exact) /\
    (forall w, var_eqb w z = false -> fmma_local w = false -> mem s' w = mem s w).
Proof.
  intros A B C D pz Ha Hb Hc Hd Da Db Dc Dd Hpz Lz La Lb Lc Ld
    Eab Ecd Hemin Hemax.
  destruct (fmma_regular_sum z a b c d sign rnd s sa ma ea sb mb eb sc mc ec
              sd md ed Ha Hb Hc Hd Da Db Dc Dd Hpz Lz La Lb Lc Ld
              Eab Ecd Hemin Hemax) as (s' & Hrun & Hval & Hframe).
  destruct (mul_val_exact _ _ sa ma ea sb mb eb Da Db Eab) as (MU & EU & QU).
  destruct (mul_val_exact _ _ sc mc ec sd md ed Dc Dd Ecd) as (MV & EV & QV).
  fold A B in EU, QU. fold C D in EV, QV.
  cbv zeta in Hrun, Hval. fold A B C D in Hrun, Hval.
  rewrite EU, EV in Hrun, Hval. cbn [r_val] in Hrun, Hval.
  do 3 eexists. split; [exact Hrun|]. split; [|split; [exact Hval|auto]].
  destruct (sign <? 0); cbn [neg_val]; rewrite Q_of_val_add_exact.
  - change (Fin (negb (xorb sc sd)) MV (get_exp (mul_exact C D)))
      with (neg_val (Fin (xorb sc sd) MV (get_exp (mul_exact C D)))).
    rewrite Q_of_val_neg, QU, QV. ring.
  - rewrite QU, QV. ring.
Qed.

End FmmaRegular.

Section Skewed.
Variables emin emax : Z.
Variable can_round : mpfr_val -> Z -> mpfr_rnd_t -> mpfr_rnd_t -> Z -> bool.

Local Arguments Q_of_val : simpl never.

Lemma im_part_keeps_re rop op rnd t :
  exists i t', sqr_im_part emin emax rop op rnd t = Returns i t' /\
               mem t' (Re rop) = mem t (Re rop).
Proof.
  unfold sqr_im_part. exec. split_all; do 2 eexists; (split; [reflexivity|]);
    exec; reflexivity.
Qed.

Ltac use_fmma_regular sx mx ex sy my ey :=
  match goal with
  | |- context [mpfr_fmma ?emin ?emax ?z ?a ?b ?c ?d ?sg ?r ?S] =>
      let H := fresh "Hf" in
      epose proof (fmma_regular_run emin emax z a b c d sg r S
                     sx mx ex sx mx ex sy my ey sy my ey
                     ltac:(exec; reflexivity) ltac:(exec; reflexivity)
                     ltac:(exec; reflexivity) ltac:(exec; reflexivity)
                     ltac:(exec; assumption || congruence)
                     ltac:(exec; assumption || congruence)
                     ltac:(exec; assumption || congruence)
                     ltac:(exec; assumption || congruence)
                     ltac:(exec; rewrite ?Nat.eqb_refl; exec; assumption)
                     ltac:(reflexivity) ltac:(reflexivity) ltac:(reflexivity)
                     ltac:(reflexivity) ltac:(reflexivity)
                     ltac:(assumption) ltac:(assumption)
                     ltac:(assumption) ltac:(assumption)) as H;
      destruct H as (exact & inex & s1 & Hrun & HQ & Hval & Hinex & Hframe);
      rewrite Hrun
  end.

(** X2. [mpc_sqr] on a finite operand whose exponents differ by more than
    half the larger precision (the branch of lines 247-259), when neither
    [x * x] nor [y * y] overflows or underflows: the call returns, for any
    fuel, whether or not [rop == op]; the real part of the result is
    [x^2 - y^2] computed exactly and rounded once to the precision of the
    real part in its rounding mode, and the real flag is the sign of the
    ternary value of that rounding. *)
Theorem sqr_skewed_real_part fuel rop op rnd s sx mx ex sy my ey :
  let X := Fin sx mx ex in
  let Y := Fin sy my ey in
  let pr := prec_of (mem s (Re rop)) in
  val_of (mem s (Re op)) = X -> val_of (mem s (Im op)) = Y ->
  digits mx = prec_of (mem s (Re op)) -> digits my = prec_of (mem s (Im op)) ->
  emin <= ex <= emax -> emin <= ey <= emax ->
  1 <= pr ->
  Z.quot (Z.max (prec_of (mem s (Re op))) (prec_of (mem s (Im op)))) 2
    < SAFE_ABS (ex - ey) ->
  emin <= get_exp (mul_exact X X) <= emax ->
  emin <= get_exp (mul_exact Y Y) <= emax ->
  emin <= 1 -> 1 <= emax < 2 ^ 63 ->
  exists exact inex_re inex_im s',
    mpc_sqr emin emax can_round fuel rop op rnd s
    = Returns (inex_re, inex_im) s' /\
    (Q_of_val exact == Q_of_val X * Q_of_val X - Q_of_val Y * Q_of_val Y)%Q /\
    val_of (mem s' (Re rop)) = r_val (round emin emax pr (MPC_RND_RE rnd) exact) /\
    inex_re = Z.sgn (r_inex (round emin emax pr (MPC_RND_RE rnd) exact)).
Proof.
  intros X Y pr Hx Hy Dx Dy Rx Ry Hpr Hskew Pxx Pyy Hemin Hemax.
  subst X Y pr.
  destruct (mem s (Re op)) as [px vx] eqn:Ere.
  destruct (mem s (Im op)) as [py vy] eqn:Eim.
  cbn in Hx, Hy, Dx, Dy, Hskew. subst vx vy.
  apply Z.ltb_lt in Hskew.
  unfold mpc_sqr. exec.
  destruct (Nat.eqb rop op) eqn:Hro; exec.
  - apply Nat.eqb_eq in Hro. subst rop. rewrite Ere in *. cbn in Hpr.
    rewrite (round_exact emin emax px GMP_RNDN (Fin sx mx ex))
      by (split; [congruence|assumption]).
    exec. unfold sqr_re_part. exec. rewrite Hskew.
    use_fmma_regular sx mx ex sy my ey.
    destruct (im_part_keeps_re op op rnd s1) as (i & t' & Him & Hre).
    rewrite Him. exists exact. do 3 eexists. split; [reflexivity|].
    split; [rewrite HQ; change (-1 <? 0) with true; cbn beta iota; ring|].
    rewrite Hre, Hval, Hinex. exec. rewrite ?Nat.eqb_refl. exec. auto.
  - exec.
    unfold sqr_re_part. exec. rewrite Hskew.
    use_fmma_regular sx mx ex sy my ey.
    destruct (im_part_keeps_re rop op rnd s1) as (i & t' & Him & Hre).
    rewrite Him. exists exact. do 3 eexists. split; [reflexivity|].
    split; [rewrite HQ; change (-1 <? 0) with true; cbn beta iota; ring|].
    rewrite Hre, Hval, Hinex. exec. rewrite ?Nat.eqb_refl. exec. auto.
Qed.
End Skewed.

(** The operand [3 + 7 * 2^-43 i]: the exponents differ by 42. *)
Lemma sqr_skewed_real_part_witness :
  let x := mk_num 53 false 3 0 in
  let y := mk_num 53 false 7 (-43) in
  let s := init_state 1%nat 0%nat 53 53 x y in
  let X := Fin false 6755399441055744 2 in
  let Y := Fin false 7881299347898368 (-40) in
  (val_of (mem s (Re 0%nat)) = X /\ val_of (mem s (Im 0%nat)) = Y /\
   digits 6755399441055744 = prec_of (mem s (Re 0%nat)) /\
   digits 7881299347898368 = prec_of (mem s (Im 0%nat)) /\
   default_emin <= 2 <= default_emax /\ default_emin <= -40 <= default_emax /\
   1 <= prec_of (mem s (Re 1%nat)) /\
   Z.quot (Z.max (prec_of (mem s (Re 0%nat))) (prec_of (mem s (Im 0%nat)))) 2
     < SAFE_ABS (2 - -40) /\
   default_emin <= get_exp (mul_exact X X) <= default_emax /\
   default_emin <= get_exp (mul_exact Y Y) <= default_emax /\
   default_emin <= 1 /\ 1 <= default_emax < 2 ^ 63) /\
  exists exact inex_re inex_im s',
    mpc_sqr default_emin default_emax can_round_interval 0%nat 1%nat 0%nat
      MPC_RNDNN s = Returns (inex_re, inex_im) s' /\
    (Q_of_val exact == Q_of_val X * Q_of_val X - Q_of_val Y * Q_of_val Y)%Q /\
    val_of (mem s' (Re 1%nat))
    = r_val (round default_emin default_emax (prec_of (mem s (Re 1%nat)))
               (MPC_RND_RE MPC_RNDNN) exact) /\
    inex_re = Z.sgn (r_inex (round default_emin default_emax
                               (prec_of (mem s (Re 1%nat)))
                               (MPC_RND_RE MPC_RNDNN) exact)).
Proof.
  intros x y s X Y.
  assert (H1 : val_of (mem s (Re 0%nat)) = X) by reflexivity.
  assert (H2 : val_of (mem s (Im 0%nat)) = Y) by reflexivity.
  assert (H3 : digits 6755399441055744 = prec_of (mem s (Re 0%nat)))
    by reflexivity.
  assert (H4 : digits 7881299347898368 = prec_of (mem s (Im 0%nat)))
    by reflexivity.
  assert (H5 : default_emin <= 2 <= default_emax)
    by (vm_compute; split; discriminate).
  assert (H6 : default_emin <= -40 <= default_emax)
    by (vm_compute; split; discriminate).
  assert (H7 : 1 <= prec_of (mem s (Re 1%nat))) by (vm_compute; discriminate).
  assert (H8 : Z.quot (Z.max (prec_of (mem s (Re 0%nat)))
                             (prec_of (mem s (Im 0%nat)))) 2
               < SAFE_ABS (2 - -40)) by (vm_compute; reflexivity).
  assert (H9 : default_emin <= get_exp (mul_exact X X) <= default_emax)
    by (vm_compute; split; discriminate).
  assert (H10 : default_emin <= get_exp (mul_exact Y Y) <= default_emax)
    by (vm_compute; split; discriminate).
  assert (H11 : default_emin <= 1) by (vm_compute; discriminate).
  assert (H12 : 1 <= default_emax < 2 ^ 63)
    by (vm_compute; split; [discriminate|reflexivity]).
  split; [tauto|].
  exact (sqr_skewed_real_part default_emin default_emax can_round_interval
           0%nat 1%nat 0%nat MPC_RNDNN s false 6755399441055744 2
           false 7881299347898368 (-40)
           H1 H2 H3 H4 H5 H6 H7 H8 H9 H10 H11 H12).
Defined.

(** ** What [mpc_sqr] writes (X3, X4) *)

Section Frame.
Variables emin emax : Z.
Variable can_round : mpfr_val -> Z -> mpfr_rnd_t -> mpfr_rnd_t -> Z -> bool.

Lemma re_part_frame fuel rop op rnd prec s px sx mx ex py sy my ey a s' :
  mem s (Local sqr_x) = mk_mpfr px (Fin sx mx ex) ->
  mem s (Im op) = mk_mpfr py (Fin sy my ey) ->
  emin <= ex <= emax -> emin <= ey <= emax ->
  sqr_re_part emin emax can_round fuel rop op rnd prec s = Returns a s' ->
  mem s' (Local sqr_x) = mem s (Local sqr_x) /\
  mem s' (Im op) = mem s (Im op) /\
  prec_of (mem s' (Re rop)) = prec_of (mem s (Re rop)) /\
  frame rop s s'.
Proof.
  intros Hx Hy Rx Ry Hrun.
  pose proof (re_part_rel emin emax can_round op rop rop
                (mk_mpfr px (Fin sx mx ex)) (mk_mpfr py (Fin sy my ey))
                (prec_of (mem s (Re rop))) fuel rnd prec (mem s (Re op))
                px sx mx ex py sy my ey s s eq_refl eq_refl Rx Ry
                eq_refl eq_refl
                ltac:(unfold inputs_at; auto) ltac:(unfold inputs_at; auto)
                eq_refl) as H.
  rewrite Hrun in H. cbn in H.
  destruct H as ((_ & _ & (H1 & H2 & H3) & _ & F & _) & _).
  rewrite Hx, Hy. auto.
Qed.

Lemma im_part_frame rop op rnd t i t' :
  sqr_im_part emin emax rop op rnd t = Returns i t' ->
  (forall w, var_eqb w (Im rop) = false -> mem t' w = mem t w) /\
  prec_of (mem t' (Im rop)) = prec_of (mem t (Im rop)).
Proof.
  unfold sqr_im_part. exec.
  split_all; intros E; injection E as <- <-; exec; rewrite ?Nat.eqb_refl; exec;
    (split; [|auto]); intros w H1; rewrite ?H1; reflexivity.
Qed.

(** X3. [mpc_sqr] writes to its output only: when it returns, every
    variable other than the two parts of [rop] and the local variables
    holds what it held before, and the precisions of the two parts of
    [rop] are unchanged.  In particular, with [rop <> op] the operand is
    intact, although [mpfr_fmma] changes its exponents for a while (lines
    73-76) and puts them back (lines 158-161); that needs the exponents of
    the operand to lie in the exponent range. *)
Theorem sqr_frame fuel rop op rnd s a s' :
  wf_mpfr emin emax (mem s (Re op)) -> wf_mpfr emin emax (mem s (Im op)) ->
  mpc_sqr emin emax can_round fuel rop op rnd s = Returns a s' ->
  (forall w, is_local w = false ->
             var_eqb w (Re rop) = false -> var_eqb w (Im rop) = false ->
             mem s' w = mem s w) /\
  prec_of (mem s' (Re rop)) = prec_of (mem s (Re rop)) /\
  prec_of (mem s' (Im rop)) = prec_of (mem s (Im rop)).
Proof.
  intros [Pre Wre] [Pim Wim].
  destruct (mem s (Re op)) as [pre vre] eqn:Hre.
  destruct (mem s (Im op)) as [pim vim] eqn:Him.
  cbn in Pre, Pim, Wre, Wim.
  unfold mpc_sqr. exec.
  destruct (is_number vre && is_number vim) eqn:Hnum; exec.
  2:{ unfold sqr_special. exec. split_all; intros E; injection E as <- <-; exec;
      rewrite ?Nat.eqb_refl; exec; (split; [|auto]);
      intros w Hl H1 H2; rewrite ?H1, ?H2; reflexivity. }
  assert (Hdeg : forall c : M (Z * Z),
            (forall t b t', c t = Returns b t' ->
               (forall w, var_eqb w (Re rop) = false -> var_eqb w (Im rop) = false ->
                          mem t' w = mem t w) /\
               prec_of (mem t' (Re rop)) = prec_of (mem t (Re rop)) /\
               prec_of (mem t' (Im rop)) = prec_of (mem t (Im rop))) ->
            c s = Returns a s' ->
            (forall w, is_local w = false ->
                       var_eqb w (Re rop) = false -> var_eqb w (Im rop) = false ->
                       mem s' w = mem s w) /\
            prec_of (mem s' (Re rop)) = prec_of (mem s (Re rop)) /\
            prec_of (mem s' (Im rop)) = prec_of (mem s (Im rop))).
  { intros c Hc E. destruct (Hc _ _ _ E) as (F & P1 & P2). auto. }
  destruct (is_zero vim) eqn:Zim.
  { apply Hdeg. intros t b t'. unfold sqr_real. exec.
    split_all; intros E; injection E as <- <-; exec;
      rewrite ?Nat.eqb_refl; exec; (split; [|auto]);
      intros w H1 H2; rewrite ?H1, ?H2; reflexivity. }
  exec. destruct (is_zero vre) eqn:Zre.
  { apply Hdeg. intros t b t'. unfold sqr_imag. exec.
    split_all; intros E; injection E as <- <-; exec;
      rewrite ?Nat.eqb_refl; exec; (split; [|auto]);
      intros w H1 H2; rewrite ?H1, ?H2; reflexivity. }
  destruct vre as [| | |sx mx ex]; try discriminate.
  destruct vim as [| | |sy my ey]; try discriminate.
  clear Hdeg Hnum Zim Zre.
  assert (Hgen : forall S1 prec,
            mem S1 (Local sqr_x) = mk_mpfr pre (Fin sx mx ex) ->
            mem S1 (Im op) = mk_mpfr pim (Fin sy my ey) ->
            (forall w, is_local w = false -> mem S1 w = mem s w) ->
            match sqr_re_part emin emax can_round fuel rop op rnd prec S1 with
            | Returns inex_re t1 =>
                match sqr_im_part emin emax rop op rnd t1 with
                | Returns inex_im t2 => Returns (MPC_INEX inex_re inex_im) t2
                | AssertionFailed => AssertionFailed
                | OutOfFuel => OutOfFuel
                end
            | AssertionFailed => AssertionFailed
            | OutOfFuel => OutOfFuel
            end = Returns a s' ->
            (forall w, is_local w = false ->
                       var_eqb w (Re rop) = false -> var_eqb w (Im rop) = false ->
                       mem s' w = mem s w) /\
            prec_of (mem s' (Re rop)) = prec_of (mem s (Re rop)) /\
            prec_of (mem s' (Im rop)) = prec_of (mem s (Im rop))).
  { intros S1 prec Hx Hy HS.
    destruct (sqr_re_part emin emax can_round fuel rop op rnd prec S1)
      as [inex_re t1| |] eqn:Er; try discriminate.
    destruct (sqr_im_part emin emax rop op rnd t1) as [inex_im t2| |] eqn:Ei;
      try discriminate.
    intros E. injection E as <- <-.
    destruct (re_part_frame _ _ _ _ _ _ _ _ _ _ _ _ _ _ _ _ Hx Hy
                (proj2 Wre) (proj2 Wim) Er) as (_ & _ & P1 & F1).
    destruct (im_part_frame _ _ _ _ _ _ Ei) as (F2 & P2).
    split; [|split].
    - intros w Hl H1 H2. rewrite F2, F1, HS by assumption. reflexivity.
    - rewrite F2 by reflexivity. rewrite P1. f_equal. apply HS. reflexivity.
    - rewrite P2. rewrite F1, HS by reflexivity. reflexivity. }
  destruct (Nat.eqb rop op) eqn:Hro; exec.
  - rewrite (round_exact emin emax pre GMP_RNDN (Fin sx mx ex)) by exact Wre.
    exec. apply Hgen; exec; try reflexivity.
    intros w Hl. destruct w; try discriminate; reflexivity.
  - apply Hgen; exec; try reflexivity.
    intros w Hl. destruct w; try discriminate; reflexivity.
Qed.
End Frame.

(** The operand [3 + 0.875 i] squared into another object. *)
Lemma sqr_frame_witness :
  let x := mk_num 53 false 3 0 in
  let y := mk_num 53 false 7 (-3) in
  let s := init_state 1%nat 0%nat 53 53 x y in
  exists a s',
    (wf_mpfr default_emin default_emax (mem s (Re 0%nat)) /\
     wf_mpfr default_emin default_emax (mem s (Im 0%nat)) /\
     mpc_sqr default_emin default_emax can_round_interval 3%nat 1%nat 0%nat
       MPC_RNDNN s = Returns a s') /\
    (forall w, is_local w = false ->
               var_eqb w (Re 1%nat) = false -> var_eqb w (Im 1%nat) = false ->
               mem s' w = mem s w) /\
    prec_of (mem s' (Re 1%nat)) = prec_of (mem s (Re 1%nat)) /\
    prec_of (mem s' (Im 1%nat)) = prec_of (mem s (Im 1%nat)).
Proof.
  intros x y s.
  destruct (mpc_sqr default_emin default_emax can_round_interval 3%nat 1%nat
              0%nat MPC_RNDNN s) as [a s'| |] eqn:Hrun;
    try (vm_compute in Hrun; discriminate Hrun).
  assert (H1 : wf_mpfr default_emin default_emax (mem s (Re 0%nat)))
    by (vm_compute; intuition discriminate).
  assert (H2 : wf_mpfr default_emin default_emax (mem s (Im 0%nat)))
    by (vm_compute; intuition discriminate).
  exists a, s'. split; [repeat (split; [assumption|]); reflexivity|].
  exact (sqr_frame default_emin default_emax can_round_interval 3%nat 1%nat
           0%nat MPC_RNDNN s a s' H1 H2 Hrun).
Defined.

Lemma flag_kept_ret {A} (a : A) : flag_kept (ret a).
Proof. intros s b s' E. injection E as <- <-. auto. Qed.

Lemma flag_kept_bind {A B} (c : M A) (k : A -> M B) :
  flag_kept c -> (forall a, flag_kept (k a)) -> flag_kept (bind c k).
Proof.
  intros Hc Hk s b s' E Hf. unfold bind in E.
  destruct (c s) as [a t| |] eqn:Ec; try discriminate.
  eapply Hk; [exact E|]. eapply Hc; eauto.
Qed.

Lemma flag_kept_read x : flag_kept (read x).
Proof. intros s a s' E. injection E as <- <-. auto. Qed.

Lemma flag_kept_read_val x : flag_kept (read_val x).
Proof. intros s a s' E. injection E as <- <-. auto. Qed.

Lemma flag_kept_write x c : flag_kept (write x c).
Proof. intros s a s' E. injection E as <- <-. auto. Qed.

Lemma flag_kept_write_val x v : flag_kept (write_val x v).
Proof. intros s a s' E. injection E as <- <-. auto. Qed.

Lemma flag_kept_raise b : flag_kept (raise_underflow b).
Proof. intros s a s' E Hf. injection E as <- <-. cbn. rewrite Hf. reflexivity. Qed.

Lemma flag_kept_assert b : flag_kept (MPC_ASSERT b).
Proof. intros s a s' E. unfold MPC_ASSERT in E. destruct b; [|discriminate]. injection E as <- <-. auto. Qed.

Ltac flag_step :=
  first
    [ apply flag_kept_ret
    | apply flag_kept_read
    | apply flag_kept_read_val
    | apply flag_kept_write
    | apply flag_kept_write_val
    | apply flag_kept_raise
    | apply flag_kept_assert
    | apply flag_kept_bind; [|intros ?]
    | progress cbv beta iota zeta
    | match goal with
      | |- flag_kept (if ?b then _ else _) => destruct b
      | |- flag_kept (match ?v with _ => _ end) => destruct v
      end ].

Section Flag.
Variables emin emax : Z.
Variable can_round : mpfr_val -> Z -> mpfr_rnd_t -> mpfr_rnd_t -> Z -> bool.

Ltac flag_prims :=
  unfold mpfr_init, mpfr_init2, mpfr_set_prec, mpfr_clear, mpfr_get_prec,
    mpfr_nan_p, mpfr_inf_p, mpfr_zero_p, mpfr_number_p, mpfr_signbit, mpfr_sgn,
    mpfr_sign, mpfr_set_nan, mpfr_set_inf, mpfr_get_exp, mpfr_set_exp,
    mpfr_set_ui, mpfr_set_si, mpfr_set_ui_2exp, mpfr_mul_2exp, mpfr_mul_2ui, mpfr_div_2ui,
    mpfr_set, mpfr_neg, mpfr_mul, mpfr_sqr, mpfr_add, mpfr_sub, mpfr_can_round,
    MPC_PREC_RE, MPC_PREC_IM, MPC_MAX_PREC, ROUND_AWAY, mpc_fin_p, mpc_conj,
    mpfr_get_prec, store.

Ltac flag_auto := flag_prims; repeat flag_step.

Lemma fmma_keeps_flag z a b c d sign rnd :
  flag_kept (mpfr_fmma emin emax z a b c d sign rnd).
Proof.
  unfold mpfr_fmma, fmma_rescue, fmma_overflow, fmma_underflow. flag_auto.
Qed.

Lemma body_keeps_flag rop op rnd prec :
  flag_kept (sqr_body emin emax can_round rop op rnd prec).
Proof.
  unfold sqr_body, sqr_ok, sqr_if_ok. flag_auto.
Qed.

Lemma loop_keeps_flag fuel rop op rnd : forall prec,
  flag_kept (sqr_loop emin emax can_round fuel rop op rnd prec).
Proof.
  induction fuel as [|fuel IH]; intros prec.
  - intros s a s' E. discriminate E.
  - cbn [sqr_loop]. apply flag_kept_bind; [apply body_keeps_flag|].
    intros [i|]; [apply flag_kept_ret|apply IH].
Qed.

Lemma im_part_keeps_flag rop op rnd :
  flag_kept (sqr_im_part emin emax rop op rnd).
Proof.
  intros s a s' E Hf. revert E. unfold sqr_im_part. exec.
  split_all; intros E; injection E as <- <-; reflexivity.
Qed.

(** X4. [mpc_sqr] never lowers the underflow flag: the flag is cleared at
    line 363 to watch the multiplication [x * y], and put back at lines
    369-370 when it was set; no other step clears it.  So when the flag is
    set before the call it is set after it. *)
Theorem sqr_keeps_underflow fuel rop op rnd s a s' :
  mpc_sqr emin emax can_round fuel rop op rnd s = Returns a s' ->
  underflow_flag s = true -> underflow_flag s' = true.
Proof.
  revert s a s'. change (flag_kept (mpc_sqr emin emax can_round fuel rop op rnd)).
  unfold mpc_sqr, sqr_special, sqr_real, sqr_imag, sqr_re_part.
  flag_prims.
  repeat first
    [ lazymatch goal with
      | |- flag_kept (mpfr_fmma _ _ _ _ _ _ _ _ _) => apply fmma_keeps_flag
      | |- flag_kept (sqr_loop _ _ _ _ _ _ _ _) => apply loop_keeps_flag
      | |- flag_kept (sqr_im_part _ _ _ _ _) => apply im_part_keeps_flag
      end
    | flag_step ].
Qed.
End Flag.

(** The same call with the underflow flag set. *)
Lemma sqr_keeps_underflow_witness :
  let x := mk_num 53 false 3 0 in
  let y := mk_num 53 false 7 (-3) in
  let s := mk_state (mem (init_state 1%nat 0%nat 53 53 x y)) true in
  exists a s',
    (mpc_sqr default_emin default_emax can_round_interval 3%nat 1%nat 0%nat
       MPC_RNDNN s = Returns a s' /\ underflow_flag s = true) /\
    underflow_flag s' = true.
Proof.
  intros x y s.
  destruct (mpc_sqr default_emin default_emax can_round_interval 3%nat 1%nat
              0%nat MPC_RNDNN s) as [a s'| |] eqn:Hrun;
    try (vm_compute in Hrun; discriminate Hrun).
  assert (H1 : underflow_flag s = true) by reflexivity.
  exists a, s'. split; [split; [reflexivity|assumption]|].
  exact (sqr_keeps_underflow default_emin default_emax can_round_interval
           3%nat 1%nat 0%nat MPC_RNDNN s a s' Hrun H1).
Defined.

(** ** The sign of the imaginary part (X5) *)

Section ImagSign.
Variables emin emax : Z.
Variable can_round : mpfr_val -> Z -> mpfr_rnd_t -> mpfr_rnd_t -> Z -> bool.

Lemma mul_val_signbit p rnd s m e t n f :
  signbit (r_val (mul_val emin emax p rnd (Fin s m e) (Fin t n f))) = xorb s t.
Proof. unfold mul_val. rewrite round_signbit. reflexivity. Qed.

Lemma double_val_signbit p rnd v :
  signbit (r_val (double_val emax p rnd v)) = signbit v.
Proof.
  destruct v as [| | |s m e]; try reflexivity.
  unfold double_val. destruct (emax <? e + 1); [|reflexivity].
  unfold mpfr_overflow. destruct (is_like_rndz rnd s); reflexivity.
Qed.

(** X5. Whenever [mpc_sqr] returns and the imaginary part of the result is
    not NaN, its sign bit is the exclusive or of the sign bits of the two
    parts of the operand, the sign of [2 x y]: for the signed zeros of a
    real or purely imaginary operand, for results rounded to zero or to an
    infinity, and for infinite operands alike. *)
Theorem sqr_imag_sign fuel rop op rnd s a s' :
  wf_mpfr emin emax (mem s (Re op)) -> wf_mpfr emin emax (mem s (Im op)) ->
  mpc_sqr emin emax can_round fuel rop op rnd s = Returns a s' ->
  is_nan (val_of (mem s' (Im rop))) = false ->
  signbit (val_of (mem s' (Im rop)))
  = xorb (signbit (val_of (mem s (Re op)))) (signbit (val_of (mem s (Im op)))).
Proof.
  intros Wre Wim Hrun.
  destruct (is_fin (val_of (mem s (Re op))) && is_fin (val_of (mem s (Im op))))
    eqn:Hfin.
  - apply andb_true_iff in Hfin. destruct Hfin as [Fre Fim].
    pose proof (sqr_imag_part_run emin emax can_round fuel rop op rnd s
                  Wre Wim Fre Fim) as H.
    rewrite Hrun in H. destruct a as [inex_re inex_im].
    unfold imag_part_post in H.
    destruct (val_of (mem s (Re op))) as [| | |sx mx ex]; try discriminate.
    destruct (val_of (mem s (Im op))) as [| | |sy my ey]; try discriminate.
    intros _. cbn [signbit].
    destruct (r_underflow _) in H.
    + destruct H as [-> _]. apply mul_val_signbit.
    + destruct H as [-> _]. rewrite double_val_signbit. apply mul_val_signbit.
  - revert Hrun.
    destruct (mem s (Re op)) as [pre vre] eqn:Hre.
    destruct (mem s (Im op)) as [pim vim] eqn:Him.
    cbn in Hfin. clear Wre Wim.
    unfold mpc_sqr. exec.
    destruct vre as [| sx | sx |sx mx ex], vim as [| sy | sy |sy my ey];
      try discriminate Hfin; exec;
      unfold sqr_special, sqr_real, sqr_imag; exec;
      split_all; intros E; injection E as <- <-; exec;
      rewrite ?Nat.eqb_refl; exec; try discriminate;
      intros _; destruct sx, sy; (reflexivity || discriminate).
Qed.
End ImagSign.

(** The operand [-3 + 0.875 i]. *)
Lemma sqr_imag_sign_witness :
  let x := mk_num 53 true 3 0 in
  let y := mk_num 53 false 7 (-3) in
  let s := init_state 1%nat 0%nat 53 53 x y in
  exists a s',
    (wf_mpfr default_emin default_emax (mem s (Re 0%nat)) /\
     wf_mpfr default_emin default_emax (mem s (Im 0%nat)) /\
     mpc_sqr default_emin default_emax can_round_interval 3%nat 1%nat 0%nat
       MPC_RNDNN s = Returns a s' /\
     is_nan (val_of (mem s' (Im 1%nat))) = false) /\
    signbit (val_of (mem s' (Im 1%nat)))
    = xorb (signbit (val_of (mem s (Re 0%nat))))
           (signbit (val_of (mem s (Im 0%nat)))).
Proof.
  intros x y s.
  destruct (mpc_sqr default_emin default_emax can_round_interval 3%nat 1%nat
              0%nat MPC_RNDNN s) as [a s'| |] eqn:Hrun;
    try (vm_compute in Hrun; discriminate Hrun).
  assert (H1 : wf_mpfr default_emin default_emax (mem s (Re 0%nat)))
    by (vm_compute; intuition discriminate).
  assert (H2 : wf_mpfr default_emin default_emax (mem s (Im 0%nat)))
    by (vm_compute; intuition discriminate).
  assert (H3 : is_nan (val_of (mem s' (Im 1%nat))) = false).
  { pose proof (f_equal (result_of 1%nat) Hrun) as H. cbn [result_of] in H.
    match type of H with ?l = _ =>
      let v := eval vm_compute in l in change l with v in H end.
    injection H as _ _ Him. rewrite <- Him. reflexivity. }
  exists a, s'.
  split; [split; [exact H1|split; [exact H2|split; [reflexivity|exact H3]]]|].
  exact (sqr_imag_sign default_emin default_emax can_round_interval 3%nat
           1%nat 0%nat MPC_RNDNN s a s' H1 H2 Hrun H3).
Defined.

(** ** Turns of the loop that decide at once (X6, X7) *)

Section PositiveOverflow.
Variables emin emax : Z.
Variable can_round : mpfr_val -> Z -> mpfr_rnd_t -> mpfr_rnd_t -> Z -> bool.

(** X6. A turn of the loop in which [u * v] is positive and overflows when
    rounded up (lines 299-303): the loop stops in this turn and the real
    part of the result is the overflow value of the target rounding mode,
    [+Inf] with a positive flag or the largest number with a negative flag. *)
Theorem sqr_positive_overflow fuel rop op rnd prec s :
  let x := val_of (mem s (Local sqr_x)) in
  let y := val_of (mem s (Im op)) in
  let p := next_prec prec in
  let u := r_val (karatsuba_u emin emax p x y) in
  let v := r_val (karatsuba_v emin emax p x y) in
  let uv := r_val (karatsuba_uv emin emax p GMP_RNDU x y) in
  let pr := prec_of (mem s (Re rop)) in
  let over := mpfr_overflow emax pr (MPC_RND_RE rnd) false in
  0 < sgn u * sgn v ->
  is_inf uv = true ->
  MPFR_EXP_MIN + 3 < emin -> 1 <= pr ->
  exists s',
    sqr_loop emin emax can_round (S fuel) rop op rnd prec s
    = Returns (r_inex over) s' /\
    val_of (mem s' (Re rop)) = r_val over.
Proof.
  intros x y p u v uv pr over Hpos Hinf Hemin Hpr.
  subst over pr uv u v. unfold karatsuba_uv, karatsuba_u, karatsuba_v in *.
  set (U := add_val emin emax p MPFR_RNDA x y) in *.
  set (V := sub_val emin emax p MPFR_RNDA x y) in *.
  cbn [sqr_loop]. fold p. unfold sqr_body. exec. fold x y. fold U V.
  replace ((sgn (r_val U) =? 0) || (sgn (r_val V) =? 0)) with false
    by (symmetry; apply orb_false_iff; split; apply Z.eqb_neq; nia).
  apply Z.ltb_lt in Hpos. rewrite Hpos. exec.
  destruct (r_val (mul_val emin emax p GMP_RNDU (r_val U) (r_val V)))
    as [|su| |] eqn:Euv; try discriminate.
  cbn [get_exp].
  replace (MPFR_EXP_MIN + 3 =? emin) with false by (symmetry; apply Z.eqb_neq; lia).
  exec.
  assert (Hr : round emin emax (prec_of (mem s (Re rop))) (fst rnd)
                 (Fin false 1 (1 + emax))
               = mpfr_overflow emax (prec_of (mem s (Re rop))) (fst rnd) false).
  { unfold round. rewrite round_raw_small by (change (digits 1) with 1; lia).
    replace (emax <? 1 + emax) with true by (symmetry; apply Z.ltb_lt; lia).
    reflexivity. }
  rewrite Hr. eexists. split; [reflexivity|].
  exec. rewrite ?Nat.eqb_refl. reflexivity.
Qed.
End PositiveOverflow.

(** The operand [(3 + 0.25 i) * 2^(emax - 10)]. *)
Lemma sqr_positive_overflow_witness :
  let x := mk_num 53 false 3 (default_emax - 10) in
  let y := mk_num 53 false 1 (default_emax - 12) in
  let s := loop_state 1%nat 0%nat 53 53 x y in
  let p := next_prec 53 in
  let u := r_val (karatsuba_u default_emin default_emax p (val_of x) (val_of y)) in
  let v := r_val (karatsuba_v default_emin default_emax p (val_of x) (val_of y)) in
  let uv := r_val (karatsuba_uv default_emin default_emax p GMP_RNDU
                     (val_of x) (val_of y)) in
  let over := mpfr_overflow default_emax 53 MPFR_RNDN false in
  (0 < sgn u * sgn v /\ is_inf uv = true /\
   MPFR_EXP_MIN + 3 < default_emin /\ 1 <= prec_of (mem s (Re 1%nat))) /\
  exists s',
    sqr_loop default_emin default_emax can_round_interval 1%nat 1%nat 0%nat
      MPC_RNDNN 53 s = Returns (r_inex over) s' /\
    val_of (mem s' (Re 1%nat)) = r_val over.
Proof.
  intros x y s p u v uv over.
  assert (H1 : 0 < sgn u * sgn v) by (vm_compute; reflexivity).
  assert (H2 : is_inf uv = true) by (vm_compute; reflexivity).
  assert (H3 : MPFR_EXP_MIN + 3 < default_emin) by (vm_compute; reflexivity).
  assert (H4 : 1 <= prec_of (mem s (Re 1%nat))) by (vm_compute; discriminate).
  split; [tauto|].
  exact (sqr_positive_overflow default_emin default_emax can_round_interval
           0%nat 1%nat 0%nat MPC_RNDNN 53 s H1 H2 H3 H4).
Defined.

Lemma signed_eq_0 s i : signed s i = 0 -> i = 0.
Proof. destruct s; cbn; lia. Qed.

Lemma Q_of_val_shiftr s m e k :
  0 <= k -> k < digits m -> Z.pos m mod 2 ^ k = 0 ->
  (Q_of_val (Fin s (Z.to_pos (Z.shiftr (Z.pos m) k)) e) == Q_of_val (Fin s m e))%Q.
Proof.
  intros Hk Hd Hr.
  pose proof (pow2_pos k Hk) as Pk.
  pose proof (digits_spec m) as Sm.
  assert (Hq : Z.pos m = Z.shiftr (Z.pos m) k * 2 ^ k).
  { rewrite Z.shiftr_div_pow2 by lia.
    pose proof (Z.div_mod (Z.pos m) (2 ^ k) ltac:(lia)). lia. }
  set (q := Z.shiftr (Z.pos m) k) in *.
  assert (Pq : 0 < q) by nia.
  assert (Dq : digits (Z.to_pos q) = digits m - k).
  { apply digits_to_pos; [|lia].
    assert (E1 : 2 ^ (digits m - 1) = 2 ^ (digits m - k - 1) * 2 ^ k).
    { rewrite <- pow2_split by lia. f_equal. lia. }
    assert (E2 : 2 ^ digits m = 2 ^ (digits m - k) * 2 ^ k).
    { rewrite <- pow2_split by lia. f_equal. lia. }
    split; nia. }
  unfold Q_of_val. rewrite Dq, Z2Pos.id by lia.
  rewrite Hq at 1. rewrite inject_Z_mult, Zpower_Qpower by lia.
  replace (e - (digits m - k)) with ((e - digits m) + k) by lia.
  rewrite (Qpower_plus 2 (e - digits m) k) by discriminate.
  change (inject_Z 2) with 2%Q. ring.
Qed.

Section ExactRound.
Variables emin emax : Z.

(** A rounding with ternary value 0 does not change the number. *)
Lemma round_inex_zero p rnd v :
  1 <= p -> r_inex (round emin emax p rnd v) = 0 ->
  (Q_of_val (r_val (round emin emax p rnd v)) == Q_of_val v)%Q.
Proof.
  intros Hp. destruct v as [| | |s m e]; try reflexivity.
  unfold round, round_raw.
  destruct (Z.leb_spec (digits m) p) as [Hd|Hd].
  - destruct (emax <? e).
    { unfold mpfr_overflow. destruct (is_like_rndz rnd s), s; cbn; discriminate. }
    destruct (e <? emin).
    { unfold mpfr_underflow. destruct (is_like_rndz _ s), s; cbn; discriminate. }
    cbn. intros _. apply Q_of_val_pad. lia.
  - set (k := digits m - p).
    destruct (Z.eqb_spec (Z.pos m mod 2 ^ k) 0) as [Hr|Hr].
    + destruct (emax <? e).
      { unfold mpfr_overflow. destruct (is_like_rndz rnd s), s; cbn; discriminate. }
      destruct (e <? emin).
      { unfold mpfr_underflow. destruct (is_like_rndz _ s), s; cbn; discriminate. }
      cbn. intros _. apply Q_of_val_shiftr; [unfold k; lia|unfold k; lia|exact Hr].
    + destruct (round_away rnd s _ _ _).
      * destruct (Z.shiftr (Z.pos m) k + 1 =? 2 ^ p).
        -- destruct (emax <? e + 1).
           { unfold mpfr_overflow. destruct (is_like_rndz rnd s), s; cbn; discriminate. }
           destruct (e + 1 <? emin).
           { unfold mpfr_underflow. destruct (is_like_rndz _ s), s; cbn; discriminate. }
           cbn. destruct s; discriminate.
        -- destruct (emax <? e).
           { unfold mpfr_overflow. destruct (is_like_rndz rnd s), s; cbn; discriminate. }
           destruct (e <? emin).
           { unfold mpfr_underflow. destruct (is_like_rndz _ s), s; cbn; discriminate. }
           cbn. destruct s; discriminate.
      * destruct (emax <? e).
        { unfold mpfr_overflow. destruct (is_like_rndz rnd s), s; cbn; discriminate. }
        destruct (e <? emin).
        { unfold mpfr_underflow. destruct (is_like_rndz _ s), s; cbn; discriminate. }
        cbn. destruct s; discriminate.
Qed.

End ExactRound.

Lemma Q_of_val_mul_exact_all a b :
  (Q_of_val (mul_exact a b) == Q_of_val a * Q_of_val b)%Q.
Proof.
  destruct a as [| | |s m e], b as [| | |t n f];
    try apply Q_of_val_mul_exact; unfold mul_exact, Q_of_val; ring.
Qed.

Section ExactTurn.
Variables emin emax : Z.
Variable can_round : mpfr_val -> Z -> mpfr_rnd_t -> mpfr_rnd_t -> Z -> bool.

Local Arguments Q_of_val : simpl never.

(** X7. A turn of the loop in which [u = x + y], [v = x - y] and the product
    [u * v] are all computed exactly ([inexact == 0], lines 304 and 345) and
    the product is neither zero nor infinite nor of exponent [emin]: the
    product is [x^2 - y^2], the loop stops in this turn whatever
    [mpfr_can_round] answers, the real part of the result is this number
    rounded once to the target precision in the target mode, and [inex_re]
    is the ternary value of that rounding. *)
Theorem sqr_exact_turn fuel rop op rnd prec s sx mx ex sy my ey :
  let x := Fin sx mx ex in
  let y := Fin sy my ey in
  let p := next_prec prec in
  let u := karatsuba_u emin emax p x y in
  let v := karatsuba_v emin emax p x y in
  let uv := karatsuba_uv emin emax p (product_rnd emin emax p x y) x y in
  let R := round emin emax (prec_of (mem s (Re rop))) (MPC_RND_RE rnd) (r_val uv) in
  val_of (mem s (Local sqr_x)) = x -> val_of (mem s (Im op)) = y ->
  1 <= p ->
  sgn (r_val u) <> 0 -> sgn (r_val v) <> 0 ->
  is_inf (r_val uv) = false -> get_exp (r_val uv) <> emin ->
  Z.lor (Z.lor (r_inex u) (r_inex v)) (r_inex uv) = 0 ->
  (Q_of_val (r_val uv) == Q_of_val x * Q_of_val x - Q_of_val y * Q_of_val y)%Q /\
  exists s',
    sqr_loop emin emax can_round (S fuel) rop op rnd prec s
    = Returns (r_inex R) s' /\
    val_of (mem s' (Re rop)) = r_val R.
Proof.
  intros x y p u v uv R Hx Hy Hp Hu Hv Hinf Hexp Hlor.
  pose proof Hlor as Hlor'.
  apply Z.lor_eq_0_iff in Hlor'. destruct Hlor' as [Huv' Iuv].
  apply Z.lor_eq_0_iff in Huv'. destruct Huv' as [Iu Iv].
  split.
  - unfold uv, karatsuba_uv, mul_val in Iuv |- *.
    rewrite round_inex_zero by assumption.
    rewrite Q_of_val_mul_exact_all.
    unfold u, karatsuba_u, add_val in Iu |- *.
    unfold v, karatsuba_v, sub_val in Iv |- *.
    rewrite !round_inex_zero by assumption.
    unfold x, y. change (neg_val (Fin sy my ey)) with (Fin (negb sy) my ey).
    rewrite !Q_of_val_add_exact.
    change (Fin (negb sy) my ey) with (neg_val (Fin sy my ey)).
    rewrite Q_of_val_neg. ring.
  - clear Iu Iv Iuv. subst R uv u v.
    unfold karatsuba_uv, product_rnd, karatsuba_u, karatsuba_v in *.
    set (U := add_val emin emax p MPFR_RNDA x y) in *.
    set (V := sub_val emin emax p MPFR_RNDA x y) in *.
    cbn [sqr_loop]. fold p. unfold sqr_body. exec. fold x y. fold U V.
    replace ((sgn (r_val U) =? 0) || (sgn (r_val V) =? 0)) with false
      by (symmetry; apply orb_false_iff; split; apply Z.eqb_neq; assumption).
    apply Z.eqb_neq in Hexp. apply Z.eqb_eq in Hlor.
    destruct (0 <? sgn (r_val U) * sgn (r_val V)) eqn:Hpos; exec;
      rewrite ?Hexp; exec; rewrite Hinf; exec; rewrite ?Hexp;
      unfold sqr_ok, sqr_if_ok; exec; rewrite Hlor; exec;
      rewrite ?Nat.eqb_refl; exec;
      apply Z.eqb_eq in Hlor; rewrite Hlor;
      (eexists; split;
       [ match goal with
         | |- Returns (if ?i =? 0 then _ else _) _ = _ =>
             destruct (Z.eqb_spec i 0) as [E|E]; [rewrite E|]; reflexivity
         end
       | exec; rewrite ?Nat.eqb_refl; reflexivity ]).
Qed.
End ExactTurn.

(** The operand [3 + 0.875 i]: [u = 3.875], [v = 2.125], [u * v = 8.234375]. *)
Lemma sqr_exact_turn_witness :
  let x := Fin false 6755399441055744 2 in
  let y := Fin false 7881299347898368 0 in
  let s := loop_state 1%nat 0%nat 53 53 (mk_mpfr 53 x) (mk_mpfr 53 y) in
  let p := next_prec 53 in
  let u := karatsuba_u default_emin default_emax p x y in
  let v := karatsuba_v default_emin default_emax p x y in
  let uv := karatsuba_uv default_emin default_emax p
              (product_rnd default_emin default_emax p x y) x y in
  let R := round default_emin default_emax (prec_of (mem s (Re 1%nat)))
             (MPC_RND_RE MPC_RNDNN) (r_val uv) in
  (val_of (mem s (Local sqr_x)) = x /\ val_of (mem s (Im 0%nat)) = y /\
   1 <= p /\ sgn (r_val u) <> 0 /\ sgn (r_val v) <> 0 /\
   is_inf (r_val uv) = false /\ get_exp (r_val uv) <> default_emin /\
   Z.lor (Z.lor (r_inex u) (r_inex v)) (r_inex uv) = 0) /\
  (Q_of_val (r_val uv) == Q_of_val x * Q_of_val x - Q_of_val y * Q_of_val y)%Q /\
  exists s',
    sqr_loop default_emin default_emax can_round_interval 1%nat 1%nat 0%nat
      MPC_RNDNN 53 s = Returns (r_inex R) s' /\
    val_of (mem s' (Re 1%nat)) = r_val R.
Proof.
  intros x y s p u v uv R.
  assert (H1 : val_of (mem s (Local sqr_x)) = x) by reflexivity.
  assert (H2 : val_of (mem s (Im 0%nat)) = y) by reflexivity.
  assert (H3 : 1 <= p) by (vm_compute; discriminate).
  assert (H4 : sgn (r_val u) <> 0) by (vm_compute; discriminate).
  assert (H5 : sgn (r_val v) <> 0) by (vm_compute; discriminate).
  assert (H6 : is_inf (r_val uv) = false) by (vm_compute; reflexivity).
  assert (H7 : get_exp (r_val uv) <> default_emin) by (vm_compute; discriminate).
  assert (H8 : Z.lor (Z.lor (r_inex u) (r_inex v)) (r_inex uv) = 0)
    by (vm_compute; reflexivity).
  split; [tauto|].
  exact (sqr_exact_turn default_emin default_emax can_round_interval 0%nat
           1%nat 0%nat MPC_RNDNN 53 s false 6755399441055744 2
           false 7881299347898368 0 H1 H2 H3 H4 H5 H6 H7 H8).
Defined.

(** ** Well-formed numbers (X8) *)

Section WellFormed.
Variables emin emax : Z.
Hypothesis range : emin <= emax.
Variable can_round : mpfr_val -> Z -> mpfr_rnd_t -> mpfr_rnd_t -> Z -> bool.

Local Abbreviation keeps := (keeps_ok emin emax).
Local Abbreviation ok := (store_ok emin emax).

Lemma keeps_ret {A} (a : A) : keeps (ret a).
Proof. intros s b s' E. injection E as <- <-. auto. Qed.

Lemma keeps_bind {A B} (c : M A) (k : A -> M B) :
  keeps c -> (forall a, keeps (k a)) -> keeps (bind c k).
Proof.
  intros Hc Hk s b s' E Hf. unfold bind in E.
  destruct (c s) as [a t| |] eqn:Ec; try discriminate.
  eapply Hk; [exact E|]. eapply Hc; eauto.
Qed.

Lemma keeps_pure {A} (f : state -> A) : keeps (fun s => Returns (f s) s).
Proof. intros s a s' E. injection E as <- <-. auto. Qed.

Lemma keeps_flag {A} (a : A) (f : state -> bool) :
  keeps (fun s => Returns a (mk_state (mem s) (f s))).
Proof. intros s b s' E H. injection E as <- <-. exact H. Qed.

Lemma keeps_assert b : keeps (MPC_ASSERT b).
Proof.
  intros s a s' E. unfold MPC_ASSERT in E. destruct b; [|discriminate].
  injection E as <- <-. auto.
Qed.

(** Writing a value that fits the variable. *)
Lemma ok_upd s x v (uf : bool) :
  ok s -> (1 <= prec_of (mem s x) -> wf_val emin emax (prec_of (mem s x)) v) ->
  ok (mk_state (upd (mem s) x (mk_mpfr (prec_of (mem s x)) v)) uf).
Proof.
  intros Hs Hv w. cbn. unfold upd.
  destruct (var_eqb w x); [exact Hv|apply Hs].
Qed.

Lemma keeps_store z (r : state -> rounded) :
  (forall s, ok s -> 1 <= prec_of (mem s z) ->
             wf_val emin emax (prec_of (mem s z)) (r_val (r s))) ->
  keeps (fun s => store z (r s) s).
Proof.
  intros Hr s a s' E Hs. unfold store in E. cbn in E. injection E as <- <-.
  apply ok_upd; auto.
Qed.

Lemma keeps_init x p : keeps (write x (mk_mpfr p NaN)).
Proof.
  intros s a s' E Hs. injection E as <- <-. intros w. cbn. unfold upd.
  destruct (var_eqb w x); [intros _; exact I|apply Hs].
Qed.

Lemma keeps_copy x y : keeps (c <- read y ;; write x c).
Proof.
  intros s a s' E Hs. injection E as <- <-. intros w. cbn. unfold upd.
  destruct (var_eqb w x); apply Hs.
Qed.

Lemma keeps_write_special x v :
  is_fin v = false -> keeps (write_val x v).
Proof.
  intros Hv s a s' E Hs. injection E as <- <-. apply ok_upd; auto.
  intros _. destruct v; try exact I. discriminate.
Qed.

Lemma keeps_set_exp x e : keeps (mpfr_set_exp emin emax x e).
Proof.
  intros s a s' E Hs. unfold mpfr_set_exp in E.
  destruct (Z.leb_spec emin e); cbn in E; [|injection E as <- <-; exact Hs].
  destruct (Z.leb_spec e emax); cbn in E; injection E as <- <-; [|exact Hs].
  apply ok_upd; auto. intros Hp. specialize (Hs x Hp).
  destruct (val_of (mem s x)); cbn in *; auto. split; [tauto|lia].
Qed.

Lemma keeps_round z rnd (v : state -> mpfr_val) :
  keeps (fun s => store z (round emin emax (prec_of (mem s z)) rnd (v s)) s).
Proof. apply keeps_store. intros s _ Hp. apply round_wf; assumption. Qed.

Lemma keeps_set z x rnd : keeps (mpfr_set emin emax z x rnd).
Proof. apply (keeps_round z rnd (fun s => val_of (mem s x))). Qed.

Lemma keeps_mul z x y rnd : keeps (mpfr_mul emin emax z x y rnd).
Proof.
  apply (keeps_round z rnd (fun s => mul_exact (val_of (mem s x)) (val_of (mem s y)))).
Qed.

Lemma keeps_sqr z x rnd : keeps (mpfr_sqr emin emax z x rnd).
Proof.
  apply (keeps_round z rnd (fun s => mul_exact (val_of (mem s x)) (val_of (mem s x)))).
Qed.

Lemma keeps_add z x y rnd : keeps (mpfr_add emin emax z x y rnd).
Proof.
  apply (keeps_round z rnd
           (fun s => add_exact rnd (val_of (mem s x)) (val_of (mem s y)))).
Qed.

Lemma keeps_sub z x y rnd : keeps (mpfr_sub emin emax z x y rnd).
Proof.
  apply (keeps_round z rnd
           (fun s => add_exact rnd (val_of (mem s x)) (neg_val (val_of (mem s y))))).
Qed.

Lemma keeps_set_si z n rnd : keeps (mpfr_set_si emin emax z n rnd).
Proof. apply (keeps_round z rnd (fun _ => val_of_Z n)). Qed.

Lemma keeps_set_ui_2exp z n e rnd : keeps (mpfr_set_ui_2exp emin emax z n e rnd).
Proof.
  apply (keeps_round z rnd
           (fun _ => match val_of_Z n with Fin s m f => Fin s m (f + e) | w => w end)).
Qed.

Lemma keeps_neg z x rnd : keeps (mpfr_neg emin emax z x rnd).
Proof.
  intros s a s' E Hs. unfold mpfr_neg in E. cbn in E.
  destruct (var_eqb z x) eqn:Ezx; cbn in E; injection E as <- <-.
  - apply var_eqb_eq in Ezx. subst x. apply ok_upd; auto.
    intros Hp. apply wf_val_neg. apply Hs. exact Hp.
  - apply ok_upd; auto. intros Hp. apply round_wf; assumption.
Qed.

Lemma keeps_mul_2ui z x n rnd :
  0 <= n -> keeps (mpfr_mul_2ui emin emax z x n rnd).
Proof.
  intros Hn. unfold mpfr_mul_2ui. apply keeps_bind.
  - destruct (var_eqb z x); [apply keeps_ret|apply keeps_set].
  - intros i s a s' E Hs. cbn in E.
    destruct (val_of (mem s z)) as [| | |sg m e] eqn:Ev;
      try (injection E as <- <-; exact Hs).
    destruct (Z.ltb_spec emax (e + n)); cbn in E; injection E as <- <-.
    + apply ok_upd; auto. intros Hp. apply overflow_wf; assumption.
    + apply ok_upd; auto. intros Hp. specialize (Hs z Hp). rewrite Ev in Hs.
      cbn in *. split; [tauto|lia].
Qed.

Lemma keeps_div_2ui z x n rnd :
  0 <= n -> keeps (mpfr_div_2ui emin emax z x n rnd).
Proof.
  intros Hn. unfold mpfr_div_2ui. apply keeps_bind.
  - destruct (var_eqb z x); [apply keeps_ret|apply keeps_set].
  - intros i s a s' E Hs. cbn in E.
    destruct (val_of (mem s z)) as [| | |sg m e] eqn:Ev;
      try (injection E as <- <-; exact Hs).
    destruct (n =? 0); cbn in E; [injection E as <- <-; exact Hs|].
    destruct (Z.ltb_spec (e - n) emin); cbn in E; injection E as <- <-.
    + apply ok_upd; auto. intros Hp. apply underflow_wf; assumption.
    + apply ok_upd; auto. intros Hp. specialize (Hs z Hp). rewrite Ev in Hs.
      cbn in *. split; [tauto|lia].
Qed.

Lemma to_ulong_nonneg z : 0 <= to_ulong z.
Proof. unfold to_ulong. apply Z.mod_pos_bound. reflexivity. Qed.

Lemma mpz_get_ui_nonneg z : 0 <= mpz_get_ui z.
Proof. unfold mpz_get_ui. apply Z.mod_pos_bound. reflexivity. Qed.

Lemma keeps_read x : keeps (read x).
Proof. apply (keeps_pure (fun s => mem s x)). Qed.

Lemma keeps_read_val x : keeps (read_val x).
Proof. apply (keeps_pure (fun s => val_of (mem s x))). Qed.

Ltac ok_step :=
  first
    [ apply keeps_ret
    | apply keeps_assert
    | apply keeps_read
    | apply keeps_read_val
    | lazymatch goal with
      | |- keeps_ok _ _ (mpfr_set_exp _ _ _ _) => apply keeps_set_exp
      | |- keeps_ok _ _ (mpfr_set _ _ _ _ _) => apply keeps_set
      | |- keeps_ok _ _ (mpfr_neg _ _ _ _ _) => apply keeps_neg
      | |- keeps_ok _ _ (mpfr_mul _ _ _ _ _ _) => apply keeps_mul
      | |- keeps_ok _ _ (mpfr_sqr _ _ _ _ _) => apply keeps_sqr
      | |- keeps_ok _ _ (mpfr_add _ _ _ _ _ _) => apply keeps_add
      | |- keeps_ok _ _ (mpfr_sub _ _ _ _ _ _) => apply keeps_sub
      | |- keeps_ok _ _ (mpfr_set_si _ _ _ _ _) => apply keeps_set_si
      | |- keeps_ok _ _ (mpfr_set_ui _ _ _ _ _) => apply keeps_set_si
      | |- keeps_ok _ _ (mpfr_set_ui_2exp _ _ _ _ _ _) => apply keeps_set_ui_2exp
      | |- keeps_ok _ _ (mpfr_mul_2ui _ _ _ _ _ _) =>
          apply keeps_mul_2ui;
          first [apply to_ulong_nonneg | apply mpz_get_ui_nonneg | lia]
      | |- keeps_ok _ _ (mpfr_mul_2exp _ _ _ _ _ _) =>
          apply keeps_mul_2ui;
          first [apply to_ulong_nonneg | apply mpz_get_ui_nonneg | lia]
      | |- keeps_ok _ _ (mpfr_div_2ui _ _ _ _ _ _) =>
          apply keeps_div_2ui;
          first [apply to_ulong_nonneg | apply mpz_get_ui_nonneg | lia]
      | |- keeps_ok _ _ (mpfr_init2 _ _) => apply keeps_init
      | |- keeps_ok _ _ (mpfr_init _) => apply keeps_init
      | |- keeps_ok _ _ (mpfr_set_prec _ _) => apply keeps_init
      | |- keeps_ok _ _ (mpfr_set_nan _) => apply keeps_write_special; reflexivity
      | |- keeps_ok _ _ (mpfr_set_inf _ _) => apply keeps_write_special; reflexivity
      | |- keeps_ok _ _ mpfr_underflow_p => apply (keeps_pure underflow_flag)
      | |- keeps_ok _ _ mpfr_clear_underflow => apply (keeps_flag tt (fun _ => false))
      | |- keeps_ok _ _ mpfr_set_underflow => apply (keeps_flag tt (fun _ => true))
      | |- keeps_ok _ _ (bind (read _) (fun c => write _ c)) => apply keeps_copy
      | |- keeps_ok _ _ (bind _ _) => apply keeps_bind; [|intros ?]
      | |- keeps_ok _ _ (if ?b then _ else _) => destruct b
      | |- keeps_ok _ _ (match ?v with _ => _ end) => destruct v
      end
    | progress cbv beta iota zeta
    | progress unfold mpfr_clear, mpfr_get_prec, mpfr_nan_p, mpfr_inf_p,
        mpfr_zero_p, mpfr_number_p, mpfr_signbit, mpfr_sgn, mpfr_sign,
        mpfr_get_exp, mpfr_can_round, MPC_PREC_RE, MPC_PREC_IM, MPC_MAX_PREC,
        ROUND_AWAY, mpc_fin_p, mpc_conj ].

Lemma fmma_keeps_ok z a b c d sign rnd :
  keeps (mpfr_fmma emin emax z a b c d sign rnd).
Proof.
  unfold mpfr_fmma, fmma_rescue, fmma_overflow, fmma_underflow.
  repeat ok_step.
Qed.

Lemma body_keeps_ok rop op rnd prec :
  keeps (sqr_body emin emax can_round rop op rnd prec).
Proof.
  unfold sqr_body, sqr_ok, sqr_if_ok. repeat ok_step.
Qed.

Lemma loop_keeps_ok fuel rop op rnd : forall prec,
  keeps (sqr_loop emin emax can_round fuel rop op rnd prec).
Proof.
  induction fuel as [|fuel IH]; intros prec.
  - intros s a s' E. discriminate E.
  - cbn [sqr_loop]. apply keeps_bind; [apply body_keeps_ok|].
    intros [i|]; [apply keeps_ret|apply IH].
Qed.

(** X8. [mpc_sqr] keeps the store in order: if before the call every
    variable holding a regular number holds one with exactly as many
    significant bits as its precision and an exponent in [emin .. emax],
    then the same is true when the call returns, for the results and for
    the operand, whose exponents [mpfr_fmma] sets by hand (lines 73-76,
    84-89, 109-118, 137-146, 158-161). *)
Theorem sqr_keeps_well_formed fuel rop op rnd s a s' :
  mpc_sqr emin emax can_round fuel rop op rnd s = Returns a s' ->
  store_ok emin emax s -> store_ok emin emax s'.
Proof.
  revert s a s'. change (keeps (mpc_sqr emin emax can_round fuel rop op rnd)).
  unfold mpc_sqr, sqr_special, sqr_real, sqr_imag, sqr_re_part, sqr_im_part.
  repeat first
    [ lazymatch goal with
      | |- keeps_ok _ _ (mpfr_fmma _ _ _ _ _ _ _ _ _) => apply fmma_keeps_ok
      | |- keeps_ok _ _ (sqr_loop _ _ _ _ _ _ _ _) => apply loop_keeps_ok
      end
    | ok_step ].
Qed.

End WellFormed.

(** The operand [3 + 0.875 i] in the default exponent range. *)
Lemma sqr_keeps_well_formed_witness :
  let x := mk_num 53 false 3 0 in
  let y := mk_num 53 false 7 (-3) in
  let s := init_state 1%nat 0%nat 53 53 x y in
  exists a s',
    (default_emin <= default_emax /\
     mpc_sqr default_emin default_emax can_round_interval 3%nat 1%nat 0%nat
       MPC_RNDNN s = Returns a s' /\
     store_ok default_emin default_emax s) /\
    store_ok default_emin default_emax s'.
Proof.
  intros x y s.
  destruct (mpc_sqr default_emin default_emax can_round_interval 3%nat 1%nat
              0%nat MPC_RNDNN s) as [a s'| |] eqn:Hrun;
    try (vm_compute in Hrun; discriminate Hrun).
  assert (H0 : default_emin <= default_emax) by (vm_compute; discriminate).
  assert (H1 : store_ok default_emin default_emax s).
  { intros w. unfold s, init_state, cell_ok. cbn [mem]. unfold upd.
    destruct (var_eqb w (Im 0%nat)); [vm_compute; intuition discriminate|].
    destruct (var_eqb w (Re 0%nat)); [vm_compute; intuition discriminate|].
    destruct (var_eqb w (Im 1%nat)); [intros _; exact I|].
    destruct (var_eqb w (Re 1%nat)); intros _; exact I. }
  exists a, s'. split; [split; [exact H0|split; [reflexivity|exact H1]]|].
  exact (sqr_keeps_well_formed default_emin default_emax H0 can_round_interval
           3%nat 1%nat 0%nat MPC_RNDNN s a s' Hrun H1).
Defined.

(** ** The real part computed by the loop (X9, X10) *)

(** Powers of two as rationals. *)
Lemma Qpow2_pos k : (0 < 2 ^ k)%Q.
Proof. apply Qpower_0_lt. reflexivity. Qed.

Lemma Qpow2_add a b : (2 ^ (a + b) == 2 ^ a * 2 ^ b)%Q.
Proof. apply Qpower_plus. discriminate. Qed.

Lemma Qpow2_succ a : (2 ^ (a + 1) == 2 * 2 ^ a)%Q.
Proof. rewrite Qpow2_add. change (2 ^ 1)%Q with 2%Q. ring. Qed.

Lemma Qpow2_le a b : a <= b -> (2 ^ a <= 2 ^ b)%Q.
Proof. intros. apply Qpower_le_compat_l; [assumption|discriminate]. Qed.

Lemma Qpow2_lt a b : a < b -> (2 ^ a < 2 ^ b)%Q.
Proof. intros. apply Qpower_lt_compat_l; [assumption|reflexivity]. Qed.

Lemma Qpow2_inject k : 0 <= k -> (inject_Z (2 ^ k) == 2 ^ k)%Q.
Proof. intros. rewrite Zpower_Qpower by assumption. reflexivity. Qed.

(** The magnitude of a regular number with significand [m] and exponent
    [e]. *)
Lemma mag_eq (m : positive) (e : Z) :
  (Q_of_val (Fin false m e) == inject_Z (Z.pos m) * 2 ^ (e - digits m))%Q.
Proof. unfold Q_of_val. ring. Qed.

Lemma mag_bounds (m : positive) (e : Z) :
  (2 ^ (e - 1) <= Q_of_val (Fin false m e) < 2 ^ e)%Q.
Proof.
  rewrite mag_eq. pose proof (digits_spec m) as [Hl Hu].
  pose proof (digits_pos m) as Hp.
  pose proof (Qpow2_pos (e - digits m)) as P.
  rewrite Zle_Qle in Hl. rewrite Zlt_Qlt in Hu.
  rewrite Qpow2_inject in Hl, Hu by lia.
  assert (E1 : (2 ^ (e - 1) == 2 ^ (digits m - 1) * 2 ^ (e - digits m))%Q).
  { rewrite <- Qpow2_add. replace (digits m - 1 + (e - digits m)) with (e - 1) by lia.
    reflexivity. }
  assert (E2 : (2 ^ e == 2 ^ digits m * 2 ^ (e - digits m))%Q).
  { rewrite <- Qpow2_add. replace (digits m + (e - digits m)) with e by lia.
    reflexivity. }
  rewrite E1, E2.
  set (P2 := (2 ^ (e - digits m))%Q) in *.
  set (M := inject_Z (Z.pos m)) in *.
  split; nra.
Qed.

Lemma mag_exponent (m : positive) (e E : Z) :
  (2 ^ (E - 1) <= Q_of_val (Fin false m e) < 2 ^ E)%Q -> e = E.
Proof.
  intros [Hl Hu]. pose proof (mag_bounds m e) as [Bl Bu].
  destruct (Z.lt_trichotomy e E) as [H|[H|H]]; [exfalso|exact H|exfalso].
  - pose proof (Qpow2_le e (E - 1) ltac:(lia)). lra.
  - pose proof (Qpow2_le E (e - 1) ltac:(lia)). lra.
Qed.


(** Splitting a significand of [p + k] bits. *)
Lemma mag_split (m : positive) (e p : Z) :
  p < digits m ->
  let k := digits m - p in
  let q := Z.shiftr (Z.pos m) k in
  let r := Z.pos m mod 2 ^ k in
  (Q_of_val (Fin false m e)
   == inject_Z q * 2 ^ (e - p) + inject_Z r * 2 ^ (e - digits m))%Q /\
  (2 ^ (e - p) == inject_Z (2 ^ k) * 2 ^ (e - digits m))%Q /\
  0 <= r < 2 ^ k.
Proof.
  intros Hd k q r.
  assert (Hk : 0 < k) by (unfold k; lia).
  assert (P : 0 < 2 ^ k) by (apply Z.pow_pos_nonneg; lia).
  assert (E : (2 ^ (e - p) == inject_Z (2 ^ k) * 2 ^ (e - digits m))%Q).
  { rewrite Qpow2_inject by lia. rewrite <- Qpow2_add.
    replace (k + (e - digits m)) with (e - p) by (unfold k; lia). reflexivity. }
  split; [|split; [exact E|apply Z.mod_pos_bound; exact P]].
  rewrite mag_eq, E.
  assert (Hm : Z.pos m = q * 2 ^ k + r).
  { unfold q, r. rewrite Z.shiftr_div_pow2 by lia.
    pose proof (Z.div_mod (Z.pos m) (2 ^ k) ltac:(lia)). lia. }
  rewrite Hm at 1. rewrite inject_Z_plus, inject_Z_mult. ring.
Qed.


Lemma round_raw_away_mag p rnd s m e :
  1 <= p -> away_mode rnd s ->
  let '(m', e', i) := round_raw p rnd s m e in
  (Q_of_val (Fin false m e) <= inject_Z m' * 2 ^ (e' - p))%Q /\
  (inject_Z m' * 2 ^ (e' - p) < Q_of_val (Fin false m e) + 2 ^ (e' - p))%Q /\
  (i = 0 -> (inject_Z m' * 2 ^ (e' - p) == Q_of_val (Fin false m e))%Q) /\
  e <= e'.
Proof.
  intros Hp Haway. unfold round_raw.
  pose proof (digits_pos m) as Hd.
  destruct (Z.leb_spec (digits m) p) as [Hle|Hgt].
  - assert (E : (inject_Z (Z.shiftl (Z.pos m) (p - digits m)) * 2 ^ (e - p)
                 == Q_of_val (Fin false m e))%Q).
    { rewrite mag_eq, Z.shiftl_mul_pow2, inject_Z_mult, Qpow2_inject by lia.
      replace (e - digits m) with ((p - digits m) + (e - p)) by lia.
      rewrite Qpow2_add. ring. }
    pose proof (Qpow2_pos (e - p)).
    split; [rewrite E; lra|]. split; [rewrite E; lra|].
    split; [intros _; exact E|lia].
  - destruct (mag_split m e p Hgt) as (EV & EP & Hr).
    set (k := digits m - p) in *.
    set (q := Z.shiftr (Z.pos m) k) in *.
    set (r := Z.pos m mod 2 ^ k) in *.
    pose proof (Qpow2_pos (e - digits m)) as PT.
    set (T := (2 ^ (e - digits m))%Q) in *.
    assert (HK : (0 < inject_Z (2 ^ k))%Q).
    { rewrite <- (Zlt_Qlt 0). apply Z.pow_pos_nonneg; unfold k; lia. }
    assert (Hr1 : (0 <= inject_Z r)%Q) by (rewrite <- (Zle_Qle 0); lia).
    assert (Hr2 : (inject_Z r < inject_Z (2 ^ k))%Q) by (rewrite <- Zlt_Qlt; lia).
    destruct (Z.eqb_spec r 0) as [Hr0|Hr0].
    + assert (Hz : (inject_Z r == 0)%Q) by (rewrite Hr0; reflexivity).
      split; [rewrite EV, EP, Hz; nra|]. split; [rewrite EV, EP, Hz; nra|].
      split; [intros _; rewrite EV, Hz; ring|lia].
    + assert (Hr3 : (0 < inject_Z r)%Q) by (rewrite <- (Zlt_Qlt 0); lia).
      rewrite Haway.
      destruct (Z.eqb_spec (q + 1) (2 ^ p)) as [Hc|Hc].
      * assert (E2 : (inject_Z (2 ^ (p - 1)) * 2 ^ (e + 1 - p)
                      == inject_Z (q + 1) * 2 ^ (e - p))%Q).
        { rewrite Hc, !Qpow2_inject by lia. rewrite <- !Qpow2_add.
          replace (p - 1 + (e + 1 - p)) with (p + (e - p)) by lia. reflexivity. }
        assert (E3 : (2 ^ (e + 1 - p) == 2 * 2 ^ (e - p))%Q).
        { replace (e + 1 - p) with ((e - p) + 1) by lia. apply Qpow2_succ. }
        rewrite E2, E3, inject_Z_plus, EV, EP. change (inject_Z 1) with 1%Q.
        split; [nra|]. split; [nra|]. split; [discriminate|lia].
      * rewrite inject_Z_plus, EV, EP. change (inject_Z 1) with 1%Q.
        split; [nra|]. split; [nra|]. split; [discriminate|lia].
Qed.

(** The number truncated to [P] bits. *)
Lemma trunc_spec P s m e :
  1 <= P ->
  let '(q, f, i) := round_raw P MPFR_RNDZ s m e in
  f = e /\ 2 ^ (P - 1) <= q < 2 ^ P /\
  ((i = 0 /\ (Q_of_val (Fin false m e) == inject_Z q * 2 ^ (e - P))%Q) \/
   (i = -1 /\
    (inject_Z q * 2 ^ (e - P) < Q_of_val (Fin false m e))%Q /\
    (Q_of_val (Fin false m e) < (inject_Z q + 1) * 2 ^ (e - P))%Q)).
Proof.
  intros HP. pose proof (round_raw_bounds P MPFR_RNDZ s m e HP) as HB.
  unfold round_raw in *. pose proof (digits_pos m) as Hd.
  destruct (Z.leb_spec (digits m) P) as [Hle|Hgt].
  - split; [reflexivity|]. split; [tauto|]. left. split; [reflexivity|].
    rewrite mag_eq, Z.shiftl_mul_pow2, inject_Z_mult, Qpow2_inject by lia.
    replace (e - digits m) with ((P - digits m) + (e - P)) by lia.
    rewrite Qpow2_add. ring.
  - destruct (mag_split m e P Hgt) as (EV & EP & Hr).
    set (k := digits m - P) in *.
    set (q := Z.shiftr (Z.pos m) k) in *.
    set (r := Z.pos m mod 2 ^ k) in *.
    pose proof (Qpow2_pos (e - digits m)) as PT.
    set (T := (2 ^ (e - digits m))%Q) in *.
    assert (Hr1 : (0 <= inject_Z r)%Q) by (rewrite <- (Zle_Qle 0); lia).
    assert (Hr2 : (inject_Z r < inject_Z (2 ^ k))%Q) by (rewrite <- Zlt_Qlt; lia).
    destruct (Z.eqb_spec r 0) as [Hr0|Hr0].
    + split; [reflexivity|]. split; [tauto|]. left. split; [reflexivity|].
      rewrite EV, Hr0. change (inject_Z 0) with 0%Q. ring.
    + cbn [round_away] in *. split; [reflexivity|]. split; [tauto|]. right.
      assert (Hr3 : (0 < inject_Z r)%Q) by (rewrite <- (Zlt_Qlt 0); lia).
      split; [reflexivity|]. rewrite EV, EP. split; nra.
Qed.


(** Two numbers with the same truncation enclose numbers with that
    truncation. *)
Lemma trunc_between P s m1 e1 m e m2 e2 q f i1 i2 :
  1 <= P ->
  round_raw P MPFR_RNDZ s m1 e1 = (q, f, i1) ->
  round_raw P MPFR_RNDZ s m2 e2 = (q, f, i2) ->
  (Q_of_val (Fin false m1 e1) <= Q_of_val (Fin false m e))%Q ->
  (Q_of_val (Fin false m e) <= Q_of_val (Fin false m2 e2))%Q ->
  exists i, round_raw P MPFR_RNDZ s m e = (q, f, i).
Proof.
  intros HP H1 H2 L1 L2.
  pose proof (trunc_spec P s m1 e1 HP) as S1. rewrite H1 in S1.
  pose proof (trunc_spec P s m2 e2 HP) as S2. rewrite H2 in S2.
  pose proof (trunc_spec P s m e HP) as S.
  destruct (round_raw P MPFR_RNDZ s m e) as ((q', f'), i').
  destruct S1 as (F1 & B1 & C1), S2 as (F2 & B2 & C2), S as (F & B & C).
  subst f'. subst e1. subst e2.
  pose proof (mag_bounds m1 f) as M1. pose proof (mag_bounds m2 f) as M2.
  assert (E : e = f) by (apply (mag_exponent m); lra).
  subst e. exists i'. f_equal. f_equal.
  pose proof (Qpow2_pos (f - P)) as PG.
  set (G := (2 ^ (f - P))%Q) in *.
  set (V1 := Q_of_val (Fin false m1 f)) in *.
  set (V2 := Q_of_val (Fin false m2 f)) in *.
  set (V := Q_of_val (Fin false m f)) in *.
  assert (A1 : (inject_Z q * G <= V1)%Q) by (destruct C1 as [[_ C1]|[_ C1]]; lra).
  assert (A2 : (V2 < (inject_Z q + 1) * G)%Q) by (destruct C2 as [[_ C2]|[_ C2]]; lra).
  assert (A3 : (inject_Z q' * G <= V)%Q) by (destruct C as [[_ C]|[_ C]]; lra).
  assert (A4 : (V < (inject_Z q' + 1) * G)%Q) by (destruct C as [[_ C]|[_ C]]; lra).
  assert (X1 : (inject_Z q' < inject_Z q + 1)%Q) by nra.
  assert (X2 : (inject_Z q < inject_Z q' + 1)%Q) by nra.
  change 1%Q with (inject_Z 1) in X1, X2. rewrite <- inject_Z_plus in X1, X2.
  rewrite <- Zlt_Qlt in X1, X2. lia.
Qed.

(** The truncation of a number: as much as its ternary value. *)
Lemma trunc_exactness P s m1 e1 m2 e2 q f i1 i2 :
  1 <= P ->
  round_raw P MPFR_RNDZ s m1 e1 = (q, f, i1) ->
  round_raw P MPFR_RNDZ s m2 e2 = (q, f, i2) ->
  (Q_of_val (Fin false m1 e1) <= Q_of_val (Fin false m2 e2))%Q ->
  i1 = -1 -> i2 = -1.
Proof.
  intros HP H1 H2 L Hi.
  pose proof (trunc_spec P s m1 e1 HP) as S1. rewrite H1 in S1.
  pose proof (trunc_spec P s m2 e2 HP) as S2. rewrite H2 in S2.
  destruct S1 as (F1 & B1 & C1), S2 as (F2 & B2 & C2). subst e1 e2.
  destruct C2 as [[-> C2]|[-> _]]; [|reflexivity]. exfalso.
  destruct C1 as [[? _]|[_ C1]]; [lia|]. lra.
Qed.

(** The truncation depends on the number only. *)
Lemma trunc_ext P s m1 e1 m2 e2 :
  1 <= P ->
  (Q_of_val (Fin false m1 e1) == Q_of_val (Fin false m2 e2))%Q ->
  round_raw P MPFR_RNDZ s m1 e1 = round_raw P MPFR_RNDZ s m2 e2.
Proof.
  intros HP E.
  destruct (round_raw P MPFR_RNDZ s m2 e2) as ((q, f), i2) eqn:H2.
  destruct (trunc_between P s m2 e2 m1 e1 m2 e2 q f i2 i2 HP H2 H2) as [i1 H1];
    try lra.
  rewrite H1. f_equal.
  pose proof (trunc_spec P s m1 e1 HP) as S1. rewrite H1 in S1.
  pose proof (trunc_spec P s m2 e2 HP) as S2. rewrite H2 in S2.
  destruct S1 as (F1 & B1 & C1), S2 as (F2 & B2 & C2). subst e1 e2.
  destruct C1 as [[-> C1]|[-> C1]], C2 as [[-> C2]|[-> C2]]; try reflexivity;
    exfalso; lra.
Qed.

(** *** Rounding from the truncation *)

(** A directed rounding to [P] bits, from the truncation to [P] bits. *)
Lemma round_raw_directed P rnd s m e q f i :
  rnd <> MPFR_RNDN ->
  round_raw P MPFR_RNDZ s m e = (q, f, i) ->
  round_raw P rnd s m e
  = if i =? 0 then (q, f, 0)
    else if round_away rnd s 0 0 0
         then if q + 1 =? 2 ^ P then (2 ^ (P - 1), f + 1, 1) else (q + 1, f, 1)
         else (q, f, -1).
Proof.
  intros Hrnd. unfold round_raw.
  destruct (digits m <=? P).
  - intros H. injection H as <- <- <-. reflexivity.
  - destruct (Z.pos m mod 2 ^ (digits m - P) =? 0).
    + intros H. injection H as <- <- <-. reflexivity.
    + cbn [round_away]. intros H. injection H as <- <- <-.
      change (-1 =? 0) with false. cbv beta iota.
      destruct rnd; try reflexivity. contradiction.
Qed.

Lemma half_odd q : q = 2 * (q / 2) + (if Z.odd q then 1 else 0).
Proof.
  rewrite <- Z.div2_div. pose proof (Z.div2_odd q) as H.
  destruct (Z.odd q); exact H.
Qed.

(** Rounding to nearest to [P] bits, from the truncation to [P + 1] bits. *)
Lemma round_raw_nearest P s m e q f i :
  1 <= P ->
  round_raw (P + 1) MPFR_RNDZ s m e = (q, f, i) ->
  round_raw P MPFR_RNDN s m e
  = if negb (Z.odd q) && (i =? 0) then (q / 2, f, 0)
    else if Z.odd q && (negb (i =? 0) || Z.odd (q / 2))
         then if q / 2 + 1 =? 2 ^ P then (2 ^ (P - 1), f + 1, 1)
              else (q / 2 + 1, f, 1)
         else (q / 2, f, -1).
Proof.
  intros HP. unfold round_raw. pose proof (digits_pos m) as Hd.
  destruct (Z.leb_spec (digits m) (P + 1)) as [H1|H1].
  - intros H. injection H as <- <- <-.
    destruct (Z.leb_spec (digits m) P) as [H2|H2].
    + replace (P + 1 - digits m) with ((P - digits m) + 1) by lia.
      rewrite <- Z.shiftl_shiftl by lia.
      set (t := Z.shiftl (Z.pos m) (P - digits m)).
      assert (E : Z.shiftl t 1 = 2 * t)
        by (rewrite Z.shiftl_mul_pow2 by lia; change (2 ^ 1) with 2; lia).
      rewrite E. rewrite Z.odd_mul. cbn [Z.odd andb negb].
      change (0 =? 0) with true. cbv beta iota.
      f_equal. f_equal. symmetry.
      rewrite Z.mul_comm. apply Z.div_mul. lia.
    + replace (P + 1 - digits m) with 0 by lia.
      replace (digits m - P) with 1 by lia.
      rewrite Z.shiftl_0_r. change (2 ^ 1) with 2. change (2 ^ (1 - 1)) with 1.
      rewrite Z.shiftr_div_pow2 by lia. change (2 ^ 1) with 2.
      change (0 =? 0) with true. cbn [negb orb].
      rewrite !andb_true_r.
      pose proof (half_odd (Z.pos m)) as Ho.
      assert (Hm : Z.pos m mod 2 = if Z.odd (Z.pos m) then 1 else 0).
      { symmetry. apply (Z.mod_unique _ _ (Z.pos m / 2)).
        - left. destruct (Z.odd (Z.pos m)); lia.
        - exact Ho. }
      rewrite Hm. destruct (Z.odd (Z.pos m)); cbn [negb Z.eqb]; [|reflexivity].
      unfold round_away. cbn [Z.ltb Z.compare Pos.compare Pos.compare_cont orb Z.eqb Pos.eqb andb].
      reflexivity.
  - destruct (Z.leb_spec (digits m) P) as [H2|H2]; [lia|].
    set (k := digits m - (P + 1)).
    replace (digits m - P) with (k + 1) by (unfold k; lia).
    assert (Hk : 1 <= k) by (unfold k; lia).
    assert (Pk : 0 < 2 ^ k) by (apply pow2_pos; lia).
    set (q0 := Z.shiftr (Z.pos m) k). set (r0 := Z.pos m mod 2 ^ k).
    assert (Hq0 : Z.pos m = q0 * 2 ^ k + r0).
    { unfold q0, r0. rewrite Z.shiftr_div_pow2 by lia.
      pose proof (Z.div_mod (Z.pos m) (2 ^ k) ltac:(lia)). lia. }
    assert (Hr0 : 0 <= r0 < 2 ^ k) by (apply Z.mod_pos_bound; exact Pk).
    pose proof (half_odd q0) as Ho.
    assert (E2 : 2 ^ (k + 1) = 2 * 2 ^ k)
      by (rewrite pow2_split by lia; change (2 ^ 1) with 2; lia).
    set (b := if Z.odd q0 then 1 else 0) in *.
    assert (Hb : 0 <= b <= 1) by (unfold b; destruct (Z.odd q0); lia).
    assert (Hdm : Z.pos m = (q0 / 2) * 2 ^ (k + 1) + (b * 2 ^ k + r0)) by nia.
    assert (Hrng : 0 <= b * 2 ^ k + r0 < 2 ^ (k + 1)) by nia.
    assert (Eq : Z.shiftr (Z.pos m) (k + 1) = q0 / 2).
    { rewrite Z.shiftr_div_pow2 by lia. symmetry.
      apply (Z.div_unique _ _ _ (b * 2 ^ k + r0)); [left; exact Hrng|lia]. }
    assert (Er : Z.pos m mod 2 ^ (k + 1) = b * 2 ^ k + r0).
    { symmetry. apply (Z.mod_unique _ _ (q0 / 2)); [left; exact Hrng|lia]. }
    rewrite Eq, Er. replace (k + 1 - 1) with k by lia.
    intros H.
    assert (H' : q = q0 /\ f = e /\ i = (if r0 =? 0 then 0 else -1)).
    { destruct (r0 =? 0); cbn [round_away] in H; injection H as <- <- <-; auto. }
    clear H. destruct H' as (-> & -> & ->).
    unfold round_away. unfold b in *.
    destruct (Z.odd q0); cbn [negb andb orb].
    + destruct (Z.eqb_spec r0 0) as [Hz|Hz].
      * rewrite Hz. replace (1 * 2 ^ k + 0 =? 0) with false by (symmetry; apply Z.eqb_neq; lia).
        replace (2 ^ k <? 1 * 2 ^ k + 0) with false by (symmetry; apply Z.ltb_ge; lia).
        replace (1 * 2 ^ k + 0 =? 2 ^ k) with true by (symmetry; apply Z.eqb_eq; lia).
        reflexivity.
      * replace (1 * 2 ^ k + r0 =? 0) with false by (symmetry; apply Z.eqb_neq; lia).
        replace (2 ^ k <? 1 * 2 ^ k + r0) with true by (symmetry; apply Z.ltb_lt; lia).
        reflexivity.
    + destruct (Z.eqb_spec r0 0) as [Hz|Hz].
      * rewrite Hz. reflexivity.
      * replace (0 * 2 ^ k + r0 =? 0) with false by (symmetry; apply Z.eqb_neq; lia).
        replace (2 ^ k <? 0 * 2 ^ k + r0) with false by (symmetry; apply Z.ltb_ge; lia).
        replace (0 * 2 ^ k + r0 =? 2 ^ k) with false by (symmetry; apply Z.eqb_neq; lia).
        reflexivity.
Qed.

Lemma round_raw_same pr rnd s m1 e1 m2 e2 :
  1 <= pr ->
  let P2 := pr + (if rnd_eqb rnd MPFR_RNDN then 1 else 0) in
  round_raw P2 MPFR_RNDZ s m1 e1 = round_raw P2 MPFR_RNDZ s m2 e2 ->
  round_raw pr rnd s m1 e1 = round_raw pr rnd s m2 e2.
Proof.
  intros Hp P2 H.
  destruct (round_raw P2 MPFR_RNDZ s m2 e2) as ((q, f), i) eqn:H2.
  destruct rnd; cbn in P2; subst P2;
    try (rewrite (round_raw_nearest pr s m1 e1 q f i Hp H),
                 (round_raw_nearest pr s m2 e2 q f i Hp H2); reflexivity);
    rewrite Z.add_0_r in *;
    match goal with
    | |- round_raw _ ?r _ _ _ = _ =>
        rewrite (round_raw_directed pr r s m1 e1 q f i ltac:(discriminate) H),
                (round_raw_directed pr r s m2 e2 q f i ltac:(discriminate) H2)
    end; reflexivity.
Qed.


Section SameRounding.
Variables emin emax : Z.

(** Two numbers of the same sign, the same truncation and the same
    exactness round to the same number with the same ternary value. *)
Lemma round_same pr rnd s m1 e1 m2 e2 :
  1 <= pr -> emin <= e1 ->
  let P2 := pr + (if rnd_eqb rnd MPFR_RNDN then 1 else 0) in
  round_raw P2 MPFR_RNDZ s m1 e1 = round_raw P2 MPFR_RNDZ s m2 e2 ->
  round emin emax pr rnd (Fin s m1 e1) = round emin emax pr rnd (Fin s m2 e2).
Proof.
  intros Hp He P2 H. unfold round.
  pose proof (round_raw_bounds pr rnd s m1 e1 Hp) as B.
  rewrite (round_raw_same pr rnd s m1 e1 m2 e2 Hp H) in *.
  destruct (round_raw pr rnd s m2 e2) as ((m', e'), i).
  destruct (emax <? e'); [reflexivity|].
  destruct (Z.ltb_spec e' emin); [lia|reflexivity].
Qed.

(** A rounding that neither overflows nor underflows. *)
Lemma round_regular p rnd s m e :
  1 <= p -> emin <= e -> e + 1 <= emax ->
  exists m' e' i,
    round_raw p rnd s m e = (Z.pos m', e', i) /\
    round emin emax p rnd (Fin s m e) = mk_rounded (Fin s m' e') (signed s i) false /\
    digits m' = p /\ e <= e' <= e + 1.
Proof.
  intros Hp H1 H2. unfold round.
  pose proof (round_raw_bounds p rnd s m e Hp) as B.
  destruct (round_raw p rnd s m e) as ((m', e'), i).
  destruct B as (B1 & B2 & _).
  assert (P0 : 0 < 2 ^ (p - 1)) by (apply pow2_pos; lia).
  exists (Z.to_pos m'), e', i. rewrite Z2Pos.id by lia.
  split; [reflexivity|].
  destruct (Z.ltb_spec emax e'); [lia|]. destruct (Z.ltb_spec e' emin); [lia|].
  split; [reflexivity|]. split; [|lia].
  apply digits_to_pos; lia.
Qed.

End SameRounding.

(** Rounding away from zero, in numbers. *)
Lemma away_spec p rnd s m e m' e' i :
  1 <= p -> away_mode rnd s ->
  round_raw p rnd s m e = (Z.pos m', e', i) -> digits m' = p ->
  (Q_of_val (Fin false m e) <= Q_of_val (Fin false m' e'))%Q /\
  (Q_of_val (Fin false m' e') < Q_of_val (Fin false m e) + 2 ^ (e' - p))%Q /\
  (i = 0 -> (Q_of_val (Fin false m' e') == Q_of_val (Fin false m e))%Q).
Proof.
  intros Hp Ha H Hd.
  pose proof (round_raw_away_mag p rnd s m e Hp Ha) as R. rewrite H in R.
  rewrite (mag_eq m' e'), Hd. tauto.
Qed.

(** *** Numbers of at most [P] significant bits *)


Lemma fits_mono P P' z : P <= P' -> fits P z -> fits P' z.
Proof.
  intros H (q & k & Hk & E & Hq). exists q, k.
  assert (2 ^ P <= 2 ^ P') by (apply Z.pow_le_mono_r; lia).
  repeat split; try assumption; lia.
Qed.

Lemma fits_pos P z : fits P z -> 0 < z.
Proof.
  intros (q & k & Hk & E & Hq). pose proof (pow2_pos k Hk). nia.
Qed.

Lemma fits_small P z : 0 < z < 2 ^ P -> fits P z.
Proof. intros H. exists z, 0. change (2 ^ 0) with 1. repeat split; lia. Qed.

Lemma fits_factor_nat P (k : nat) :
  forall a b q, 0 < a -> 0 < b -> a * b = q * 2 ^ Z.of_nat k -> 0 < q < 2 ^ P ->
                fits P a.
Proof.
  induction k as [|k IH]; intros a b q Ha Hb E Hq.
  - change (2 ^ Z.of_nat 0) with 1 in E. apply fits_small. nia.
  - rewrite Nat2Z.inj_succ, Z.pow_succ_r in E by lia.
    pose proof (half_odd a) as Ea. pose proof (half_odd b) as Eb.
    destruct (Z.odd a) eqn:Oa.
    + destruct (Z.odd b) eqn:Ob.
      * exfalso.
        assert (O : Z.odd (a * b) = true) by (rewrite Z.odd_mul, Oa, Ob; reflexivity).
        rewrite E, !Z.odd_mul in O. cbn [Z.odd andb] in O.
        rewrite andb_false_r in O. discriminate.
      * apply (IH a (b / 2) q); try assumption; nia.
    + destruct (IH (a / 2) b q) as (q' & k' & Hk' & E' & Hq'); try assumption;
        try nia.
      exists q', (k' + 1). rewrite pow2_split by lia. change (2 ^ 1) with 2.
      repeat split; nia.
Qed.

Lemma fits_factor P a b : 0 < a -> 0 < b -> fits P (a * b) -> fits P a.
Proof.
  intros Ha Hb (q & k & Hk & E & Hq).
  apply (fits_factor_nat P (Z.to_nat k) a b q); try assumption.
  rewrite Z2Nat.id by lia. exact E.
Qed.

Lemma fits_scale P a j : 0 <= j -> 0 < a -> fits P (a * 2 ^ j) <-> fits P a.
Proof.
  intros Hj Ha. pose proof (pow2_pos j Hj) as Pj. split.
  - apply fits_factor; assumption.
  - intros (q & k & Hk & E & Hq). exists q, (k + j).
    rewrite pow2_split by lia. repeat split; nia.
Qed.

(** A rounding with ternary value 0 is of a number that fits. *)
Lemma round_raw_exact_fits P rnd s m e m' e' :
  1 <= P -> round_raw P rnd s m e = (m', e', 0) -> fits P (Z.pos m).
Proof.
  intros HP. pose proof (round_raw_bounds P rnd s m e HP) as B.
  unfold round_raw in *. pose proof (digits_spec m) as Hs.
  destruct (Z.leb_spec (digits m) P) as [Hle|Hgt].
  - intros _. apply fits_small.
    assert (2 ^ digits m <= 2 ^ P) by (apply Z.pow_le_mono_r; lia). lia.
  - set (k := digits m - P) in *.
    destruct (Z.eqb_spec (Z.pos m mod 2 ^ k) 0) as [Hr|Hr].
    + intros _. exists (Z.shiftr (Z.pos m) k), k.
      assert (Pk : 0 < 2 ^ k) by (apply pow2_pos; unfold k; lia).
      assert (P0 : 0 < 2 ^ (P - 1)) by (apply pow2_pos; lia).
      split; [unfold k; lia|]. split; [|lia].
      rewrite Z.shiftr_div_pow2 by (unfold k; lia).
      pose proof (Z.div_mod (Z.pos m) (2 ^ k) ltac:(lia)). lia.
    + destruct (round_away _ _ _ _ _); [destruct (_ =? _)|]; discriminate.
Qed.

Lemma fits_round_raw_exact P rnd s m e :
  1 <= P -> fits P (Z.pos m) -> snd (round_raw P rnd s m e) = 0.
Proof.
  intros HP (q & j & Hj & E & Hq). unfold round_raw.
  pose proof (digits_spec m) as Hs.
  destruct (Z.leb_spec (digits m) P) as [Hle|Hgt]; [reflexivity|].
  set (k := digits m - P).
  assert (Hkj : k <= j).
  { destruct (Z.le_gt_cases k j) as [|Hlt]; [assumption|exfalso].
    assert (2 ^ (P + j) <= 2 ^ (digits m - 1)) by (apply Z.pow_le_mono_r; unfold k in *; lia).
    rewrite pow2_split in * by lia. pose proof (pow2_pos j Hj). nia. }
  assert (R : Z.pos m mod 2 ^ k = 0).
  { rewrite E. replace j with ((j - k) + k) by lia.
    rewrite pow2_split by (unfold k; lia). rewrite Z.mul_assoc.
    apply Z.mod_mul. pose proof (pow2_pos k ltac:(unfold k; lia)). lia. }
  rewrite R. reflexivity.
Qed.

(** The rounded significand of an exact rounding: the significand up to a
    power of 2. *)
Lemma fits_exact_transfer p rnd s m e m' e' P X :
  1 <= p -> round_raw p rnd s m e = (m', e', 0) -> 0 < X ->
  fits P (Z.pos m * X) <-> fits P (m' * X).
Proof.
  intros Hp. pose proof (round_raw_bounds p rnd s m e Hp) as B.
  unfold round_raw in *. pose proof (digits_pos m) as Hd.
  destruct (Z.leb_spec (digits m) p) as [Hle|Hgt].
  - intros H HX. injection H as <- _.
    rewrite Z.shiftl_mul_pow2 by lia.
    replace (Z.pos m * 2 ^ (p - digits m) * X)
      with (Z.pos m * X * 2 ^ (p - digits m)) by ring.
    symmetry. apply fits_scale; nia.
  - set (k := digits m - p) in *.
    destruct (Z.eqb_spec (Z.pos m mod 2 ^ k) 0) as [Hr|Hr].
    + intros H HX. injection H as <- _.
      assert (Pk : 0 < 2 ^ k) by (apply pow2_pos; unfold k; lia).
      assert (P0 : 0 < 2 ^ (p - 1)) by (apply pow2_pos; lia).
      assert (Hm : Z.pos m = Z.shiftr (Z.pos m) k * 2 ^ k).
      { rewrite Z.shiftr_div_pow2 by (unfold k; lia).
        pose proof (Z.div_mod (Z.pos m) (2 ^ k) ltac:(lia)). lia. }
      rewrite Hm at 1.
      replace (Z.shiftr (Z.pos m) k * 2 ^ k * X)
        with (Z.shiftr (Z.pos m) k * X * 2 ^ k) by ring.
      apply fits_scale; [unfold k; lia|nia].
    + destruct (round_away _ _ _ _ _); [destruct (_ =? _)|]; discriminate.
Qed.

Lemma digits_mul (m n : positive) :
  digits m + digits n - 1 <= digits (m * n) <= digits m + digits n.
Proof.
  pose proof (digits_spec m) as Hm. pose proof (digits_spec n) as Hn.
  pose proof (digits_pos m) as Pm. pose proof (digits_pos n) as Pn.
  pose proof (digits_spec (m * n)) as Hs. rewrite Pos2Z.inj_mul in Hs.
  pose proof (digits_pos (m * n)) as Pd.
  assert (L : 2 ^ (digits m + digits n - 2) <= Z.pos m * Z.pos n).
  { replace (digits m + digits n - 2) with ((digits m - 1) + (digits n - 1)) by lia.
    rewrite pow2_split by lia.
    pose proof (pow2_pos (digits m - 1) ltac:(lia)).
    pose proof (pow2_pos (digits n - 1) ltac:(lia)). nia. }
  assert (U : Z.pos m * Z.pos n < 2 ^ (digits m + digits n)).
  { rewrite pow2_split by lia. nia. }
  split.
  - destruct (Z.le_gt_cases (digits m + digits n - 1) (digits (m * n))); [assumption|].
    exfalso.
    assert (2 ^ digits (m * n) <= 2 ^ (digits m + digits n - 2)) by (apply pow2_le; lia).
    lia.
  - destruct (Z.le_gt_cases (digits (m * n)) (digits m + digits n)); [assumption|].
    exfalso.
    assert (2 ^ (digits m + digits n) <= 2 ^ (digits (m * n) - 1)) by (apply pow2_le; lia).
    lia.
Qed.

(** *** The error of the product of the two rounded sums *)

Lemma karatsuba_error (A B U V W : Q) (eu ev E p : Z) :
  (0 <= A)%Q -> (0 <= B)%Q ->
  (A <= U)%Q -> (U < A + 2 ^ (eu - p))%Q ->
  (B <= V)%Q -> (V < B + 2 ^ (ev - p))%Q ->
  (U < 2 ^ eu)%Q -> (V < 2 ^ ev)%Q ->
  (U * V <= W)%Q -> (W < U * V + 2 ^ (E - p))%Q ->
  eu + ev - 1 <= E ->
  (A * B <= W)%Q /\ (W < A * B + 5 * 2 ^ (E - p))%Q.
Proof.
  intros A0 B0 AU UA BV VB Uu Vv L H HE.
  pose proof (Qpow2_pos (E - p)) as Pg.
  pose proof (Qpow2_pos (eu - p)) as Pdu.
  pose proof (Qpow2_pos (ev - p)) as Pdv.
  assert (E1 : (2 ^ (eu - p) * 2 ^ ev <= 2 * 2 ^ (E - p))%Q).
  { rewrite <- Qpow2_add, <- Qpow2_succ. apply Qpow2_le. lia. }
  assert (E2 : (2 ^ (ev - p) * 2 ^ eu <= 2 * 2 ^ (E - p))%Q).
  { rewrite <- Qpow2_add, <- Qpow2_succ. apply Qpow2_le. lia. }
  set (g := (2 ^ (E - p))%Q) in *. set (du := (2 ^ (eu - p))%Q) in *.
  set (dv := (2 ^ (ev - p))%Q) in *. set (Pu := (2 ^ eu)%Q) in *.
  set (Pv := (2 ^ ev)%Q) in *.
  assert (X1 : (U * (V - B) <= Pu * dv)%Q) by nra.
  assert (X2 : (B * (U - A) <= Pv * du)%Q) by nra.
  split; nra.
Qed.

(** The exact sum of two numbers, in the exponent range. *)
Lemma add_exact_regular rnd s m e t n f :
  let l := Z.min (e - digits m) (f - digits n) in
  sgn (add_exact rnd (Fin s m e) (Fin t n f)) <> 0 ->
  exists r k E, add_exact rnd (Fin s m e) (Fin t n f) = Fin r k E /\
                l + 1 <= E <= Z.max e f + 1 /\ digits k <= Z.max e f - l + 1.
Proof.
  intros l H.
  destruct (add_exact_shape rnd s m e t n f) as [E|(r & k & E & Hk)]; fold l in E.
  - rewrite E in H. exfalso. apply H. reflexivity.
  - exists r, k, (l + digits k). pose proof (digits_pos k).
    split; [exact E|]. fold l in Hk. lia.
Qed.

(** What a positive answer of the contract of [mpfr_can_round] says, for an
    approximation from above in magnitude: the approximation less the error
    bound is a number of the same sign and the same truncation. *)
Lemma can_round_interval_spec s m e err rnd1 P :
  (rnd1 = MPFR_RNDU /\ s = false) \/ (rnd1 = MPFR_RNDD /\ s = true) ->
  can_round_interval (Fin s m e) err rnd1 MPFR_RNDZ P = true ->
  exists mo eo q f i1 i2,
    round_raw P MPFR_RNDZ s mo eo = (q, f, i1) /\
    round_raw P MPFR_RNDZ s m e = (q, f, i2) /\
    (Q_of_val (Fin false mo eo) == Q_of_val (Fin false m e) - 2 ^ (e - err))%Q.
Proof.
  assert (D1 : forall k, (Q_of_val (Fin true 1 (k + 1)) == - 2 ^ k)%Q).
  { intros k. unfold Q_of_val. change (digits 1) with 1.
    replace (k + 1 - 1) with k by lia. change (inject_Z 1) with 1%Q. ring. }
  assert (D2 : forall k, (Q_of_val (Fin false 1 (k + 1)) == 2 ^ k)%Q).
  { intros k. unfold Q_of_val. change (digits 1) with 1.
    replace (k + 1 - 1) with k by lia. change (inject_Z 1) with 1%Q. ring. }
  assert (N : forall m e, (Q_of_val (Fin true m e) == - Q_of_val (Fin false m e))%Q).
  { intros. unfold Q_of_val. ring. }
  intros [[-> ->]|[-> ->]]; unfold can_round_interval.
  - pose proof (Q_of_val_add_exact MPFR_RNDN false m e true 1 (e - err + 1)) as HQ.
    destruct (add_exact MPFR_RNDN (Fin false m e) (Fin true 1 (e - err + 1)))
      as [| | |s1 m1 e1]; try discriminate.
    destruct (round_raw P MPFR_RNDZ s1 m1 e1) as ((q1, f1), i1) eqn:R1.
    destruct (round_raw P MPFR_RNDZ false m e) as ((q2, f2), i2) eqn:R2.
    intros H. apply andb_true_iff in H. destruct H as [H H3].
    apply andb_true_iff in H. destruct H as [H1 H2].
    apply Z.eqb_eq in H2, H3. subst q2 f2.
    destruct s1; [discriminate|].
    exists m1, e1, q1, f1, i1, i2. split; [exact R1|]. split; [reflexivity|].
    rewrite HQ, D1. ring.
  - pose proof (Q_of_val_add_exact MPFR_RNDN true m e false 1 (e - err + 1)) as HQ.
    destruct (add_exact MPFR_RNDN (Fin true m e) (Fin false 1 (e - err + 1)))
      as [| | |s1 m1 e1]; try discriminate.
    destruct (round_raw P MPFR_RNDZ true m e) as ((q2, f2), i2) eqn:R2.
    destruct (round_raw P MPFR_RNDZ s1 m1 e1) as ((q1, f1), i1) eqn:R1.
    intros H. apply andb_true_iff in H. destruct H as [H H3].
    apply andb_true_iff in H. destruct H as [H1 H2].
    apply Z.eqb_eq in H2, H3. subst q2 f2.
    destruct s1; [|discriminate].
    exists m1, e1, q1, f1, i1, i2. split; [exact R1|]. split; [reflexivity|].
    rewrite N in HQ. rewrite D2, N in HQ. lra.
Qed.

Lemma mul_below_pow2 (a b da db p : Z) :
  a < 2 ^ da -> b < 2 ^ db -> 0 < a -> 0 < b -> 0 <= da -> 0 <= db ->
  da + db <= p -> 0 < a * b < 2 ^ p.
Proof.
  intros Ha Hb Pa Pb Hda Hdb Hp.
  assert (H : 2 ^ (da + db) <= 2 ^ p) by (apply Z.pow_le_mono_r; lia).
  rewrite pow2_split in H by lia. nia.
Qed.

Lemma away_RNDA s : away_mode MPFR_RNDA s.
Proof. intros q r h. reflexivity. Qed.

Lemma mag_pos m e : (0 < Q_of_val (Fin false m e))%Q.
Proof.
  pose proof (mag_bounds m e) as H. pose proof (Qpow2_pos (e - 1)). lra.
Qed.

Lemma mag_mul m e n f :
  (Q_of_val (Fin false (m * n) (e + f - (digits m + digits n - digits (m * n))))
   == Q_of_val (Fin false m e) * Q_of_val (Fin false n f))%Q.
Proof. exact (Q_of_val_mul_exact false m e false n f). Qed.

(** When the exact product fits the working precision, nothing is rounded
    in the turn. *)
Lemma fits_turn_exact p sa ma ea sb mb eb mu eu iu mv ev iv rnd1 s ew mW E iW :
  1 <= p ->
  round_raw p MPFR_RNDA sa ma ea = (Z.pos mu, eu, iu) ->
  round_raw p MPFR_RNDA sb mb eb = (Z.pos mv, ev, iv) ->
  round_raw p rnd1 s (mu * mv) ew = (Z.pos mW, E, iW) ->
  fits p (Z.pos (ma * mb)) ->
  iu = 0 /\ iv = 0 /\ iW = 0.
Proof.
  intros Hp Ru Rv RW F. rewrite Pos2Z.inj_mul in F.
  assert (Fa : fits p (Z.pos ma)) by (apply (fits_factor p _ (Z.pos mb)); [lia..|exact F]).
  assert (Fb : fits p (Z.pos mb)).
  { apply (fits_factor p _ (Z.pos ma)); [lia..|]. rewrite Z.mul_comm. exact F. }
  pose proof (fits_round_raw_exact p MPFR_RNDA sa ma ea Hp Fa) as Iu.
  pose proof (fits_round_raw_exact p MPFR_RNDA sb mb eb Hp Fb) as Iv.
  rewrite Ru in Iu. rewrite Rv in Iv. cbn in Iu, Iv. subst iu iv.
  split; [reflexivity|]. split; [reflexivity|].
  apply (fits_exact_transfer p MPFR_RNDA sa ma ea _ _ p (Z.pos mb) Hp Ru) in F; [|lia].
  rewrite Z.mul_comm in F.
  apply (fits_exact_transfer p MPFR_RNDA sb mb eb _ _ p (Z.pos mu) Hp Rv) in F; [|lia].
  rewrite Z.mul_comm, <- Pos2Z.inj_mul in F.
  pose proof (fits_round_raw_exact p rnd1 s (mu * mv) ew Hp F) as IW.
  rewrite RW in IW. exact IW.
Qed.

(** The exact product of the two exact sums is [x^2 - y^2]. *)
Lemma karatsuba_value sx mx ex sy my ey :
  let x := Fin sx mx ex in
  let y := Fin sy my ey in
  (Q_of_val (mul_exact (add_exact MPFR_RNDA x y) (add_exact MPFR_RNDA x (neg_val y)))
   == Q_of_val x * Q_of_val x - Q_of_val y * Q_of_val y)%Q.
Proof.
  intros x y. rewrite Q_of_val_mul_exact_all. unfold x, y.
  change (neg_val (Fin sy my ey)) with (Fin (negb sy) my ey).
  rewrite !Q_of_val_add_exact.
  change (Fin (negb sy) my ey) with (neg_val (Fin sy my ey)).
  rewrite Q_of_val_neg. ring.
Qed.

Section KaratsubaTurn.
Variables emin emax : Z.

Lemma product_rnd_cases (sa sb : bool) (mu mv : positive) (eu ev : Z) :
  let rnd1 := if 0 <? sgn (Fin sa mu eu) * sgn (Fin sb mv ev)
              then GMP_RNDU else GMP_RNDD in
  ((rnd1 = MPFR_RNDU /\ xorb sa sb = false) \/
   (rnd1 = MPFR_RNDD /\ xorb sa sb = true)) /\
  away_mode rnd1 (xorb sa sb).
Proof.
  destruct sa, sb; cbn; (split; [auto|intros q r h; reflexivity]).
Qed.

Lemma signed_mag s m e :
  (Q_of_val (Fin s m e)
   == if s then - Q_of_val (Fin false m e) else Q_of_val (Fin false m e))%Q.
Proof. unfold Q_of_val. destruct s; ring. Qed.

Lemma away_within_mag (s : bool) (m : positive) (e : Z) (n : positive) (f : Z)
  (err : Q) :
  (Q_of_val (Fin false m e) <= Q_of_val (Fin false n f))%Q ->
  (Q_of_val (Fin false n f) < Q_of_val (Fin false m e) + err)%Q ->
  away_within (Q_of_val (Fin s m e)) (Q_of_val (Fin s n f)) err s.
Proof.
  intros L U. pose proof (mag_pos m e) as P.
  pose proof (signed_mag s m e) as E1. pose proof (signed_mag s n f) as E2.
  unfold away_within. destruct s; lra.
Qed.

(** One turn of the loop at working precision [p], in numbers: the two
    sums, their product, the error of each, and the final rounding to [pr]
    bits. *)
Lemma turn_pure p pr rnd sx mx ex sy my ey :
  let x := Fin sx mx ex in
  let y := Fin sy my ey in
  let l := Z.min (ex - digits mx) (ey - digits my) in
  let M := Z.max ex ey in
  let a := add_exact MPFR_RNDA x y in
  let b := add_exact MPFR_RNDA x (neg_val y) in
  let u := karatsuba_u emin emax p x y in
  let v := karatsuba_v emin emax p x y in
  let rnd1 := product_rnd emin emax p x y in
  let uv := karatsuba_uv emin emax p rnd1 x y in
  let inexact := Z.lor (Z.lor (r_inex u) (r_inex v)) (r_inex uv) in
  let P2 := pr + (if rnd_eqb rnd GMP_RNDN then 1 else 0) in
  let R := round emin emax pr rnd (mul_exact a b) in
  emin <= l + 1 -> emin <= 2 * l -> M + 2 <= emax -> 2 * M + 5 <= emax ->
  1 <= pr -> P2 <= p ->
  sgn a <> 0 -> sgn b <> 0 ->
  sgn (r_val u) <> 0 /\ sgn (r_val v) <> 0 /\
  is_inf (r_val uv) = false /\ get_exp (r_val uv) <> emin /\
  (r_inex R = 0 -> inexact = 0) /\
  (2 * (M - l + 1) <= p -> inexact = 0) /\
  (inexact = 0 \/ can_round_interval (r_val uv) (p - 3) rnd1 GMP_RNDZ P2 = true ->
   round emin emax pr rnd (r_val uv) = R) /\
  away_within (Q_of_val a) (Q_of_val (r_val u))
    (2 ^ (get_exp (r_val u) - p)) (signbit (r_val u)) /\
  away_within (Q_of_val b) (Q_of_val (r_val v))
    (2 ^ (get_exp (r_val v) - p)) (signbit (r_val v)) /\
  away_within (Q_of_val (mul_exact a b)) (Q_of_val (r_val uv))
    (5 * 2 ^ (get_exp (r_val uv) - p)) (signbit (r_val uv)).
Proof.
  intros x y l M a b u v rnd1 uv inexact P2 R H1 H2 H3 H4 Hpr HP2 Ha Hb.
  assert (Hp : 1 <= p) by (unfold P2 in HP2; destruct (rnd_eqb rnd GMP_RNDN); lia).
  assert (Hprp : pr <= p) by (unfold P2 in HP2; destruct (rnd_eqb rnd GMP_RNDN); lia).
  destruct (add_exact_regular MPFR_RNDA sx mx ex sy my ey Ha)
    as (sa & ma & ea & Ea & Ba & Da).
  destruct (add_exact_regular MPFR_RNDA sx mx ex (negb sy) my ey Hb)
    as (sb & mb & eb & Eb & Bb & Db).
  fold l M in Ba, Da, Bb, Db.
  destruct (round_regular emin emax p MPFR_RNDA sa ma ea Hp ltac:(lia) ltac:(lia))
    as (mu & eu & iu & Ru & Eu & Du & Bu).
  destruct (round_regular emin emax p MPFR_RNDA sb mb eb Hp ltac:(lia) ltac:(lia))
    as (mv & ev & iv & Rv & Ev & Dv & Bv).
  assert (Aa : a = Fin sa ma ea) by exact Ea.
  assert (Ab : b = Fin sb mb eb) by exact Eb.
  assert (Uu : u = mk_rounded (Fin sa mu eu) (signed sa iu) false).
  { unfold u, karatsuba_u, add_val. fold x y. fold a. rewrite Aa. exact Eu. }
  assert (Vv : v = mk_rounded (Fin sb mv ev) (signed sb iv) false).
  { unfold v, karatsuba_v, sub_val. fold x y. fold b. rewrite Ab. exact Ev. }
  set (s := xorb sa sb).
  set (ew := eu + ev - (digits mu + digits mv - digits (mu * mv))).
  pose proof (digits_mul mu mv) as Dw.
  assert (Hr1 : rnd1 = if 0 <? sgn (Fin sa mu eu) * sgn (Fin sb mv ev)
                       then GMP_RNDU else GMP_RNDD).
  { unfold rnd1, product_rnd. fold x y. fold u v. rewrite Uu, Vv. reflexivity. }
  destruct (product_rnd_cases sa sb mu mv eu ev) as [Hcase Haway].
  rewrite <- Hr1 in Hcase, Haway. fold s in Hcase, Haway.
  destruct (round_regular emin emax p rnd1 s (mu * mv) ew Hp
              ltac:(unfold ew; lia) ltac:(unfold ew; lia))
    as (mW & E & iW & RW & EW & DW & BW).
  assert (UV : uv = mk_rounded (Fin s mW E) (signed s iW) false).
  { unfold uv, karatsuba_uv, mul_val. fold x y. fold u v. rewrite Uu, Vv. exact EW. }
  set (et := ea + eb - (digits ma + digits mb - digits (ma * mb))).
  pose proof (digits_mul ma mb) as Dt.
  assert (Et : mul_exact a b = Fin s (ma * mb) et) by (rewrite Aa, Ab; reflexivity).
  assert (EX : fits p (Z.pos (ma * mb)) -> inexact = 0).
  { intros F.
    destruct (fits_turn_exact p sa ma ea sb mb eb mu eu iu mv ev iv rnd1 s ew mW E iW
                Hp Ru Rv RW F) as (-> & -> & ->).
    unfold inexact. rewrite Uu, Vv, UV. cbn [r_inex]. rewrite !signed_0. reflexivity. }
  (* the numbers *)
  destruct (away_spec p MPFR_RNDA sa ma ea mu eu iu Hp (away_RNDA sa) Ru Du)
    as (Qu1 & Qu2 & Qu3).
  destruct (away_spec p MPFR_RNDA sb mb eb mv ev iv Hp (away_RNDA sb) Rv Dv)
    as (Qv1 & Qv2 & Qv3).
  destruct (away_spec p rnd1 s (mu * mv) ew mW E iW Hp Haway RW DW)
    as (QW1 & QW2 & QW3).
  unfold ew in QW1, QW2, QW3. rewrite mag_mul in QW1, QW2, QW3.
  pose proof (mag_mul ma ea mb eb) as Qt. fold et in Qt.
  pose proof (mag_pos ma ea) as Pa. pose proof (mag_pos mb eb) as Pb.
  pose proof (mag_bounds mu eu) as Mu. pose proof (mag_bounds mv ev) as Mv.
  destruct (karatsuba_error _ _ _ _ _ eu ev E p
              (Qlt_le_weak _ _ Pa) (Qlt_le_weak _ _ Pb)
              Qu1 Qu2 Qv1 Qv2 (proj2 Mu) (proj2 Mv) QW1 QW2
              ltac:(unfold ew in *; lia)) as (L1 & L2).
  rewrite <- Qt in L1, L2.
  rewrite Et, Aa, Ab, Uu, Vv, UV. cbn [r_val r_inex get_exp signbit].
  split; [destruct sa; discriminate|]. split; [destruct sb; discriminate|].
  split; [reflexivity|]. split; [unfold ew in *; lia|].
  split; [|split; [|split; [|split; [|split]]]].
  - (* an exact final rounding *)
    unfold R. rewrite Et.
    destruct (round_regular emin emax pr rnd s (ma * mb) et Hpr
                ltac:(unfold et; lia) ltac:(unfold et; lia))
      as (mR & eR & iR & RR & ER & _).
    rewrite ER. cbn [r_inex]. intros Hz. apply signed_eq_0 in Hz. subst iR.
    apply EX. apply (fits_mono pr); [assumption|].
    exact (round_raw_exact_fits pr rnd s (ma * mb) et _ _ Hpr RR).
  - (* a large working precision *)
    intros Hbig. apply EX. apply fits_small. rewrite Pos2Z.inj_mul.
    pose proof (digits_pos ma) as Pma. pose proof (digits_pos mb) as Pmb.
    apply (mul_below_pow2 _ _ (digits ma) (digits mb));
      [apply digits_spec|apply digits_spec|lia..].
  - (* the final rounding *)
    intros Hok. unfold R. rewrite Et.
    assert (HE : emin <= E) by (unfold ew in *; lia).
    apply (round_same emin emax pr rnd s mW E (ma * mb) et Hpr HE).
    change (pr + (if rnd_eqb rnd MPFR_RNDN then 1 else 0)) with P2.
    assert (HP2' : 1 <= P2) by (unfold P2; destruct (rnd_eqb rnd GMP_RNDN); lia).
    destruct (Z.eq_dec inexact 0) as [Hz|Hnz].
    + (* everything is exact *)
      unfold inexact in Hz. rewrite Uu, Vv, UV in Hz. cbn [r_inex] in Hz.
      apply Z.lor_eq_0_iff in Hz. destruct Hz as [Hz Iz].
      apply Z.lor_eq_0_iff in Hz. destruct Hz as [Iu Iv].
      apply signed_eq_0 in Iu, Iv, Iz.
      apply trunc_ext; [exact HP2'|].
      rewrite (QW3 Iz), (Qu3 Iu), (Qv3 Iv), Qt. reflexivity.
    + destruct Hok as [Hz|Hcr]; [contradiction|].
      destruct (can_round_interval_spec s mW E (p - 3) rnd1 P2 Hcase Hcr)
        as (mo & eo & q & f & i1 & i2 & Ro & RW2 & Qo).
      assert (E8 : (2 ^ (E - (p - 3)) == 8 * 2 ^ (E - p))%Q).
      { replace (E - (p - 3)) with (3 + (E - p)) by lia. rewrite Qpow2_add.
        reflexivity. }
      pose proof (Qpow2_pos (E - p)) as Pg.
      destruct (trunc_between P2 s mo eo (ma * mb) et mW E q f i1 i2 HP2' Ro RW2
                  ltac:(lra) L1) as [i Rt].
      assert (Hi : i = -1).
      { pose proof (trunc_spec P2 s (ma * mb) et HP2') as S. rewrite Rt in S.
        destruct S as (_ & _ & [[-> _]|[-> _]]); [|reflexivity].
        exfalso. apply Hnz, EX. apply (fits_mono P2); [assumption|].
        exact (round_raw_exact_fits P2 MPFR_RNDZ s (ma * mb) et _ _ HP2' Rt). }
      subst i.
      pose proof (trunc_exactness P2 s (ma * mb) et mW E q f (-1) i2 HP2' Rt RW2 L1
                    eq_refl) as ->.
      rewrite Rt, RW2. reflexivity.
  - apply away_within_mag; assumption.
  - apply away_within_mag; assumption.
  - apply away_within_mag; assumption.
Qed.

Local Arguments Q_of_val : simpl never.

(** X10. The errors of one turn of the loop at working precision [p]
    (lines 275-280 and 295, "The error is bounded above by 1 ulp" and
    "error 5"), for finite non-zero [x] and [y] with [x + y] and [x - y]
    non-zero, in an exponent range in which neither the sums nor the product
    overflow or underflow: [u] is [x + y] and [v] is [x - y], each rounded
    away from zero with an error below one unit in the last place of the
    result; the product [u * v] has the sign of [x^2 - y^2], is not smaller
    in magnitude, and differs from it by less than 5 units in its last
    place. *)
Theorem sqr_turn_errors p sx mx ex sy my ey :
  let x := Fin sx mx ex in
  let y := Fin sy my ey in
  let l := Z.min (ex - digits mx) (ey - digits my) in
  let M := Z.max ex ey in
  let u := karatsuba_u emin emax p x y in
  let v := karatsuba_v emin emax p x y in
  let uv := karatsuba_uv emin emax p (product_rnd emin emax p x y) x y in
  1 <= p ->
  emin <= l + 1 -> emin <= 2 * l -> M + 2 <= emax -> 2 * M + 5 <= emax ->
  sgn (add_exact MPFR_RNDA x y) <> 0 ->
  sgn (add_exact MPFR_RNDA x (neg_val y)) <> 0 ->
  away_within (Q_of_val x + Q_of_val y) (Q_of_val (r_val u))
    (2 ^ (get_exp (r_val u) - p)) (signbit (r_val u)) /\
  away_within (Q_of_val x - Q_of_val y) (Q_of_val (r_val v))
    (2 ^ (get_exp (r_val v) - p)) (signbit (r_val v)) /\
  away_within (Q_of_val x * Q_of_val x - Q_of_val y * Q_of_val y)
    (Q_of_val (r_val uv)) (5 * 2 ^ (get_exp (r_val uv) - p))
    (signbit (r_val uv)).
Proof.
  intros x y l M u v uv Hp H1 H2 H3 H4 Ha Hb.
  destruct (turn_pure p 1 MPFR_RNDZ sx mx ex sy my ey H1 H2 H3 H4
              ltac:(lia) ltac:(cbn; lia) Ha Hb)
    as (_ & _ & _ & _ & _ & _ & _ & W1 & W2 & W3).
  fold x y u v uv in W1, W2, W3.
  pose proof (karatsuba_value sx mx ex sy my ey) as Qt. cbv zeta in Qt.
  fold x y in Qt.
  assert (Qa : (Q_of_val (add_exact MPFR_RNDA x y) == Q_of_val x + Q_of_val y)%Q)
    by apply Q_of_val_add_exact.
  assert (Qb : (Q_of_val (add_exact MPFR_RNDA x (neg_val y))
                == Q_of_val x - Q_of_val y)%Q).
  { unfold x, y. change (neg_val (Fin sy my ey)) with (Fin (negb sy) my ey).
    rewrite Q_of_val_add_exact.
    change (Fin (negb sy) my ey) with (neg_val (Fin sy my ey)).
    rewrite Q_of_val_neg. ring. }
  unfold away_within in *.
  set (gu := (2 ^ (get_exp (r_val u) - p))%Q) in *.
  set (gv := (2 ^ (get_exp (r_val v) - p))%Q) in *.
  set (guv := (2 ^ (get_exp (r_val uv) - p))%Q) in *.
  split; [|split].
  - revert W1. destruct (signbit (r_val u)); intros (A1 & A2 & A3);
      (split; [|split]); lra.
  - revert W2. destruct (signbit (r_val v)); intros (A1 & A2 & A3);
      (split; [|split]); lra.
  - revert W3. destruct (signbit (r_val uv)); intros (A1 & A2 & A3);
      (split; [|split]); lra.
Qed.

End KaratsubaTurn.

(** The operand [(1 + 2^-52) + (0.75 + 2^-30) i] at 53 bits: in the first
    turn, at 64 bits, the two sums are exact and their product is rounded. *)
Lemma sqr_turn_errors_witness :
  let x := Fin false 4503599627370497 1 in
  let y := Fin false 6755399449444352 0 in
  let p := 64 in
  let l := Z.min (1 - digits 4503599627370497) (0 - digits 6755399449444352) in
  let M := Z.max 1 0 in
  let u := karatsuba_u default_emin default_emax p x y in
  let v := karatsuba_v default_emin default_emax p x y in
  let uv := karatsuba_uv default_emin default_emax p
              (product_rnd default_emin default_emax p x y) x y in
  (1 <= p /\ default_emin <= l + 1 /\ default_emin <= 2 * l /\
   M + 2 <= default_emax /\ 2 * M + 5 <= default_emax /\
   sgn (add_exact MPFR_RNDA x y) <> 0 /\
   sgn (add_exact MPFR_RNDA x (neg_val y)) <> 0) /\
  away_within (Q_of_val x + Q_of_val y) (Q_of_val (r_val u))
    (2 ^ (get_exp (r_val u) - p)) (signbit (r_val u)) /\
  away_within (Q_of_val x - Q_of_val y) (Q_of_val (r_val v))
    (2 ^ (get_exp (r_val v) - p)) (signbit (r_val v)) /\
  away_within (Q_of_val x * Q_of_val x - Q_of_val y * Q_of_val y)
    (Q_of_val (r_val uv)) (5 * 2 ^ (get_exp (r_val uv) - p))
    (signbit (r_val uv)).
Proof.
  intros x y p l M u v uv.
  assert (H0 : 1 <= p) by (vm_compute; discriminate).
  assert (H1 : default_emin <= l + 1) by (vm_compute; discriminate).
  assert (H2 : default_emin <= 2 * l) by (vm_compute; discriminate).
  assert (H3 : M + 2 <= default_emax) by (vm_compute; discriminate).
  assert (H4 : 2 * M + 5 <= default_emax) by (vm_compute; discriminate).
  assert (H5 : sgn (add_exact MPFR_RNDA x y) <> 0) by (vm_compute; discriminate).
  assert (H6 : sgn (add_exact MPFR_RNDA x (neg_val y)) <> 0)
    by (vm_compute; discriminate).
  split; [tauto|].
  exact (sqr_turn_errors default_emin default_emax 64
           false 4503599627370497 1 false 6755399449444352 0
           H0 H1 H2 H3 H4 H5 H6).
Defined.

Section KaratsubaLoop.
Variables emin emax : Z.
Variable can_round : mpfr_val -> Z -> mpfr_rnd_t -> mpfr_rnd_t -> Z -> bool.

(** A turn of the loop in which the two sums are not zero and the product
    is neither infinite nor of exponent [emin]: the turn comes to the test
    of [ok]. *)
Lemma body_regular rop op rnd p s :
  let x := val_of (mem s (Local sqr_x)) in
  let y := val_of (mem s (Im op)) in
  let u := karatsuba_u emin emax p x y in
  let v := karatsuba_v emin emax p x y in
  let rnd1 := product_rnd emin emax p x y in
  let uv := karatsuba_uv emin emax p rnd1 x y in
  let inexact := Z.lor (Z.lor (r_inex u) (r_inex v)) (r_inex uv) in
  let pr := prec_of (mem s (Re rop)) in
  let ok := (inexact =? 0)
            || can_round (r_val uv) (p - 3) rnd1 GMP_RNDZ
                 (pr + (if rnd_eqb (MPC_RND_RE rnd) GMP_RNDN then 1 else 0)) in
  let R := round emin emax pr (MPC_RND_RE rnd) (r_val uv) in
  sgn (r_val u) <> 0 -> sgn (r_val v) <> 0 ->
  is_inf (r_val uv) = false -> get_exp (r_val uv) <> emin ->
  exists s',
    sqr_body emin emax can_round rop op rnd p s
    = Returns (if ok then Exit (if r_inex R =? 0 then inexact else r_inex R)
               else Again) s' /\
    (ok = true -> val_of (mem s' (Re rop)) = r_val R).
Proof.
  intros x y u v rnd1 uv inexact pr ok R Hu Hv Hinf Hexp.
  subst R ok inexact uv rnd1 u v.
  unfold karatsuba_uv, product_rnd, karatsuba_u, karatsuba_v in *.
  set (U := add_val emin emax p MPFR_RNDA x y) in *.
  set (V := sub_val emin emax p MPFR_RNDA x y) in *.
  unfold sqr_body. exec. fold x y. fold U V.
  replace ((sgn (r_val U) =? 0) || (sgn (r_val V) =? 0)) with false
    by (symmetry; apply orb_false_iff; split; apply Z.eqb_neq; assumption).
  apply Z.eqb_neq in Hexp.
  destruct (0 <? sgn (r_val U) * sgn (r_val V)) eqn:Hpos; exec;
    rewrite ?Hexp; exec; rewrite Hinf; exec; rewrite ?Hexp;
    unfold sqr_ok, sqr_if_ok; exec; fold pr;
    match goal with
    | |- context [if ?b then _ else _] =>
        lazymatch b with
        | (_ || _)%bool => destruct b eqn:Hok
        end
    end; exec; rewrite ?Nat.eqb_refl;
    (eexists; split; [reflexivity|]); exec; rewrite ?Nat.eqb_refl;
    (reflexivity || discriminate).
Qed.



Local Arguments Q_of_val : simpl never.


Lemma loop_correct_turns rop op rnd pr sx mx ex sy my ey :
  let x := Fin sx mx ex in
  let y := Fin sy my ey in
  let l := Z.min (ex - digits mx) (ey - digits my) in
  let M := Z.max ex ey in
  let a := add_exact MPFR_RNDA x y in
  let b := add_exact MPFR_RNDA x (neg_val y) in
  let R := round emin emax pr (MPC_RND_RE rnd) (mul_exact a b) in
  can_round_sound can_round ->
  emin <= l + 1 -> emin <= 2 * l -> M + 2 <= emax -> 2 * M + 5 <= emax ->
  1 <= pr -> sgn a <> 0 -> sgn b <> 0 ->
  forall n prec s,
    val_of (mem s (Local sqr_x)) = x -> val_of (mem s (Im op)) = y ->
    prec_of (mem s (Re rop)) = pr -> pr <= prec ->
    2 * (M - l + 1) - next_prec prec <= 5 * Z.of_nat n ->
    exists s',
      sqr_loop emin emax can_round (S n) rop op rnd prec s = Returns (r_inex R) s' /\
      val_of (mem s' (Re rop)) = r_val R.
Proof.
  intros x y l M a b R Hsound H1 H2 H3 H4 Hpr Ha Hb.
  induction n as [|n IH]; intros prec s Hx Hy Hp Hle Hn.
  - pose proof (next_prec_grows prec) as Hg.
    set (p := next_prec prec) in *.
    destruct (turn_pure emin emax p pr (MPC_RND_RE rnd) sx mx ex sy my ey
                H1 H2 H3 H4 Hpr
                ltac:(destruct (rnd_eqb (MPC_RND_RE rnd) GMP_RNDN); lia) Ha Hb)
      as (T1 & T2 & T3 & T4 & T5 & T6 & T7 & _).
    fold x y l M a b R in T1, T2, T3, T4, T5, T6, T7.
    pose proof (body_regular rop op rnd p s) as HB. cbv zeta in HB.
    rewrite Hx, Hy, Hp in HB.
    destruct (HB T1 T2 T3 T4) as (s1 & E1 & V1). clear HB.
    rewrite (T6 ltac:(lia)) in E1, V1. cbn [Z.eqb orb] in E1, V1.
    change (0 =? 0) with true in E1, V1. cbn [orb] in E1, V1.
    rewrite (T7 (or_introl (T6 ltac:(lia)))) in E1, V1.
    exists s1. split; [|apply V1; reflexivity].
    cbn [sqr_loop]. fold p. cbn [bind]. rewrite E1.
    destruct (Z.eqb_spec (r_inex R) 0) as [E|E]; [rewrite E|]; reflexivity.
  - pose proof (next_prec_grows prec) as Hg.
    change (sqr_loop emin emax can_round (S (S n)) rop op rnd prec s)
      with (bind (sqr_body emin emax can_round rop op rnd (next_prec prec))
              (fun c => match c with
                        | Exit inex_re => ret inex_re
                        | Again => sqr_loop emin emax can_round (S n) rop op rnd
                                     (next_prec prec)
                        end) s).
    set (p := next_prec prec) in *.
    destruct (turn_pure emin emax p pr (MPC_RND_RE rnd) sx mx ex sy my ey
                H1 H2 H3 H4 Hpr
                ltac:(destruct (rnd_eqb (MPC_RND_RE rnd) GMP_RNDN); lia) Ha Hb)
      as (T1 & T2 & T3 & T4 & T5 & T6 & T7 & _).
    fold x y l M a b R in T1, T2, T3, T4, T5, T6, T7.
    pose proof (body_regular rop op rnd p s) as HB. cbv zeta in HB.
    pose proof (body_again_inputs emin emax can_round rop op rnd p s) as HA.
    rewrite Hx, Hy, Hp in HB.
    destruct (HB T1 T2 T3 T4) as (s1 & E1 & V1). clear HB.
    cbn [bind]. rewrite E1 in *.
    match type of E1 with
    | _ = Returns (if ?b then _ else _) _ => destruct b eqn:Hok
    end.
    + exists s1. split; [|rewrite <- T7; [apply V1; reflexivity|]].
      * rewrite T7.
        -- cbn [ret]. destruct (Z.eqb_spec (r_inex R) 0) as [E|E];
             [rewrite E, (T5 E)|]; reflexivity.
        -- apply orb_true_iff in Hok. destruct Hok as [Hz|Hc];
             [left; apply Z.eqb_eq; exact Hz|right; apply Hsound; exact Hc].
      * apply orb_true_iff in Hok. destruct Hok as [Hz|Hc];
          [left; apply Z.eqb_eq; exact Hz|right; apply Hsound; exact Hc].
    + destruct (HA s1 eq_refl) as (Hx' & Hy' & Hp').
      apply IH.
      * rewrite Hx'. exact Hx.
      * rewrite Hy'. exact Hy.
      * rewrite Hp'. exact Hp.
      * lia.
      * pose proof (next_prec_grows p). lia.
Qed.


(** X9. [mpc_sqr] on a finite operand [x + iy] whose exponents differ by at
    most half the larger precision (the loop of lines 261-360), with
    [x + y] and [x - y] non-zero, in an exponent range wide enough for the
    sums and the product ([emin <= l + 1], [emin <= 2 * l] for the exponent
    [l] of the last bit of the operand, and [M + 2 <= emax],
    [2 * M + 5 <= emax] for its larger exponent [M]), when [mpfr_can_round]
    answers yes only where its documented contract holds: with enough fuel
    the call returns, whether or not [rop == op]; the real part of the
    result is [x^2 - y^2] rounded once to the precision of the real part in
    its rounding mode, and the real flag is the sign of the ternary value of
    that rounding. *)
Theorem sqr_karatsuba_real_part rop op rnd s sx mx ex sy my ey :
  let X := Fin sx mx ex in
  let Y := Fin sy my ey in
  let pr := prec_of (mem s (Re rop)) in
  let l := Z.min (ex - digits mx) (ey - digits my) in
  let M := Z.max ex ey in
  let exact := mul_exact (add_exact MPFR_RNDA X Y) (add_exact MPFR_RNDA X (neg_val Y)) in
  let R := round emin emax pr (MPC_RND_RE rnd) exact in
  can_round_sound can_round ->
  val_of (mem s (Re op)) = X -> val_of (mem s (Im op)) = Y ->
  digits mx = prec_of (mem s (Re op)) ->
  1 <= pr ->
  SAFE_ABS (ex - ey)
    <= Z.quot (Z.max (prec_of (mem s (Re op))) (prec_of (mem s (Im op)))) 2 ->
  emin <= l + 1 -> emin <= 2 * l -> M + 2 <= emax -> 2 * M + 5 <= emax ->
  sgn (add_exact MPFR_RNDA X Y) <> 0 ->
  sgn (add_exact MPFR_RNDA X (neg_val Y)) <> 0 ->
  (Q_of_val exact == Q_of_val X * Q_of_val X - Q_of_val Y * Q_of_val Y)%Q /\
  exists fuel, forall fuel', (fuel <= fuel')%nat ->
    exists inex_re inex_im s',
      mpc_sqr emin emax can_round fuel' rop op rnd s
      = Returns (inex_re, inex_im) s' /\
      val_of (mem s' (Re rop)) = r_val R /\
      inex_re = Z.sgn (r_inex R).
Proof.
  intros X Y pr l M exact R Hsound Hx Hy Dx Hpr Hskew H1 H2 H3 H4 Ha Hb.
  split; [apply karatsuba_value|].
  exists (S (Z.to_nat (2 * (M - l + 1)))). intros fuel' Hn.
  pose proof (digits_pos mx) as Pmx. pose proof (digits_pos my) as Pmy.
  subst R exact X Y pr.
  destruct (mem s (Re op)) as [px vx] eqn:Ere.
  destruct (mem s (Im op)) as [py vy] eqn:Eim.
  cbn in Hx, Hy, Dx, Hskew. subst vx vy.
  apply Z.ltb_ge in Hskew.
  unfold mpc_sqr. exec.
  destruct (Nat.eqb rop op) eqn:Hro; exec.
  - apply Nat.eqb_eq in Hro. subst rop. rewrite Ere, ?Eim in *. cbn in Hpr.
    rewrite (round_exact emin emax px GMP_RNDN (Fin sx mx ex))
      by (split; [congruence|unfold l, M in *; lia]).
    exec. unfold sqr_re_part. exec. rewrite Hskew.
    destruct fuel' as [|n]; [lia|].
    assert (Hn' : 2 * (M - l + 1) <= Z.of_nat n) by lia.
    unfold bind, write, ret. cbn [mem underflow_flag].
    match goal with
    | |- context [sqr_loop _ _ _ (S n) ?r ?o ?rd ?prec ?S] =>
        destruct (loop_correct_turns r o rd px sx mx ex sy my ey
                    Hsound H1 H2 H3 H4 Hpr Ha Hb n prec S
                    ltac:(exec; reflexivity) ltac:(exec; reflexivity)
                    ltac:(exec; reflexivity) ltac:(lia)
                    ltac:(pose proof (next_prec_grows prec); fold l M; lia))
          as (s1 & Hrun & Hval)
    end.
    rewrite Hrun.
    destruct (im_part_keeps_re emin emax op op rnd s1) as (i & t' & Him & Hre).
    rewrite Him. do 3 eexists. split; [reflexivity|].
    rewrite Hre, Hval. exec. auto.
  - exec. unfold sqr_re_part. exec. rewrite Hskew.
    destruct fuel' as [|n]; [lia|].
    assert (Hn' : 2 * (M - l + 1) <= Z.of_nat n) by lia.
    unfold bind, write, ret. cbn [mem underflow_flag].
    match goal with
    | |- context [sqr_loop _ _ _ (S n) ?r ?o ?rd ?prec ?S] =>
        destruct (loop_correct_turns r o rd (prec_of (mem s (Re rop)))
                    sx mx ex sy my ey
                    Hsound H1 H2 H3 H4 Hpr Ha Hb n prec S
                    ltac:(exec; reflexivity) ltac:(exec; reflexivity)
                    ltac:(exec; rewrite ?Hro; reflexivity) ltac:(lia)
                    ltac:(pose proof (next_prec_grows prec); fold l M; lia))
          as (s1 & Hrun & Hval)
    end.
    rewrite Hrun.
    destruct (im_part_keeps_re emin emax rop op rnd s1) as (i & t' & Him & Hre).
    rewrite Him. do 3 eexists. split; [reflexivity|].
    rewrite Hre, Hval. exec. auto.
Qed.

End KaratsubaLoop.

(** The operand [(1 + 2^-52) + (0.75 + 2^-30) i] at 53 bits, rounded to
    nearest: the loop is left in its first turn, in which the product is
    rounded. *)
Lemma sqr_karatsuba_real_part_witness :
  let x := mk_num 53 false 4503599627370497 (-52) in
  let y := mk_num 53 false 805306369 (-30) in
  let s := init_state 1%nat 0%nat 53 53 x y in
  let X := Fin false 4503599627370497 1 in
  let Y := Fin false 6755399449444352 0 in
  let pr := prec_of (mem s (Re 1%nat)) in
  let l := Z.min (1 - digits 4503599627370497) (0 - digits 6755399449444352) in
  let M := Z.max 1 0 in
  let exact := mul_exact (add_exact MPFR_RNDA X Y)
                 (add_exact MPFR_RNDA X (neg_val Y)) in
  let R := round default_emin default_emax pr (MPC_RND_RE MPC_RNDNN) exact in
  (can_round_sound can_round_interval /\
   val_of (mem s (Re 0%nat)) = X /\ val_of (mem s (Im 0%nat)) = Y /\
   digits 4503599627370497 = prec_of (mem s (Re 0%nat)) /\
   1 <= pr /\
   SAFE_ABS (1 - 0)
   <= Z.quot (Z.max (prec_of (mem s (Re 0%nat))) (prec_of (mem s (Im 0%nat)))) 2 /\
   default_emin <= l + 1 /\ default_emin <= 2 * l /\
   M + 2 <= default_emax /\ 2 * M + 5 <= default_emax /\
   sgn (add_exact MPFR_RNDA X Y) <> 0 /\
   sgn (add_exact MPFR_RNDA X (neg_val Y)) <> 0) /\
  (Q_of_val exact == Q_of_val X * Q_of_val X - Q_of_val Y * Q_of_val Y)%Q /\
  exists fuel, forall fuel', (fuel <= fuel')%nat ->
    exists inex_re inex_im s',
      mpc_sqr default_emin default_emax can_round_interval fuel' 1%nat 0%nat
        MPC_RNDNN s = Returns (inex_re, inex_im) s' /\
      val_of (mem s' (Re 1%nat)) = r_val R /\
      inex_re = Z.sgn (r_inex R).
Proof.
  intros x y s X Y pr l M exact R.
  assert (H0 : can_round_sound can_round_interval)
    by (intros b err rnd1 rnd2 P H; exact H).
  assert (H1 : val_of (mem s (Re 0%nat)) = X) by reflexivity.
  assert (H2 : val_of (mem s (Im 0%nat)) = Y) by reflexivity.
  assert (H3 : digits 4503599627370497 = prec_of (mem s (Re 0%nat)))
    by reflexivity.
  assert (H4 : 1 <= pr) by (vm_compute; discriminate).
  assert (H5 : SAFE_ABS (1 - 0)
               <= Z.quot (Z.max (prec_of (mem s (Re 0%nat)))
                                (prec_of (mem s (Im 0%nat)))) 2)
    by (vm_compute; discriminate).
  assert (H6 : default_emin <= l + 1) by (vm_compute; discriminate).
  assert (H7 : default_emin <= 2 * l) by (vm_compute; discriminate).
  assert (H8 : M + 2 <= default_emax) by (vm_compute; discriminate).
  assert (H9 : 2 * M + 5 <= default_emax) by (vm_compute; discriminate).
  assert (H10 : sgn (add_exact MPFR_RNDA X Y) <> 0) by (vm_compute; discriminate).
  assert (H11 : sgn (add_exact MPFR_RNDA X (neg_val Y)) <> 0)
    by (vm_compute; discriminate).
  split; [tauto|].
  exact (sqr_karatsuba_real_part default_emin default_emax can_round_interval
           1%nat 0%nat MPC_RNDNN s false 4503599627370497 1
           false 6755399449444352 0
           H0 H1 H2 H3 H4 H5 H6 H7 H8 H9 H10 H11).
Defined.

(** ** An overflow of a negative product (X11) *)

Section NegativeOverflow.
Variables emin emax : Z.
Variable can_round : mpfr_val -> Z -> mpfr_rnd_t -> mpfr_rnd_t -> Z -> bool.

(** The largest number of [p] bits, rounded toward zero to fewer bits, is
    the largest number of that many bits. *)
Lemma round_largest p pr rnd neg :
  1 <= pr -> pr < p -> emin <= emax -> is_like_rndz rnd neg = true ->
  round emin emax pr rnd (Fin neg (Z.to_pos (2 ^ p - 1)) emax)
  = mpfr_overflow emax pr rnd neg.
Proof.
  intros Hpr Hp Hrange Hlike.
  pose proof (pow2_pred_bounds p ltac:(lia)) as Bp.
  assert (P0 : 0 < 2 ^ (p - 1)) by (apply pow2_pos; lia).
  assert (Hd : digits (Z.to_pos (2 ^ p - 1)) = p) by (apply digits_to_pos; lia).
  unfold round, round_raw. rewrite Hd, Z2Pos.id by lia.
  destruct (Z.leb_spec p pr) as [|_]; [lia|].
  set (k := p - pr).
  assert (Pk : 2 <= 2 ^ k).
  { change 2 with (2 ^ 1) at 1. apply Z.pow_le_mono_r; unfold k; lia. }
  assert (E : 2 ^ p - 1 = (2 ^ pr - 1) * 2 ^ k + (2 ^ k - 1)).
  { replace p with (pr + k) at 1 by (unfold k; lia).
    rewrite pow2_split by (unfold k; lia). ring. }
  assert (Hq : Z.shiftr (2 ^ p - 1) k = 2 ^ pr - 1).
  { rewrite Z.shiftr_div_pow2 by (unfold k; lia). symmetry.
    apply (Z.div_unique _ _ _ (2 ^ k - 1)); [left; lia|lia]. }
  assert (Hr : (2 ^ p - 1) mod 2 ^ k = 2 ^ k - 1).
  { symmetry. apply (Z.mod_unique _ _ (2 ^ pr - 1)); [left; lia|lia]. }
  rewrite Hq, Hr.
  destruct (Z.eqb_spec (2 ^ k - 1) 0) as [|_]; [lia|].
  assert (Ha : round_away rnd neg (2 ^ pr - 1) (2 ^ k - 1) (2 ^ (k - 1)) = false).
  { destruct rnd, neg; try discriminate; reflexivity. }
  rewrite Ha.
  destruct (Z.ltb_spec emax emax) as [|_]; [lia|].
  destruct (Z.ltb_spec emax emin) as [|_]; [lia|].
  unfold mpfr_overflow. rewrite Hlike. reflexivity.
Qed.

(** X11. A turn of the loop in which [u] and [v] are finite, [u * v] is
    negative and overflows when rounded down (lines 320-326): the loop
    stops in this turn and the real part of the result is the overflow
    value of the target rounding mode for a negative number, [-Inf] with a
    negative flag or the largest number in magnitude with a positive flag. *)
Theorem sqr_negative_overflow fuel rop op rnd prec s :
  let x := val_of (mem s (Local sqr_x)) in
  let y := val_of (mem s (Im op)) in
  let p := next_prec prec in
  let u := r_val (karatsuba_u emin emax p x y) in
  let v := r_val (karatsuba_v emin emax p x y) in
  let uv := r_val (karatsuba_uv emin emax p GMP_RNDD x y) in
  let pr := prec_of (mem s (Re rop)) in
  let over := mpfr_overflow emax pr (MPC_RND_RE rnd) true in
  sgn u * sgn v < 0 ->
  is_fin u = true -> is_fin v = true ->
  is_inf uv = true ->
  emin <= 1 -> 1 <= emax < 2 ^ 64 -> 1 <= pr -> pr <= prec ->
  exists s',
    sqr_loop emin emax can_round (S fuel) rop op rnd prec s
    = Returns (r_inex over) s' /\
    val_of (mem s' (Re rop)) = r_val over.
Proof.
  intros x y p u v uv pr over Hneg Fu Fv Hinf Hemin Hemax Hpr Hprec.
  pose proof (next_prec_grows prec) as Hg. fold p in Hg.
  subst over uv u v. unfold karatsuba_uv, karatsuba_u, karatsuba_v in *.
  set (U := add_val emin emax p MPFR_RNDA x y) in *.
  set (V := sub_val emin emax p MPFR_RNDA x y) in *.
  cbn [sqr_loop]. fold p. unfold sqr_body. exec. fold x y. fold U V.
  replace ((sgn (r_val U) =? 0) || (sgn (r_val V) =? 0)) with false
    by (symmetry; apply orb_false_iff; split; apply Z.eqb_neq; nia).
  replace (0 <? sgn (r_val U) * sgn (r_val V)) with false
    by (symmetry; apply Z.ltb_ge; lia).
  exec. rewrite Hinf. exec.
  destruct (r_val U) as [| | |su mu eu] eqn:EU; try discriminate.
  destruct (r_val V) as [| | |sv mv ev] eqn:EV; try discriminate.
  assert (Hs : xorb su sv = true) by (destruct su, sv; cbn in Hneg; (reflexivity || lia)).
  unfold mul_val in *. cbn [mul_exact] in *. unfold mul_exact in *.
  rewrite Hs in *.
  destruct (round_inf_inv emin emax p GMP_RNDD true _ _ Hinf) as [Eo _].
  rewrite Eo. cbn [r_inex r_val signed].
  rewrite Z.lor_m1_r.
  rewrite (round_fits emin emax p GMP_RNDN true 1 1)
    by (change (digits 1) with 1; lia).
  exec. rewrite (to_ulong_small emax) by lia.
  replace (emax <? 1 + emax) with true by (symmetry; apply Z.ltb_lt; lia).
  exec. rewrite ?Nat.eqb_refl.
  fold pr.
  set (R := round emin emax pr (fst rnd) (r_val (mpfr_overflow emax p (fst rnd) true))).
  assert (HR : r_val R = r_val (mpfr_overflow emax pr (fst rnd) true) /\
               (if r_inex R =? 0 then - (1) else r_inex R)
               = r_inex (mpfr_overflow emax pr (fst rnd) true)).
  { unfold R. destruct (is_like_rndz (fst rnd) true) eqn:Hlike.
    - assert (Ein : r_val (mpfr_overflow emax p (fst rnd) true)
                    = Fin true (Z.to_pos (2 ^ p - 1)) emax)
        by (unfold mpfr_overflow; rewrite Hlike; reflexivity).
      rewrite Ein, (round_largest p pr (fst rnd) true) by (try assumption; lia).
      unfold mpfr_overflow. rewrite Hlike. cbn. split; reflexivity.
    - unfold mpfr_overflow. rewrite Hlike. cbn. split; reflexivity. }
  destruct HR as [HR1 HR2]. rewrite HR2.
  eexists. split; [reflexivity|].
  exec. rewrite ?Nat.eqb_refl. exact HR1.
Qed.
End NegativeOverflow.

(** The operand [2^(emax - 12) + 3 * 2^(emax - 10) i]. *)
Lemma sqr_negative_overflow_witness :
  let x := mk_num 53 false 1 (default_emax - 12) in
  let y := mk_num 53 false 3 (default_emax - 10) in
  let s := loop_state 1%nat 0%nat 53 53 x y in
  let p := next_prec 53 in
  let u := r_val (karatsuba_u default_emin default_emax p (val_of x) (val_of y)) in
  let v := r_val (karatsuba_v default_emin default_emax p (val_of x) (val_of y)) in
  let uv := r_val (karatsuba_uv default_emin default_emax p GMP_RNDD
                     (val_of x) (val_of y)) in
  let over := mpfr_overflow default_emax 53 MPFR_RNDN true in
  (sgn u * sgn v < 0 /\ is_fin u = true /\ is_fin v = true /\
   is_inf uv = true /\ default_emin <= 1 /\ 1 <= default_emax < 2 ^ 64 /\
   1 <= prec_of (mem s (Re 1%nat)) /\ prec_of (mem s (Re 1%nat)) <= 53) /\
  exists s',
    sqr_loop default_emin default_emax can_round_interval 1%nat 1%nat 0%nat
      MPC_RNDNN 53 s = Returns (r_inex over) s' /\
    val_of (mem s' (Re 1%nat)) = r_val over.
Proof.
  intros x y s p u v uv over.
  assert (H1 : sgn u * sgn v < 0) by (vm_compute; reflexivity).
  assert (H2 : is_fin u = true) by (vm_compute; reflexivity).
  assert (H3 : is_fin v = true) by (vm_compute; reflexivity).
  assert (H4 : is_inf uv = true) by (vm_compute; reflexivity).
  assert (H5 : default_emin <= 1) by (vm_compute; discriminate).
  assert (H6 : 1 <= default_emax < 2 ^ 64)
    by (vm_compute; split; [discriminate|reflexivity]).
  assert (H7 : 1 <= prec_of (mem s (Re 1%nat))) by (vm_compute; discriminate).
  assert (H8 : prec_of (mem s (Re 1%nat)) <= 53) by (vm_compute; discriminate).
  split; [tauto|].
  exact (sqr_negative_overflow default_emin default_emax can_round_interval
           0%nat 1%nat 0%nat MPC_RNDNN 53 s H1 H2 H3 H4 H5 H6 H7 H8).
Defined.

(** ** The sign of the imaginary part and the real part of the square (X12) *)

Lemma neg_val_involutive v : neg_val (neg_val v) = v.
Proof. destruct v as [|s|s|s m e]; cbn; rewrite ?negb_involutive; reflexivity. Qed.

Lemma mul_exact_neg_neg a b : mul_exact (neg_val a) (neg_val b) = mul_exact a b.
Proof.
  destruct a as [|s|s|s m e], b as [|t|t|t n f]; unfold mul_exact, neg_val;
    try reflexivity; destruct s, t; reflexivity.
Qed.

Lemma mul_exact_comm a b : mul_exact a b = mul_exact b a.
Proof.
  destruct a as [|s|s|s m e], b as [|t|t|t n f]; unfold mul_exact;
    try reflexivity; rewrite ?(xorb_comm s t); try reflexivity.
  rewrite (Pos.mul_comm n m). f_equal. lia.
Qed.

Section Conj.
Variables emin emax : Z.
Variable can_round : mpfr_val -> Z -> mpfr_rnd_t -> mpfr_rnd_t -> Z -> bool.

Lemma mul_val_comm p rnd a b :
  mul_val emin emax p rnd a b = mul_val emin emax p rnd b a.
Proof. unfold mul_val. rewrite mul_exact_comm. reflexivity. Qed.

Lemma add_val_conj p rnd a b :
  add_val emin emax p rnd a (neg_val b) = sub_val emin emax p rnd a b.
Proof. reflexivity. Qed.

Lemma sub_val_conj p rnd a b :
  sub_val emin emax p rnd a (neg_val b) = add_val emin emax p rnd a b.
Proof. unfold sub_val, add_val. rewrite neg_val_involutive. reflexivity. Qed.

(** One turn of the loop on the operand and on its conjugate. *)
Lemma body_conj rop op rnd prec cx py vy pr s1 s2 :
  mem s1 (Local sqr_x) = cx -> mem s2 (Local sqr_x) = cx ->
  mem s1 (Im op) = mk_mpfr py vy -> mem s2 (Im op) = mk_mpfr py (neg_val vy) ->
  prec_of (mem s1 (Re rop)) = pr -> prec_of (mem s2 (Re rop)) = pr ->
  related (fun c1 s1' c2 s2' =>
             c1 = c2 /\ (c1 <> Again -> mem s1' (Re rop) = mem s2' (Re rop)))
    (sqr_body emin emax can_round rop op rnd prec s1)
    (sqr_body emin emax can_round rop op rnd prec s2).
Proof.
  intros Hx1 Hx2 Hy1 Hy2 Hp1 Hp2.
  unfold sqr_body, sqr_ok, sqr_if_ok. exec.
  rewrite add_val_conj, sub_val_conj.
  set (U := add_val emin emax prec MPFR_RNDA (val_of cx) vy).
  set (V := sub_val emin emax prec MPFR_RNDA (val_of cx) vy).
  rewrite (Z.mul_comm (sgn (r_val V)) (sgn (r_val U))).
  rewrite !(Z.lor_comm (r_inex V) (r_inex U)).
  rewrite (orb_comm (sgn (r_val V) =? 0) (sgn (r_val U) =? 0)).
  destruct ((sgn (r_val U) =? 0) || (sgn (r_val V) =? 0)); exec.
  { unfold related. exec. rewrite ?Nat.eqb_refl. auto. }
  destruct (0 <? sgn (r_val U) * sgn (r_val V)); exec;
    rewrite ?(mul_val_comm prec GMP_RNDU (r_val V) (r_val U)),
            ?(mul_val_comm prec GMP_RNDD (r_val V) (r_val U)).
  all: split_all.
  all: unfold related; exec; rewrite ?Nat.eqb_refl.
  all: try (split; [reflexivity|]; intros _; reflexivity).
  all: try (split; [reflexivity|]; intros H; exfalso; apply H; reflexivity).
  all: exact I.
Qed.


Lemma loop_conj rop op rnd cx py vy pr fuel : forall prec s1 s2,
  mem s1 (Local sqr_x) = cx -> mem s2 (Local sqr_x) = cx ->
  mem s1 (Im op) = mk_mpfr py vy -> mem s2 (Im op) = mk_mpfr py (neg_val vy) ->
  prec_of (mem s1 (Re rop)) = pr -> prec_of (mem s2 (Re rop)) = pr ->
  related (fun a1 s1' a2 s2' => a1 = a2 /\ mem s1' (Re rop) = mem s2' (Re rop))
    (sqr_loop emin emax can_round fuel rop op rnd prec s1)
    (sqr_loop emin emax can_round fuel rop op rnd prec s2).
Proof.
  induction fuel as [|fuel IH]; intros prec s1 s2 Hx1 Hx2 Hy1 Hy2 Hp1 Hp2;
    [exact I|].
  cbn [sqr_loop]. cbn [bind].
  pose proof (body_conj rop op rnd (next_prec prec) cx py vy pr s1 s2
                Hx1 Hx2 Hy1 Hy2 Hp1 Hp2) as Hb.
  pose proof (body_again_inputs emin emax can_round rop op rnd (next_prec prec) s1)
    as A1.
  pose proof (body_again_inputs emin emax can_round rop op rnd (next_prec prec) s2)
    as A2.
  destruct (sqr_body emin emax can_round rop op rnd (next_prec prec) s1) as [c1 s1'| |],
           (sqr_body emin emax can_round rop op rnd (next_prec prec) s2) as [c2 s2'| |];
    try contradiction; try exact I.
  destruct Hb as (-> & Hre).
  destruct c2 as [inex_re|].
  - cbn. split; [reflexivity|apply Hre; discriminate].
  - destruct (A1 s1' eq_refl) as (X1 & Y1 & P1).
    destruct (A2 s2' eq_refl) as (X2 & Y2 & P2).
    apply IH; congruence.
Qed.

Lemma mul_val_neg_neg p rnd s m e :
  mul_val emin emax p rnd (Fin (negb s) m e) (Fin (negb s) m e)
  = mul_val emin emax p rnd (Fin s m e) (Fin s m e).
Proof.
  unfold mul_val.
  change (Fin (negb s) m e) with (neg_val (Fin s m e)).
  rewrite mul_exact_neg_neg. reflexivity.
Qed.

Lemma rescue_conj rop op rnd cx py sy my ey cu cv cz s1 s2 :
  mem s1 (Local sqr_x) = cx -> mem s2 (Local sqr_x) = cx ->
  mem s1 (Im op) = mk_mpfr py (Fin sy my ey) ->
  mem s2 (Im op) = mk_mpfr py (Fin (negb sy) my ey) ->
  mem s1 (Local fmma_u) = cu -> mem s2 (Local fmma_u) = cu ->
  mem s1 (Local fmma_v) = cv -> mem s2 (Local fmma_v) = cv ->
  mem s1 (Re rop) = cz -> mem s2 (Re rop) = cz ->
  underflow_flag s1 = underflow_flag s2 ->
  related (fun a1 s1' a2 s2' => a1 = a2 /\ mem s1' (Re rop) = mem s2' (Re rop))
    (fmma_rescue emin emax (Re rop) (Local sqr_x) (Local sqr_x) (Im op) (Im op) (-1) rnd s1)
    (fmma_rescue emin emax (Re rop) (Local sqr_x) (Local sqr_x) (Im op) (Im op) (-1) rnd s2).
Proof.
  intros Hx1 Hx2 Hy1 Hy2 Hu1 Hu2 Hv1 Hv2 Hz1 Hz2 Hf.
  destruct cx as [px vx].
  remember (underflow_flag s2) as uf eqn:Hf2. symmetry in Hf2.
  unfold fmma_rescue. exec.
  destruct ((emin <=? 0) && (0 <=? emax)) eqn:R0; exec.
  all: rewrite ?mul_val_neg_neg.
  all: destruct (is_nan (val_of cz)) eqn:Hnan.
  all: match goal with
       | |- related _ (match fmma_overflow _ _ _ ?eu ?ev ?r ?S1 with _ => _ end)
                      (match fmma_overflow _ _ _ _ _ _ ?S2 with _ => _ end) =>
           epose proof (fmma_overflow_rel emin emax rop rop eu ev r _ _ _ S1 S2
                          ltac:(cbn; reflexivity) ltac:(cbn; reflexivity)
                          ltac:(cbn; reflexivity) ltac:(cbn; reflexivity)
                          ltac:(exec; reflexivity) ltac:(exec; reflexivity)
                          ltac:(cbn; reflexivity)) as Hin;
           destruct (fmma_overflow emin emax (Re rop) eu ev r S1) as [a1 t1| |],
                    (fmma_overflow emin emax (Re rop) eu ev r S2) as [a2 t2| |];
           cbn in Hin; try contradiction; try exact I
       | |- related _ (match fmma_underflow _ _ _ ?eu ?ev ?r ?S1 with _ => _ end)
                      (match fmma_underflow _ _ _ _ _ _ ?S2 with _ => _ end) =>
           epose proof (fmma_underflow_rel emin emax rop rop eu ev r _ _ _ S1 S2
                          ltac:(cbn; reflexivity) ltac:(cbn; reflexivity)
                          ltac:(cbn; reflexivity) ltac:(cbn; reflexivity)
                          ltac:(exec; reflexivity) ltac:(exec; reflexivity)
                          ltac:(cbn; reflexivity)) as Hin;
           destruct (fmma_underflow emin emax (Re rop) eu ev r S1) as [a1 t1| |],
                    (fmma_underflow emin emax (Re rop) eu ev r S2) as [a2 t2| |];
           cbn in Hin; try contradiction; try exact I
       end.
  all: unfold fmma_post in Hin;
       destruct Hin as (-> & Hft & Hzt & (P1 & T1) & (P2 & T2)).
  all: split_all; unfold related; exec; rewrite ?Nat.eqb_refl; auto.
Qed.


Lemma fmma_conj rop op rnd cx py sy my ey pr s1 s2 :
  mem s1 (Local sqr_x) = cx -> mem s2 (Local sqr_x) = cx ->
  mem s1 (Im op) = mk_mpfr py (Fin sy my ey) ->
  mem s2 (Im op) = mk_mpfr py (Fin (negb sy) my ey) ->
  prec_of (mem s1 (Re rop)) = pr -> prec_of (mem s2 (Re rop)) = pr ->
  underflow_flag s1 = underflow_flag s2 ->
  related (fun a1 s1' a2 s2' => a1 = a2 /\ mem s1' (Re rop) = mem s2' (Re rop))
    (mpfr_fmma emin emax (Re rop) (Local sqr_x) (Local sqr_x) (Im op) (Im op) (-1) rnd s1)
    (mpfr_fmma emin emax (Re rop) (Local sqr_x) (Local sqr_x) (Im op) (Im op) (-1) rnd s2).
Proof.
  intros Hx1 Hx2 Hy1 Hy2 Hp1 Hp2 Hf.
  remember (underflow_flag s2) as uf eqn:Hf2. symmetry in Hf2.
  unfold mpfr_fmma. exec. rewrite ?mul_val_neg_neg.
  split_if; exec.
  - split_all; unfold related; exec; rewrite ?Nat.eqb_refl; auto.
  - split_if; exec; [|unfold related; exec; rewrite ?Nat.eqb_refl; auto].
    match goal with
    | |- related _ (match fmma_rescue _ _ _ _ _ _ _ _ ?r ?S1 with _ => _ end)
                   (match fmma_rescue _ _ _ _ _ _ _ _ _ ?S2 with _ => _ end) =>
        epose proof (rescue_conj rop op r cx py sy my ey _ _ _ S1 S2
                       ltac:(exec; reflexivity) ltac:(exec; reflexivity)
                       ltac:(exec; reflexivity) ltac:(exec; reflexivity)
                       ltac:(exec; reflexivity) ltac:(exec; reflexivity)
                       ltac:(exec; reflexivity) ltac:(exec; reflexivity)
                       ltac:(exec; reflexivity) ltac:(exec; reflexivity)
                       ltac:(exec; reflexivity)) as Hin;
        destruct (fmma_rescue emin emax (Re rop) (Local sqr_x) (Local sqr_x)
                    (Im op) (Im op) (-1) r S1) as [a1 t1| |],
                 (fmma_rescue emin emax (Re rop) (Local sqr_x) (Local sqr_x)
                    (Im op) (Im op) (-1) r S2) as [a2 t2| |];
        cbn in Hin; try contradiction; try exact I
    end.
    destruct Hin as (-> & Hzt). unfold related. exec. auto.
Qed.

Lemma re_part_conj fuel rop op rnd prec cre cx py sy my ey pr s1 s2 :
  mem s1 (Re op) = cre -> mem s2 (Re op) = cre ->
  mem s1 (Local sqr_x) = cx -> mem s2 (Local sqr_x) = cx ->
  mem s1 (Im op) = mk_mpfr py (Fin sy my ey) ->
  mem s2 (Im op) = mk_mpfr py (Fin (negb sy) my ey) ->
  prec_of (mem s1 (Re rop)) = pr -> prec_of (mem s2 (Re rop)) = pr ->
  underflow_flag s1 = underflow_flag s2 ->
  related (fun a1 s1' a2 s2' => a1 = a2 /\ mem s1' (Re rop) = mem s2' (Re rop))
    (sqr_re_part emin emax can_round fuel rop op rnd prec s1)
    (sqr_re_part emin emax can_round fuel rop op rnd prec s2).
Proof.
  intros Hr1 Hr2 Hx1 Hx2 Hy1 Hy2 Hp1 Hp2 Hf.
  unfold sqr_re_part. exec. split_if.
  - exact (fmma_conj rop op (fst rnd) cx py sy my ey pr s1 s2
             Hx1 Hx2 Hy1 Hy2 Hp1 Hp2 Hf).
  - exec.
    match goal with
    | |- related _ (match sqr_loop _ _ _ _ _ _ _ _ ?S1 with _ => _ end)
                   (match sqr_loop _ _ _ _ _ _ _ _ ?S2 with _ => _ end) =>
        pose proof (loop_conj rop op rnd cx py
                      (Fin sy my ey) pr fuel prec S1 S2
                      ltac:(exec; reflexivity) ltac:(exec; reflexivity)
                      ltac:(exec; reflexivity) ltac:(exec; reflexivity)
                      ltac:(exec; reflexivity) ltac:(exec; reflexivity)) as Hin;
        destruct (sqr_loop emin emax can_round fuel rop op rnd prec S1) as [a1 t1| |],
                 (sqr_loop emin emax can_round fuel rop op rnd prec S2) as [a2 t2| |];
        cbn in Hin; try contradiction; try exact I
    end.
    destruct Hin as (-> & Hzt). cbn. auto.
Qed.


(** X12. The real part of the square does not depend on the sign of the
    imaginary part of the operand: for every operand (finite or not), every
    rounding mode, every answer of [mpfr_can_round], whether or not
    [rop == op], running [mpc_sqr] on the operand and on its conjugate gives
    the same kind of outcome (a result, the failed assertion of line 297, or
    the need for more turns), and for a result the same real flag and the
    same real part.  In the loop the two sums [u] and [v] change places and
    their product is the same (lines 279-280, 295, 317); in [mpfr_fmma] the
    product [y * y] is the same (line 47). *)
Theorem sqr_conj_real_part fuel rop op rnd s :
  1 <= prec_of (mem s (Re rop)) -> emin <= emax ->
  related (fun a1 s1' a2 s2' =>
             fst a1 = fst a2 /\ mem s1' (Re rop) = mem s2' (Re rop))
    (mpc_sqr emin emax can_round fuel rop op rnd s)
    (mpc_sqr emin emax can_round fuel rop op rnd (conj_state op s)).
Proof.
  intros Hpr Hrange. unfold conj_state.
  destruct (mem s (Re op)) as [pre vre] eqn:Hre1.
  destruct (mem s (Im op)) as [pim vim] eqn:Him1.
  cbn [prec_of val_of].
  remember (underflow_flag s) as uf eqn:Hf. symmetry in Hf.
  unfold mpc_sqr. exec.
  destruct vim as [|sy|sy|sy my ey], vre as [|sx|sx|sx mx ex]; exec.
  all: try (unfold sqr_special; exec; split_all; unfold related; exec;
            rewrite ?Nat.eqb_refl; auto; fail).
  - unfold sqr_real. exec. unfold mul_val.
    destruct sx, sy; exec; unfold related; exec; rewrite ?Nat.eqb_refl;
      rewrite ?(round_idem emin emax) by assumption; auto.
  - unfold sqr_real. exec. unfold mul_val.
    destruct sx, sy; exec; unfold related; exec; rewrite ?Nat.eqb_refl;
      rewrite ?(round_idem emin emax) by assumption; auto.
  - unfold sqr_imag. exec. rewrite ?mul_val_neg_neg. unfold mul_val.
    destruct sx, sy; exec; unfold related; exec; rewrite ?Nat.eqb_refl;
      rewrite ?(round_idem_neg emin emax) by assumption; auto.
  - destruct (Nat.eqb rop op) eqn:Hro; exec.
    + apply Nat.eqb_eq in Hro. subst rop. rewrite ?Hre1, ?Him1 in *. exec.
      match goal with
      | |- related _ (match sqr_re_part _ _ _ ?f ?r ?o ?rd ?pr ?S1 with _ => _ end)
                     (match sqr_re_part _ _ _ _ _ _ _ _ ?S2 with _ => _ end) =>
          epose proof (re_part_conj f r o rd pr _ _ pim sy my ey pre S1 S2
                        ltac:(exec; reflexivity) ltac:(exec; reflexivity)
                        ltac:(exec; reflexivity) ltac:(exec; reflexivity)
                        ltac:(exec; reflexivity) ltac:(exec; reflexivity)
                        ltac:(exec; reflexivity) ltac:(exec; reflexivity)
                        ltac:(exec; reflexivity)) as Hin;
          destruct (sqr_re_part emin emax can_round f r o rd pr S1) as [a1 t1| |],
                   (sqr_re_part emin emax can_round f r o rd pr S2) as [a2 t2| |];
          cbn in Hin; try contradiction; try exact I
      end.
      destruct Hin as (-> & Hzt).
      destruct (im_part_keeps_re emin emax op op rnd t1) as (i1 & u1 & E1 & K1).
      destruct (im_part_keeps_re emin emax op op rnd t2) as (i2 & u2 & E2 & K2).
      rewrite E1, E2. cbn. split; [reflexivity|congruence].
    + match goal with
      | |- related _ (match sqr_re_part _ _ _ ?f ?r ?o ?rd ?pr ?S1 with _ => _ end)
                     (match sqr_re_part _ _ _ _ _ _ _ _ ?S2 with _ => _ end) =>
          epose proof (re_part_conj f r o rd pr _ _ pim sy my ey
                        (prec_of (mem s (Re rop))) S1 S2
                        ltac:(exec; reflexivity) ltac:(exec; reflexivity)
                        ltac:(exec; reflexivity) ltac:(exec; reflexivity)
                        ltac:(exec; reflexivity) ltac:(exec; reflexivity)
                        ltac:(exec; rewrite ?Hro; reflexivity)
                        ltac:(exec; rewrite ?Hro; reflexivity)
                        ltac:(exec; reflexivity)) as Hin;
          destruct (sqr_re_part emin emax can_round f r o rd pr S1) as [a1 t1| |],
                   (sqr_re_part emin emax can_round f r o rd pr S2) as [a2 t2| |];
          cbn in Hin; try contradiction; try exact I
      end.
      destruct Hin as (-> & Hzt).
      destruct (im_part_keeps_re emin emax rop op rnd t1) as (i1 & u1 & E1 & K1).
      destruct (im_part_keeps_re emin emax rop op rnd t2) as (i2 & u2 & E2 & K2).
      rewrite E1, E2. cbn. split; [reflexivity|congruence].
Qed.

End Conj.

(** The operand [(1 + 2^-52) + (0.75 + 2^-30) i] and its conjugate. *)
Lemma sqr_conj_real_part_witness :
  let x := mk_num 53 false 4503599627370497 (-52) in
  let y := mk_num 53 false 805306369 (-30) in
  let s := init_state 1%nat 0%nat 53 53 x y in
  (1 <= prec_of (mem s (Re 1%nat)) /\ default_emin <= default_emax) /\
  related (fun a1 s1' a2 s2' =>
             fst a1 = fst a2 /\ mem s1' (Re 1%nat) = mem s2' (Re 1%nat))
    (mpc_sqr default_emin default_emax can_round_interval 2%nat 1%nat 0%nat
       MPC_RNDNN s)
    (mpc_sqr default_emin default_emax can_round_interval 2%nat 1%nat 0%nat
       MPC_RNDNN (conj_state 0%nat s)).
Proof.
  intros x y s.
  assert (H1 : 1 <= prec_of (mem s (Re 1%nat))) by (vm_compute; discriminate).
  assert (H2 : default_emin <= default_emax) by (vm_compute; discriminate).
  split; [tauto|].
  exact (sqr_conj_real_part default_emin default_emax can_round_interval
           2%nat 1%nat 0%nat MPC_RNDNN s H1 H2).
Defined.

(** ** The exact value rounded by [mpfr_fmma] (X1) *)

(** Whether the significand is a power of 2 is a property of the number. *)
Lemma is_pow2_mag (m : positive) (e : Z) :
  is_pow2 m = true <-> (Q_of_val (Fin false m e) == 2 ^ (e - 1))%Q.
Proof.
  unfold is_pow2. rewrite mag_eq.
  pose proof (digits_pos m) as Hd.
  pose proof (Qpow2_pos (e - digits m)) as P.
  assert (E : (2 ^ (e - 1) == inject_Z (2 ^ Z.log2 (Z.pos m)) * 2 ^ (e - digits m))%Q).
  { rewrite Qpow2_inject by apply Z.log2_nonneg.
    rewrite <- Qpow2_add. unfold digits.
    replace (Z.log2 (Z.pos m) + (e - Z.succ (Z.log2 (Z.pos m)))) with (e - 1) by lia.
    reflexivity. }
  rewrite E. split.
  - intros H. apply Z.eqb_eq in H. rewrite <- H. reflexivity.
  - intros H. apply Z.eqb_eq.
    apply Qmult_inj_r in H;
      [|intros Hc; apply (Qlt_not_eq _ _ P); symmetry; exact Hc].
    exact (proj1 (inject_Z_injective _ _) H).
Qed.

Lemma is_pow2_ext m1 e1 m2 e2 :
  (Q_of_val (Fin false m1 e1) == Q_of_val (Fin false m2 e2))%Q ->
  e1 = e2 /\ is_pow2 m1 = is_pow2 m2.
Proof.
  intros E.
  assert (He : e1 = e2).
  { apply (mag_exponent m1 e1 e2). rewrite E. apply mag_bounds. }
  split; [exact He|]. subst e2.
  pose proof (is_pow2_mag m1 e1) as H1. pose proof (is_pow2_mag m2 e1) as H2.
  rewrite E in H1.
  destruct (is_pow2 m1), (is_pow2 m2); try reflexivity.
  - symmetry. apply H2, H1. reflexivity.
  - apply H1, H2. reflexivity.
Qed.

Lemma Fin_value_inj s m e t n f :
  (Q_of_val (Fin s m e) == Q_of_val (Fin t n f))%Q ->
  s = t /\ (Q_of_val (Fin false m e) == Q_of_val (Fin false n f))%Q.
Proof.
  intros E. rewrite (signed_mag s m e), (signed_mag t n f) in E.
  pose proof (mag_pos m e). pose proof (mag_pos n f).
  destruct s, t; (split; [reflexivity|lra]) || (exfalso; lra).
Qed.

Section FmmaExact.
Variables emin emax : Z.

Local Arguments Q_of_val : simpl never.

(** Rounding depends on the number only, not on the significand chosen to
    write it. *)
Lemma round_ext p rnd s m1 e1 m2 e2 :
  1 <= p ->
  (Q_of_val (Fin false m1 e1) == Q_of_val (Fin false m2 e2))%Q ->
  round emin emax p rnd (Fin s m1 e1) = round emin emax p rnd (Fin s m2 e2).
Proof.
  intros Hp E. destruct (is_pow2_ext m1 e1 m2 e2 E) as [He Hw]. subst e2.
  unfold round.
  rewrite (round_raw_same p rnd s m1 e1 m2 e1 Hp)
    by (apply trunc_ext; [destruct (rnd_eqb rnd MPFR_RNDN); lia|exact E]).
  unfold underflow_rnd. rewrite Hw. reflexivity.
Qed.

(** The rounded sum of two regular numbers depends on their values only. *)
Lemma round_add_exact_ext p rnd s1 m1 e1 t1 n1 f1 s2 m2 e2 t2 n2 f2 :
  1 <= p ->
  (Q_of_val (Fin s1 m1 e1) == Q_of_val (Fin s2 m2 e2))%Q ->
  (Q_of_val (Fin t1 n1 f1) == Q_of_val (Fin t2 n2 f2))%Q ->
  round emin emax p rnd (add_exact rnd (Fin s1 m1 e1) (Fin t1 n1 f1))
  = round emin emax p rnd (add_exact rnd (Fin s2 m2 e2) (Fin t2 n2 f2)).
Proof.
  intros Hp Ea Eb.
  pose proof (Q_of_val_add_exact rnd s1 m1 e1 t1 n1 f1) as Q1.
  pose proof (Q_of_val_add_exact rnd s2 m2 e2 t2 n2 f2) as Q2.
  rewrite Ea, Eb, <- Q2 in Q1. clear Q2.
  destruct (add_exact_shape rnd s1 m1 e1 t1 n1 f1) as [Z1|(r1 & k1 & F1 & _)];
    destruct (add_exact_shape rnd s2 m2 e2 t2 n2 f2) as [Z2|(r2 & k2 & F2 & _)].
  - rewrite Z1, Z2. reflexivity.
  - exfalso. rewrite Z1, F2 in Q1. rewrite signed_mag in Q1.
    match type of Q1 with
      (_ == if _ then - Q_of_val (Fin false ?k ?e) else _)%Q =>
        pose proof (mag_pos k e) end.
    change (Q_of_val (Zero (rnd_eqb rnd MPFR_RNDD))) with 0%Q in Q1.
    destruct r2; lra.
  - exfalso. rewrite Z2, F1 in Q1. rewrite signed_mag in Q1.
    match type of Q1 with
      ((if _ then - Q_of_val (Fin false ?k ?e) else _) == _)%Q =>
        pose proof (mag_pos k e) end.
    change (Q_of_val (Zero (rnd_eqb rnd MPFR_RNDD))) with 0%Q in Q1.
    destruct r1; lra.
  - rewrite F1, F2 in *. apply Fin_value_inj in Q1. destruct Q1 as [<- Q1].
    apply round_ext; assumption.
Qed.

(** A sum of regular numbers that is the number 0 is a zero, negative when
    rounding down. *)
Lemma add_exact_cancel rnd s m e t n f :
  (Q_of_val (Fin s m e) + Q_of_val (Fin t n f) == 0)%Q ->
  add_exact rnd (Fin s m e) (Fin t n f) = Zero (rnd_eqb rnd MPFR_RNDD).
Proof.
  intros E. rewrite <- Q_of_val_add_exact with (rnd := rnd) in E.
  destruct (add_exact_shape rnd s m e t n f) as [Z1|(r1 & k1 & F1 & _)];
    [exact Z1|exfalso].
  rewrite F1, signed_mag in E.
  match type of E with
    ((if _ then - Q_of_val (Fin false ?k ?e) else _) == _)%Q =>
      pose proof (mag_pos k e) end.
  destruct r1; lra.
Qed.

(** X1. In an exponent range with [emin <= 1 <= emax < 2^63], [mpfr_fmma]
    on finite non-zero operands that fill the precisions of their variables,
    none of them nor [z] being a local variable of [mpfr_fmma], [z] of
    precision at least 1, when the two products [a * b] and [c * d] neither
    overflow nor underflow.  Let [exact] be the exact sum of the exact
    products, [a * b + c * d], or [a * b - c * d] when [sign < 0]: it is
    that number, and when that number is 0 it is the zero [+0], or [-0] when
    rounding down.  The call returns, [z] holds [exact] rounded once to the
    precision of [z] in the mode [rnd] (the overflow value of that mode when
    the sum overflows), the returned value is the ternary value of that
    rounding, and only [z] and the two local variables are written. *)
Theorem fmma_regular z a b c d sign rnd s sa ma ea sb mb eb sc mc ec sd md ed :
  let A := Fin sa ma ea in
  let B := Fin sb mb eb in
  let C := Fin sc mc ec in
  let D := Fin sd md ed in
  let pz := prec_of (mem s z) in
  let ab := mul_exact A B in
  let cd := mul_exact C D in
  let exact := add_exact rnd ab (if sign <? 0 then neg_val cd else cd) in
  let number :=
    (Q_of_val A * Q_of_val B
     + (if sign <? 0 then -1 else 1) * (Q_of_val C * Q_of_val D))%Q in
  val_of (mem s a) = A -> val_of (mem s b) = B ->
  val_of (mem s c) = C -> val_of (mem s d) = D ->
  digits ma = prec_of (mem s a) -> digits mb = prec_of (mem s b) ->
  digits mc = prec_of (mem s c) -> digits md = prec_of (mem s d) ->
  1 <= pz ->
  fmma_local z = false -> fmma_local a = false -> fmma_local b = false ->
  fmma_local c = false -> fmma_local d = false ->
  emin <= get_exp (mul_exact A B) <= emax ->
  emin <= get_exp (mul_exact C D) <= emax ->
  emin <= 1 -> 1 <= emax < 2 ^ 63 ->
  (Q_of_val exact == number)%Q /\
  ((number == 0)%Q -> exact = Zero (rnd_eqb rnd MPFR_RNDD)) /\
  exists s',
    mpfr_fmma emin emax z a b c d sign rnd s
    = Returns (r_inex (round emin emax pz rnd exact)) s' /\
    val_of (mem s' z) = r_val (round emin emax pz rnd exact) /\
    (forall w, var_eqb w z = false -> fmma_local w = false -> mem s' w = mem s w).
Proof.
  intros A B C D pz ab cd exact number Ha Hb Hc Hd Da Db Dc Dd Hpz
    Lz La Lb Lc Ld Eab Ecd Hemin Hemax.
  destruct (fmma_regular_sum emin emax z a b c d sign rnd s sa ma ea sb mb eb
              sc mc ec sd md ed Ha Hb Hc Hd Da Db Dc Dd Hpz Lz La Lb Lc Ld
              Eab Ecd Hemin Hemax) as (s' & Hrun & Hval & Hframe).
  destruct (mul_val_exact emin emax _ _ sa ma ea sb mb eb Da Db Eab)
    as (MU & EU & QU).
  destruct (mul_val_exact emin emax _ _ sc mc ec sd md ed Dc Dd Ecd)
    as (MV & EV & QV).
  cbv zeta in Hrun, Hval. fold A B C D pz in Hrun, Hval.
  fold A B in EU. fold C D in EV.
  rewrite EU, EV in Hrun, Hval. cbn [r_val] in Hrun, Hval.
  assert (Qab : (Q_of_val ab == Q_of_val A * Q_of_val B)%Q)
    by apply Q_of_val_mul_exact.
  assert (Qcd : (Q_of_val cd == Q_of_val C * Q_of_val D)%Q)
    by apply Q_of_val_mul_exact.
  assert (QU' : (Q_of_val (Fin (xorb sa sb) MU (get_exp (mul_exact A B)))
                 == Q_of_val ab)%Q) by (rewrite Qab; exact QU).
  assert (QV' : (Q_of_val (Fin (xorb sc sd) MV (get_exp (mul_exact C D)))
                 == Q_of_val cd)%Q) by (rewrite Qcd; exact QV).
  clear QU QV.
  assert (Hsame :
    round emin emax pz rnd
      (add_exact rnd (Fin (xorb sa sb) MU (get_exp (mul_exact A B)))
         (if sign <? 0
          then neg_val (Fin (xorb sc sd) MV (get_exp (mul_exact C D)))
          else Fin (xorb sc sd) MV (get_exp (mul_exact C D))))
    = round emin emax pz rnd exact).
  { unfold exact. revert QU' QV'. unfold ab, cd, A, B, C, D, mul_exact.
    cbn [get_exp]. intros QU' QV'.
    destruct (sign <? 0); cbn [neg_val]; apply round_add_exact_ext;
      try assumption.
    rewrite !(signed_mag (negb _)). rewrite (signed_mag (xorb sc sd) MV) in QV'.
    rewrite (signed_mag (xorb sc sd) (mc * md)) in QV'.
    destruct (xorb sc sd); cbn [negb]; lra. }
  rewrite Hsame in Hrun, Hval.
  assert (Qe : (Q_of_val exact == number)%Q).
  { unfold exact, number. revert Qab Qcd. unfold ab, cd, A, B, C, D, mul_exact.
    intros Qab Qcd.
    destruct (sign <? 0); cbn [neg_val]; rewrite Q_of_val_add_exact.
    - match goal with
      | |- (_ + Q_of_val (Fin (negb ?s) ?m ?e) == _)%Q =>
          change (Fin (negb s) m e) with (neg_val (Fin s m e))
      end.
      rewrite Q_of_val_neg, Qab, Qcd. ring.
    - rewrite Qab, Qcd. ring. }
  split; [exact Qe|]. split; [|exists s'; auto].
  intros H0. rewrite <- Qe in H0. revert H0.
  unfold exact, ab, cd, A, B, C, D, mul_exact.
  destruct (sign <? 0); cbn [neg_val]; intros H0;
    apply add_exact_cancel; rewrite <- Q_of_val_add_exact with (rnd := rnd);
    exact H0.
Qed.

End FmmaExact.

(** [3 * 3 - 0.875 * 0.875] at 53 bits. *)
Lemma fmma_regular_witness :
  let x := mk_num 53 false 3 0 in
  let y := mk_num 53 false 7 (-3) in
  let s := loop_state 1%nat 0%nat 53 53 x y in
  let A := Fin false 6755399441055744 2 in
  let C := Fin false 7881299347898368 0 in
  let exact := add_exact MPFR_RNDN (mul_exact A A) (neg_val (mul_exact C C)) in
  (val_of (mem s (Local sqr_x)) = A /\ val_of (mem s (Im 0%nat)) = C /\
   digits 6755399441055744 = prec_of (mem s (Local sqr_x)) /\
   digits 7881299347898368 = prec_of (mem s (Im 0%nat)) /\
   1 <= prec_of (mem s (Re 1%nat)) /\
   fmma_local (Re 1%nat) = false /\ fmma_local (Local sqr_x) = false /\
   fmma_local (Im 0%nat) = false /\
   default_emin <= get_exp (mul_exact A A) <= default_emax /\
   default_emin <= get_exp (mul_exact C C) <= default_emax /\
   default_emin <= 1 /\ 1 <= default_emax < 2 ^ 63) /\
  (Q_of_val exact
   == Q_of_val A * Q_of_val A + -1 * (Q_of_val C * Q_of_val C))%Q /\
  ((Q_of_val A * Q_of_val A + -1 * (Q_of_val C * Q_of_val C) == 0)%Q ->
   exact = Zero false) /\
  exists s',
    mpfr_fmma default_emin default_emax (Re 1%nat) (Local sqr_x) (Local sqr_x)
      (Im 0%nat) (Im 0%nat) (-1) MPFR_RNDN s
    = Returns (r_inex (round default_emin default_emax
                         (prec_of (mem s (Re 1%nat))) MPFR_RNDN exact)) s' /\
    val_of (mem s' (Re 1%nat))
    = r_val (round default_emin default_emax (prec_of (mem s (Re 1%nat)))
               MPFR_RNDN exact) /\
    (forall w, var_eqb w (Re 1%nat) = false -> fmma_local w = false ->
               mem s' w = mem s w).
Proof.
  intros x y s A C exact.
  assert (H1 : val_of (mem s (Local sqr_x)) = A) by reflexivity.
  assert (H2 : val_of (mem s (Im 0%nat)) = C) by reflexivity.
  assert (H3 : digits 6755399441055744 = prec_of (mem s (Local sqr_x)))
    by reflexivity.
  assert (H4 : digits 7881299347898368 = prec_of (mem s (Im 0%nat)))
    by reflexivity.
  assert (H5 : 1 <= prec_of (mem s (Re 1%nat))) by (vm_compute; discriminate).
  assert (H6 : fmma_local (Re 1%nat) = false) by reflexivity.
  assert (H7 : fmma_local (Local sqr_x) = false) by reflexivity.
  assert (H8 : fmma_local (Im 0%nat) = false) by reflexivity.
  assert (H9 : default_emin <= get_exp (mul_exact A A) <= default_emax)
    by (vm_compute; split; discriminate).
  assert (H10 : default_emin <= get_exp (mul_exact C C) <= default_emax)
    by (vm_compute; split; discriminate).
  assert (H11 : default_emin <= 1) by (vm_compute; discriminate).
  assert (H12 : 1 <= default_emax < 2 ^ 63)
    by (vm_compute; split; [discriminate|reflexivity]).
  split; [tauto|].
  exact (fmma_regular default_emin default_emax (Re 1%nat) (Local sqr_x)
           (Local sqr_x) (Im 0%nat) (Im 0%nat) (-1) MPFR_RNDN s
           false 6755399441055744 2 false 6755399441055744 2
           false 7881299347898368 0 false 7881299347898368 0
           H1 H1 H2 H2 H3 H3 H4 H4 H5 H6 H7 H7 H8 H8 H9 H10 H11 H12).
Defined.

(** ** The underflow boundary of a negative product (X13) *)

Section NegativeBoundary.
Variables emin emax : Z.
Variable can_round : mpfr_val -> Z -> mpfr_rnd_t -> mpfr_rnd_t -> Z -> bool.

(** X13. In one turn of the loop of [mpc_sqr] (lines 314-344), when the
    product [u * v] is negative and its value rounded down is finite with
    exponent exactly [emin], the loop returns in this turn, whatever the
    fuel: in the modes toward zero, to nearest and up the real result is
    [+0] with [inex_re = 1]; in the modes down and away from zero the
    tentative product itself is stored, rounded to the target precision,
    with [inex_re = -1]. *)
Theorem sqr_underflow_boundary fuel rop op rnd prec s :
  let x := val_of (mem s (Local sqr_x)) in
  let y := val_of (mem s (Im op)) in
  let p := next_prec prec in
  let u := r_val (karatsuba_u emin emax p x y) in
  let v := r_val (karatsuba_v emin emax p x y) in
  let uv := r_val (karatsuba_uv emin emax p GMP_RNDD x y) in
  sgn u * sgn v < 0 ->
  is_inf uv = false ->
  get_exp uv = emin ->
  underflow_boundary_post emin emax can_round fuel rop op rnd prec s.
Proof.
  exact (sqr_underflow_boundary_run emin emax can_round fuel rop op rnd prec s).
Qed.

End NegativeBoundary.

(** The operand [(2 + 3i) * 2^j] with [2 j + 3 = emin]: [u * v] is
    [-5 * 2^(2 j)], of exponent [emin]. *)
Lemma sqr_underflow_boundary_witness :
  let x := mk_num 3 false 2 (-1 - 2 ^ 61) in
  let y := mk_num 3 false 3 (-1 - 2 ^ 61) in
  let s := loop_state 1%nat 0%nat 3 3 x y in
  let p := next_prec 3 in
  let u := r_val (karatsuba_u default_emin default_emax p (val_of x) (val_of y)) in
  let v := r_val (karatsuba_v default_emin default_emax p (val_of x) (val_of y)) in
  let uv := r_val (karatsuba_uv default_emin default_emax p GMP_RNDD
                     (val_of x) (val_of y)) in
  (sgn u * sgn v < 0 /\ is_inf uv = false /\ get_exp uv = default_emin) /\
  underflow_boundary_post default_emin default_emax can_round_interval
    0%nat 1%nat 0%nat (MPFR_RNDD, MPFR_RNDN) 3 s.
Proof.
  intros x y s p u v uv.
  assert (H1 : sgn u * sgn v < 0) by (vm_compute; reflexivity).
  assert (H2 : is_inf uv = false) by (vm_compute; reflexivity).
  assert (H3 : get_exp uv = default_emin) by (vm_compute; reflexivity).
  split; [repeat split; assumption|].
  exact (sqr_underflow_boundary default_emin default_emax can_round_interval
           0%nat 1%nat 0%nat (MPFR_RNDD, MPFR_RNDN) 3 s H1 H2 H3).
Defined.
